(** * MinIO manager: the concurrent multipart upload of [handleSubmit]

    A shallow embedding of the upload command of the MinIO manager
    extension (the [Command] component with its [handleSubmit] and
    [cancelUpload] closures) and the properties of its multipart engine:
    part planning, the worker pool, per-part retry, progress aggregation,
    cancellation and the retry / abort decision.

    JavaScript runs the closures of one upload on a single thread: the code
    between two [await]s (and the promise continuations it triggers, which
    are microtasks) runs without interruption.  The model has one
    transition per callback of the event loop; the order of the callbacks,
    the answers of the store and of the HTTP layer, the user's answers and
    the moment of a cancellation are chosen by the environment.  Sizes and
    counters are integers; the percentage is computed as the code computes
    it, in doubles.

    Around the engine the development follows [handleSubmit] from the form
    to its last toast (the check of the file, the bucket, the public URL,
    the clipboard, the two [catch] blocks), and the list command: the
    reading of a page of the listing, the order and the merge of the
    entries, the navigation, the preview and the progress stream. *)

From Stdlib Require Import ZArith List Bool Lia Lqa Sorting.Sorted Sorting.Permutation QArith.QArith_base QArith.Qround QArith.Qfield QArith.Qpower.
From stdpp Require Import gmultiset base list strings pretty gmap.
From stdpp Require sorting.

Local Open Scope Z_scope.

(** ** JavaScript numbers of the configuration

    [parseInt] answers an integer or [NaN].  The sizes handled here are
    integers far below 2^53, where the arithmetic of doubles on integers is
    exact, so that a number is an integer of [Z] or [NaN]. *)

Inductive jsnum : Type :=
| Num (z : Z)
| NaN.

Definition Math_max (a b : jsnum) : jsnum :=
  match a, b with
  | Num x, Num y => Num (Z.max x y)
  | _, _ => NaN
  end.

Definition Math_min (a b : jsnum) : jsnum :=
  match a, b with
  | Num x, Num y => Num (Z.min x y)
  | _, _ => NaN
  end.

Definition js_mul (a b : jsnum) : jsnum :=
  match a, b with
  | Num x, Num y => Num (x * y)
  | _, _ => NaN
  end.

Definition js_add (a b : jsnum) : jsnum :=
  match a, b with
  | Num x, Num y => Num (x + y)
  | _, _ => NaN
  end.

Definition js_sub (a b : jsnum) : jsnum :=
  match a, b with
  | Num x, Num y => Num (x - y)
  | _, _ => NaN
  end.

(** [a < b]: every comparison with [NaN] is false. *)
Definition js_lt (a b : jsnum) : bool :=
  match a, b with
  | Num x, Num y => x <? y
  | _, _ => false
  end.

(** [Math.ceil(a / b)] for an integer [a] and a positive integer [b]. *)
Definition ceil_div (a b : Z) : Z := - ((- a) / b).

Definition Math_ceil_div (a b : jsnum) : jsnum :=
  match a, b with
  | Num x, Num y => Num (ceil_div x y)
  | _, _ => NaN
  end.

(** ** Preferences

    The three numbers of the upload configuration, as [parseInt] returns
    them: [parseInt(preferences.partSize || "5")],
    [parseInt(preferences.concurrency || "4")] and
    [parseInt(preferences.retryCount || "3")]. *)

Record Preferences : Type := {
  partSizePref : jsnum;      (* in MB *)
  concurrencyPref : jsnum;
  retryCountPref : jsnum
}.

Definition MiB : Z := 1024 * 1024.

(** [Math.max(5, parseInt(...)) * 1024 * 1024], "Minimum 5MB". *)
Definition partSize_of (p : Preferences) : jsnum :=
  js_mul (js_mul (Math_max (Num 5) (partSizePref p)) (Num 1024)) (Num 1024).

Definition concurrency_of (p : Preferences) : jsnum :=
  Math_max (Num 1) (concurrencyPref p).

Definition maxRetries_of (p : Preferences) : jsnum :=
  Math_max (Num 0) (retryCountPref p).

(** ** Part planning *)

Record PartInfo : Type := {
  partNumber : Z;
  start : Z;
  end_ : Z
}.

Global Instance PartInfo_eq_dec : EqDecision PartInfo.
Proof. solve_decision. Defined.

(** The loop [for (let i = 0; i < totalParts; i++)] with [n] rounds to go. *)
Fixpoint parts_loop (n : nat) (i : Z) (partSize fileSize : Z) : list PartInfo :=
  match n with
  | O => []
  | S n' =>
      let start := i * partSize in
      let end' := Z.min (start + partSize) fileSize in
      {| partNumber := i + 1; start := start; end_ := end' |}
        :: parts_loop n' (i + 1) partSize fileSize
  end.

Definition totalParts_of (fileSize partSize : Z) : Z := ceil_div fileSize partSize.

Definition plan (fileSize partSize : Z) : list PartInfo :=
  parts_loop (Z.to_nat (totalParts_of fileSize partSize)) 0 partSize fileSize.

(** The byte length of a part, [part.end - part.start]. *)
Definition part_len (p : PartInfo) : Z := end_ p - start p.

(** ** Part results and their order *)

Record PartResult : Type := {
  part : Z;
  etag : string
}.

Global Instance PartResult_eq_dec : EqDecision PartResult.
Proof. solve_decision. Defined.

(** [uploadedParts.sort((a, b) => a.part - b.part)]: a stable sort under
    the comparator of the source, as [Array.prototype.sort] is. *)
Definition by_part (a b : PartResult) : Z := part a - part b.

Fixpoint sort_insert (cmp : PartResult → PartResult → Z) (x : PartResult)
    (l : list PartResult) : list PartResult :=
  match l with
  | [] => [x]
  | y :: l' => if cmp x y <=? 0 then x :: l else y :: sort_insert cmp x l'
  end.

Definition js_sort (cmp : PartResult → PartResult → Z) (l : list PartResult)
  : list PartResult :=
  foldr (sort_insert cmp) [] l.

(** ** Doubles

    The numbers of JavaScript are the doubles of IEEE 754.  The integers
    up to 2^53 are doubles, and the sums and the products of the sizes
    stay among them.  A quotient, and a product with one, is rounded to the
    nearest double ([roundTiesToEven]: to the one with the even
    significand when two are as near).  A double is taken as the rational
    it stands for; what follows is right below 2^1024, where the doubles
    end. *)

(** [floor(log2 q)] for [0 < q] *)
Definition ilog2 (q : Q) : Z :=
  let k := Z.log2 (Qnum q) - Z.log2 (Zpos (Qden q)) in
  if Qlt_le_dec q (2 ^ k)%Q then k - 1 else k.

(** The integer nearest to [x], the even one of two. *)
Definition nearest_even (x : Q) : Z :=
  let f := Qfloor x in
  match (x - inject_Z f ?= 1 # 2)%Q with
  | Lt => f
  | Gt => f + 1
  | Eq => if Z.even f then f else f + 1
  end.

(** The double nearest to [q] for [0 < q]: an integer of at most 53 bits
    times a power of 2 that is at least 2^-1074, so that the significand
    has 53 bits from 2^-1022 on and fewer below. *)
Definition binary64_pos (q : Q) : Q :=
  let e := Z.max (ilog2 q - 52) (-1074) in
  (inject_Z (nearest_even (q * 2 ^ (- e))) * 2 ^ e)%Q.

Definition binary64 (q : Q) : Q :=
  match (q ?= 0)%Q with
  | Eq => 0%Q
  | Gt => binary64_pos q
  | Lt => (- binary64_pos (- q))%Q
  end.

(** [a / b] for [b] other than 0 *)
Definition js_quot (a b : Q) : Q := binary64 (a / b).

(** [a * b] *)
Definition js_prod (a b : Q) : Q := binary64 (a * b).

(** ** Progress aggregation *)

(** [Math.round(x)]: the integer nearest to the double [x], the larger
    one of two. *)
Definition Math_round (x : Q) : Z := Qfloor (x + (1 # 2))%Q.

(** [partProgress.reduce((sum, p) => sum + p, 0)] *)
Definition totalUploaded_of (partProgress : list Z) : Z :=
  foldl Z.add 0 partProgress.

(** [Math.round((totalUploaded / fileSize) * 100)] for a [fileSize] other
    than 0: the quotient and the product are rounded to doubles before
    [Math.round] sees them. *)
Definition percentage_of (totalUploaded fileSize : Z) : Z :=
  Math_round (js_prod (js_quot (inject_Z totalUploaded) (inject_Z fileSize)) (inject_Z 100)).

(** ** Errors *)

Definition cancelled_msg : string := "Upload cancelled".
Definition aborted_msg : string := "Upload aborted by user".
Definition array_length_msg : string := "Invalid array length".

(** [error.message === "Upload cancelled"] *)
Definition is_cancel (message : string) : bool := String.eqb message cancelled_msg.

Definition show_status (statusCode : option Z) : string :=
  match statusCode with
  | Some z => pretty z
  | None => "undefined"
  end.

(** [`Part ${part.partNumber} upload failed with status ${res.statusCode}`] *)
Definition status_error (partNumber : Z) (statusCode : option Z) : string :=
  "Part " +:+ pretty partNumber +:+ " upload failed with status " +:+ show_status statusCode.

(** [res.statusCode && res.statusCode >= 200 && res.statusCode < 300] *)
Definition status_ok (statusCode : option Z) : bool :=
  match statusCode with
  | Some z => negb (z =? 0) && (200 <=? z) && (z <? 300)
  | None => false
  end.

(** ** The catch block of [uploadPartWithRetry]

    What the [catch] of [uploadPartWithRetry(part, retriesLeft)] does with
    the error of an attempt: rethrow it, or reset the progress of the part,
    wait and call [uploadPartWithRetry(part, retriesLeft - 1)]. *)

Inductive catch_result : Type :=
| Rethrow (err : string)
| RetryAfter (ms : jsnum) (retriesLeft' : jsnum).

Definition retry_catch (maxRetries retriesLeft : jsnum) (cancelled : bool)
    (err : string) : catch_result :=
  if cancelled || is_cancel err then Rethrow err
  else if js_lt (Num 0) retriesLeft then
    RetryAfter (js_mul (js_add (js_sub maxRetries retriesLeft) (Num 1)) (Num 1000))
               (js_sub retriesLeft (Num 1))
  else Rethrow err.

(** ** The state of one upload *)

(** The constants of the closure of [handleSubmit]. *)
Record Session : Type := {
  fileSize : Z;
  partSize : jsnum;
  concurrency : jsnum;
  maxRetries : jsnum
}.

Definition session_of (prefs : Preferences) (size : Z) : Session :=
  {| fileSize := size;
     partSize := partSize_of prefs;
     concurrency := concurrency_of prefs;
     maxRetries := maxRetries_of prefs |}.

Definition totalParts (c : Session) : jsnum :=
  Math_ceil_div (Num (fileSize c)) (partSize c).

(** [parts]; the array exists in the multipart branch only, where
    [partSize] is a number. *)
Definition parts (c : Session) : list PartInfo :=
  match partSize c with
  | Num ps => plan (fileSize c) ps
  | NaN => []
  end.

(** Where the [async] function of a worker stands. *)
Inductive wstatus : Type :=
| WPresign (p : PartInfo) (retriesLeft : jsnum)
    (* in [uploadPart], awaiting [presignedUrl] *)
| WRequest (p : PartInfo) (retriesLeft : jsnum) (uploaded : Z) (live : bool)
    (* the PUT request is open; [live = false] once it was destroyed *)
| WBackoff (p : PartInfo) (retriesLeft : jsnum)
    (* awaiting the timer, then [uploadPartWithRetry(p, retriesLeft)] *)
| WResolved
| WRejected (err : string).

Inductive Outcome : Type :=
| Success
| Failure (message : string).

Inductive AbortReason : Type :=
| ByUser
| ByCancel.

(** Where [handleSubmit] stands: the [await] it is suspended at. *)
Inductive Phase : Type :=
| PSimple                              (* [fPutObject] *)
| PInitiate                            (* [initiateNewMultipartUpload] *)
| PWorkers (first : nat)               (* [Promise.all(workers)], the workers from index [first] on *)
| PAlert (failedParts : list PartInfo) (* [confirmAlert] *)
| PAbort (why : AbortReason)           (* [abortMultipartUpload] *)
| PComplete                            (* [completeMultipartUpload] *)
| PDone (o : Outcome).

(** The calls made to the outside, the latest first. *)
Inductive Action : Type :=
| ActFPutObject
| ActInitiate
| ActPresign (partNumber : Z)
| ActRequest (partNumber : Z)
| ActDelay (partNumber : Z) (ms : jsnum)
| ActAlert (completedPartsCount : Z) (total : jsnum) (failedPartsCount : Z)
| ActAbort
| ActComplete (uploaded : list PartResult).

(** The variables of the closure that change, the place [handleSubmit] is
    at, and the trace.  [cancelled] is [uploadCancelledRef.current];
    [activeRequests] is [activeRequestsRef.current], a request being named
    by the worker that opened it; [toastPercent] is the percentage of
    [toast.message]. *)
Record State : Type := {
  cancelled : bool;
  activeRequests : list nat;
  partProgress : list Z;
  toastPercent : Z;
  queue : list PartInfo;
  uploadedParts : list PartResult;
  uploadError : option string;
  workers : list wstatus;
  phase : Phase;
  trace : list Action
}.

Definition set_cancelled (b : bool) (s : State) : State :=
  {| cancelled := b; activeRequests := activeRequests s; partProgress := partProgress s;
     toastPercent := toastPercent s; queue := queue s;
     uploadedParts := uploadedParts s; uploadError := uploadError s;
     workers := workers s; phase := phase s; trace := trace s |}.

Definition set_activeRequests (reg : list nat) (s : State) : State :=
  {| cancelled := cancelled s; activeRequests := reg; partProgress := partProgress s;
     toastPercent := toastPercent s; queue := queue s;
     uploadedParts := uploadedParts s; uploadError := uploadError s;
     workers := workers s; phase := phase s; trace := trace s |}.

Definition set_partProgress (l : list Z) (s : State) : State :=
  {| cancelled := cancelled s; activeRequests := activeRequests s; partProgress := l;
     toastPercent := toastPercent s; queue := queue s;
     uploadedParts := uploadedParts s; uploadError := uploadError s;
     workers := workers s; phase := phase s; trace := trace s |}.

Definition set_toastPercent (z : Z) (s : State) : State :=
  {| cancelled := cancelled s; activeRequests := activeRequests s;
     partProgress := partProgress s; toastPercent := z; queue := queue s;
     uploadedParts := uploadedParts s; uploadError := uploadError s;
     workers := workers s; phase := phase s; trace := trace s |}.

Definition set_queue (q : list PartInfo) (s : State) : State :=
  {| cancelled := cancelled s; activeRequests := activeRequests s;
     partProgress := partProgress s; toastPercent := toastPercent s; queue := q;
     uploadedParts := uploadedParts s; uploadError := uploadError s;
     workers := workers s; phase := phase s; trace := trace s |}.

Definition set_uploadedParts (l : list PartResult) (s : State) : State :=
  {| cancelled := cancelled s; activeRequests := activeRequests s;
     partProgress := partProgress s; toastPercent := toastPercent s;
     queue := queue s; uploadedParts := l; uploadError := uploadError s;
     workers := workers s; phase := phase s; trace := trace s |}.

Definition set_uploadError (e : option string) (s : State) : State :=
  {| cancelled := cancelled s; activeRequests := activeRequests s;
     partProgress := partProgress s; toastPercent := toastPercent s;
     queue := queue s; uploadedParts := uploadedParts s; uploadError := e;
     workers := workers s; phase := phase s; trace := trace s |}.

Definition set_workers (ws : list wstatus) (s : State) : State :=
  {| cancelled := cancelled s; activeRequests := activeRequests s;
     partProgress := partProgress s; toastPercent := toastPercent s;
     queue := queue s; uploadedParts := uploadedParts s;
     uploadError := uploadError s; workers := ws; phase := phase s;
     trace := trace s |}.

Definition set_phase (ph : Phase) (s : State) : State :=
  {| cancelled := cancelled s; activeRequests := activeRequests s;
     partProgress := partProgress s; toastPercent := toastPercent s;
     queue := queue s; uploadedParts := uploadedParts s;
     uploadError := uploadError s; workers := workers s; phase := ph;
     trace := trace s |}.

Definition emit (a : Action) (s : State) : State :=
  {| cancelled := cancelled s; activeRequests := activeRequests s;
     partProgress := partProgress s; toastPercent := toastPercent s;
     queue := queue s; uploadedParts := uploadedParts s;
     uploadError := uploadError s; workers := workers s; phase := phase s;
     trace := a :: trace s |}.

Definition set_worker (w : nat) (st : wstatus) (s : State) : State :=
  set_workers (<[w := st]> (workers s)) s.

(** ** The closures of [handleSubmit] *)

(** [updateTotalProgress()] *)
Definition updateTotalProgress (c : Session) (s : State) : State :=
  set_toastPercent (percentage_of (totalUploaded_of (partProgress s)) (fileSize c)) s.

(** [partProgress[part.partNumber - 1] = v]; the index is within the array
    for every part of [parts]. *)
Definition slot (p : PartInfo) : nat := Z.to_nat (partNumber p - 1).

Definition set_progress (p : PartInfo) (v : Z) (s : State) : State :=
  set_partProgress (<[slot p := v]> (partProgress s)) s.

(** [new Set(uploadedParts.map((p) => p.part))] *)
Definition completedPartNumbers (s : State) : gset Z :=
  list_to_set (part <$> uploadedParts s).

(** [parts.filter((p) => !completedPartNumbers.has(p.partNumber))] *)
Definition failedParts_of (c : Session) (s : State) : list PartInfo :=
  filter (λ p, partNumber p ∉ completedPartNumbers s) (parts c).

(** After the [while] loop of [handleSubmit]: abort when cancelled, else
    sort the results in place and complete. *)
Definition finish (s : State) : State :=
  if cancelled s then set_phase (PAbort ByCancel) (emit ActAbort s)
  else
    let sorted := js_sort by_part (uploadedParts s) in
    set_phase PComplete (emit (ActComplete sorted) (set_uploadedParts sorted s)).

(** [handleSubmit] from the return of [runUploadWorkers] to its next
    [await]: the head of the [while] loop, the count of the failed parts
    and the alert. *)
Definition after_workers (c : Session) (uploadSuccess : bool) (s : State) : State :=
  if negb uploadSuccess && negb (cancelled s) then
    let failedParts := failedParts_of c s in
    if bool_decide (length failedParts = 0%nat) then finish s
    else
      set_phase (PAlert failedParts)
        (emit (ActAlert (Z.of_nat (length (uploadedParts s))) (totalParts c)
                        (Z.of_nat (length failedParts))) s)
  else finish s.

Definition is_resolved (st : wstatus) : bool :=
  match st with
  | WResolved => true
  | _ => false
  end.

Definition all_resolved (first : nat) (s : State) : bool :=
  forallb is_resolved (drop first (workers s)).

(** [!uploadError && queue.length === 0] *)
Definition workers_ok (s : State) : bool :=
  bool_decide (uploadError s = None) && bool_decide (queue s = []).

(** [await Promise.all(workers)] in [runUploadWorkers]: the promise of
    worker [w] has settled.  The first rejection of an awaited worker
    rejects [Promise.all] at once, the [catch] returns [false]; the
    resolution of the last one resolves it.  The other workers are not
    stopped, and a worker of an earlier call is no longer awaited. *)
Definition settle (c : Session) (w : nat) (s : State) : State :=
  match phase s with
  | PWorkers first =>
      if bool_decide (first ≤ w)%nat then
        match workers s !! w with
        | Some (WRejected _) => after_workers c false s
        | Some WResolved =>
            if all_resolved first s then after_workers c (workers_ok s) s else s
        | _ => s
        end
      else s
  | _ => s
  end.

(** The [catch] of [worker]: a cancellation is rethrown, any other error
    is recorded in [uploadError] first. *)
Definition worker_throw (c : Session) (w : nat) (err : string) (s : State) : State :=
  let s1 := if is_cancel err then s else set_uploadError (Some err) s in
  settle c w (set_worker w (WRejected err) s1).

(** An attempt of [uploadPart(p)] failed with [err] inside
    [uploadPartWithRetry(p, retriesLeft)]. *)
Definition attempt_failed (c : Session) (w : nat) (p : PartInfo) (retriesLeft : jsnum)
    (err : string) (s : State) : State :=
  match retry_catch (maxRetries c) retriesLeft (cancelled s) err with
  | Rethrow e => worker_throw c w e s
  | RetryAfter ms retriesLeft' =>
      set_worker w (WBackoff p retriesLeft')
        (emit (ActDelay (partNumber p) ms)
           (updateTotalProgress c (set_progress p 0 s)))
  end.

(** [uploadPart(p)] up to [await minioClient.presignedUrl(...)]. *)
Definition uploadPart_start (c : Session) (w : nat) (p : PartInfo) (retriesLeft : jsnum)
    (s : State) : State :=
  if cancelled s then attempt_failed c w p retriesLeft cancelled_msg s
  else set_worker w (WPresign p retriesLeft) (emit (ActPresign (partNumber p)) s).

Definition chunkSize : Z := 64 * 1024.

(** The [while (canContinue && uploaded < partSize)] loop of [writeChunk];
    [accepted] counts the calls of [req.write] that return [true] before
    one returns [false]. *)
Fixpoint write_loop (accepted : nat) (len uploaded : Z) : Z :=
  if uploaded <? len then
    let end' := Z.min (uploaded + chunkSize) len in
    match accepted with
    | O => end'
    | S n => write_loop n len end'
    end
  else uploaded.

(** [writeChunk()]: the last write of the loop leaves [uploaded] in the
    counter of the part and in the toast. *)
Definition writeChunk (c : Session) (w : nat) (p : PartInfo) (retriesLeft : jsnum)
    (uploaded : Z) (accepted : nat) (s : State) : State :=
  if cancelled s then attempt_failed c w p retriesLeft cancelled_msg s
  else
    let uploaded' := write_loop accepted (part_len p) uploaded in
    let s1 := if uploaded <? part_len p
              then updateTotalProgress c (set_progress p uploaded' s) else s in
    set_worker w (WRequest p retriesLeft uploaded' true) s1.

(** The head of the [while] loop of [worker], up to its next [await]:
    [queue.shift()] and [uploadPartWithRetry(part)], where [uploadPart]
    finds the flag unset as the loop just did, or the end of the worker. *)
Definition worker_loop (c : Session) (w : nat) (s : State) : State :=
  match queue s with
  | p :: rest =>
      if negb (cancelled s) && bool_decide (uploadError s = None) then
        set_worker w (WPresign p (maxRetries c))
          (emit (ActPresign (partNumber p)) (set_queue rest s))
      else set_worker w WResolved s
  | [] => set_worker w WResolved s
  end.

(** [uploadedParts.push(result)] and the next turn of the loop. *)
Definition part_uploaded (c : Session) (w : nat) (p : PartInfo) (tag : string)
    (s : State) : State :=
  settle c w
    (worker_loop c w
       (set_uploadedParts (uploadedParts s ++ [{| part := partNumber p; etag := tag |}]) s)).

(** [workers.push(worker())]: a new worker runs to its first [await]. *)
Definition spawn_worker (c : Session) (s : State) : State :=
  worker_loop c (length (workers s)) (set_workers (workers s ++ [WResolved]) s).

(** [Math.min(concurrency, Math.max(queue.length, 1))] as the bound of the
    [for] loop: no turn when it is [NaN]. *)
Definition workerCount (c : Session) (s : State) : nat :=
  match Math_min (concurrency c) (Math_max (Num (Z.of_nat (length (queue s)))) (Num 1)) with
  | Num k => Z.to_nat k
  | NaN => 0%nat
  end.

(** [runUploadWorkers()] up to [await Promise.all(workers)]; when every
    new worker has returned at once, on to its return. *)
Definition runUploadWorkers (c : Session) (s : State) : State :=
  let s0 := set_uploadError None s in
  let first := length (workers s0) in
  let s1 := Nat.iter (workerCount c s0) (spawn_worker c) s0 in
  if all_resolved first s1 then after_workers c (workers_ok s1) s1
  else set_phase (PWorkers first) s1.

(** [failedParts.forEach((p) => { partProgress[p.partNumber - 1] = 0; })] *)
Definition reset_progress (failedParts : list PartInfo) (s : State) : State :=
  foldl (λ s' p, set_progress p 0 s') s failedParts.

(** [handleSubmit] after [confirmAlert]. *)
Definition alert_answered (c : Session) (failedParts : list PartInfo)
    (shouldRetry : bool) (s : State) : State :=
  if negb shouldRetry then set_phase (PAbort ByUser) (emit ActAbort s)
  else
    runUploadWorkers c
      (updateTotalProgress c (reset_progress failedParts (set_queue failedParts s))).

(** [activeRequestsRef.current.push(req)] *)
Definition register (w : nat) (s : State) : State :=
  set_activeRequests (activeRequests s ++ [w]) s.

(** [activeRequestsRef.current = activeRequestsRef.current.filter((r) => r !== req)] *)
Definition unregister (w : nat) (s : State) : State :=
  set_activeRequests (filter (λ r, r ≠ w) (activeRequests s)) s.

(** [req.destroy()] *)
Definition destroy (st : wstatus) : wstatus :=
  match st with
  | WRequest p r u _ => WRequest p r u false
  | _ => st
  end.

Definition destroy_registered (reg : list nat) (ws : list wstatus) : list wstatus :=
  imap (λ w st, if bool_decide (w ∈ reg) then destroy st else st) ws.

(** [cancelUpload()]: the flag is set, every registered request is
    destroyed and the registry is emptied. *)
Definition cancelUpload (s : State) : State :=
  set_activeRequests []
    (set_workers (destroy_registered (activeRequests s) (workers s))
       (set_cancelled true s)).

(** ** The callbacks of the event loop

    A destroyed request answers with an error only; a request that has
    answered or failed raises no further event. *)

Inductive Event : Type :=
| EvCancel                                  (* the Cancel Upload action *)
| EvFPutDone (err : option string)          (* [fPutObject] returns or throws *)
| EvInitiated (err : option string)         (* [initiateNewMultipartUpload] *)
| EvPresigned (w : nat) (accepted : nat)    (* [presignedUrl] returns; the request starts *)
| EvPresignFailed (w : nat) (err : string)  (* [presignedUrl] throws *)
| EvDrain (w : nat) (accepted : nat)        (* ["drain"] of the request *)
| EvResponse (w : nat) (statusCode : option Z) (tag : string)
| EvReqError (w : nat) (err : string)       (* ["error"] of the request *)
| EvTimer (w : nat)                         (* the backoff timer *)
| EvAlert (answer : option bool)            (* [confirmAlert] returns or throws *)
| EvAbortDone (err : option string)         (* [abortMultipartUpload] *)
| EvCompleteDone (err : option string).     (* [completeMultipartUpload] *)

Definition outcome_of (err : option string) : Outcome :=
  match err with
  | None => Success
  | Some e => Failure e
  end.

Definition abort_message (why : AbortReason) : string :=
  match why with
  | ByUser => aborted_msg
  | ByCancel => cancelled_msg
  end.

Definition step (c : Session) (ev : Event) (s : State) : option State :=
  match ev with
  | EvCancel => Some (cancelUpload s)
  | EvFPutDone err =>
      match phase s with
      | PSimple => Some (set_phase (PDone (outcome_of err)) s)
      | _ => None
      end
  | EvInitiated err =>
      match phase s, err with
      | PInitiate, Some e => Some (set_phase (PDone (Failure e)) s)
      | PInitiate, None => Some (runUploadWorkers c (set_queue (parts c) s))
      | _, _ => None
      end
  | EvPresigned w accepted =>
      match workers s !! w with
      | Some (WPresign p r) =>
          if cancelled s then Some (attempt_failed c w p r cancelled_msg s)
          else Some (writeChunk c w p r 0 accepted
                       (register w (emit (ActRequest (partNumber p)) s)))
      | _ => None
      end
  | EvPresignFailed w err =>
      match workers s !! w with
      | Some (WPresign p r) => Some (attempt_failed c w p r err s)
      | _ => None
      end
  | EvDrain w accepted =>
      match workers s !! w with
      | Some (WRequest p r u true) => Some (writeChunk c w p r u accepted s)
      | _ => None
      end
  | EvResponse w statusCode tag =>
      match workers s !! w with
      | Some (WRequest p r u true) =>
          if status_ok statusCode then Some (part_uploaded c w p tag (unregister w s))
          else Some (attempt_failed c w p r (status_error (partNumber p) statusCode)
                       (unregister w s))
      | _ => None
      end
  | EvReqError w err =>
      match workers s !! w with
      | Some (WRequest p r u _) => Some (attempt_failed c w p r err (unregister w s))
      | _ => None
      end
  | EvTimer w =>
      match workers s !! w with
      | Some (WBackoff p r) => Some (uploadPart_start c w p r s)
      | _ => None
      end
  | EvAlert answer =>
      match phase s with
      | PAlert failedParts => Some (alert_answered c failedParts (default false answer) s)
      | _ => None
      end
  | EvAbortDone _ =>
      match phase s with
      | PAbort why => Some (set_phase (PDone (Failure (abort_message why))) s)
      | _ => None
      end
  | EvCompleteDone err =>
      match phase s with
      | PComplete => Some (set_phase (PDone (outcome_of err)) s)
      | _ => None
      end
  end.

Fixpoint run (c : Session) (evs : list Event) (s : State) : option State :=
  match evs with
  | [] => Some s
  | ev :: evs' =>
      match step c ev s with
      | Some s' => run c evs' s'
      | None => None
      end
  end.

(** ** [handleSubmit] up to its first upload call

    The bucket exists and the file is read; [new Array(totalParts)] throws
    a [RangeError] when [totalParts] is no array length. *)

Definition start_state (progress : list Z) (ph : Phase) (tr : list Action) : State :=
  {| cancelled := false; activeRequests := []; partProgress := progress; toastPercent := 0;
     queue := []; uploadedParts := []; uploadError := None;
     workers := []; phase := ph; trace := tr |}.

Definition handleSubmit (prefs : Preferences) (size : Z) : State :=
  let c := session_of prefs size in
  if js_lt (Num size) (partSize c) then start_state [] PSimple [ActFPutObject]
  else
    match totalParts c with
    | Num n =>
        if (0 <=? n) && (n <=? 4294967295)
        then start_state (replicate (Z.to_nat n) 0) PInitiate [ActInitiate]
        else start_state [] (PDone (Failure array_length_msg)) []
    | NaN => start_state [] (PDone (Failure array_length_msg)) []
    end.

Definition upload (prefs : Preferences) (size : Z) (evs : list Event) : option State :=
  run (session_of prefs size) evs (handleSubmit prefs size).

Definition reachable (prefs : Preferences) (size : Z) (s : State) : Prop :=
  ∃ evs, upload prefs size evs = Some s.

(** ** [uploadPartWithRetry] as one call

    The recursion of [uploadPartWithRetry(part, retriesLeft)] followed
    through its attempts.  One entry of [attempts] is what a call of
    [uploadPart(part)] does: the last value it stores in the counter of the
    part, its result, and the cancellation flag as the [catch] block reads
    it.  The log has the latest entry first. *)











(** ** Readings of the trace *)

Definition is_abort (a : Action) : bool :=
  match a with ActAbort => true | _ => false end.

Definition is_complete (a : Action) : bool :=
  match a with ActComplete _ => true | _ => false end.

Definition is_attempt_start (a : Action) : bool :=
  match a with ActPresign _ | ActRequest _ => true | _ => false end.

Definition count (f : Action → bool) (tr : list Action) : nat :=
  length (filter (λ a, f a = true) tr).

(** A worker whose promise is neither resolved nor rejected. *)
Definition is_pending (st : wstatus) : bool :=
  match st with
  | WPresign _ _ | WRequest _ _ _ _ | WBackoff _ _ => true
  | WResolved | WRejected _ => false
  end.

Definition part_le (a b : PartResult) : Prop := part a ≤ part b.

Definition clamp (lo hi x : Z) : Z := Z.max lo (Z.min hi x).

(** [round(100 × transferred / total)] in the words of the design: the
    quotient of the integers itself, a half rounded up. *)
Definition round_percent (transferred total : Z) : Z :=
  Math_round (inject_Z 100 * inject_Z transferred / inject_Z total)%Q.

(** ** Predicates on transitions *)

(** The actions a transition may add when the flag is [b] at its start: the
    store is asked for a URL, a request is started, a timer is set, the
    user is asked or the upload is completed only when the flag is unset,
    and what is completed is a sorted array. *)
Definition engine_action (b : bool) (a : Action) : Prop :=
  match a with
  | ActFPutObject | ActInitiate => False
  | ActAbort => True
  | ActComplete l => b = false ∧ ∃ results, l = js_sort by_part results
  | ActPresign _ | ActRequest _ | ActDelay _ _ | ActAlert _ _ _ => b = false
  end.

Definition is_final (a : Action) : bool :=
  match a with ActAbort | ActComplete _ => true | _ => false end.

(** The phases before the abort or the completion call. *)
Definition early (ph : Phase) : bool :=
  match ph with
  | PSimple | PInitiate | PWorkers _ | PAlert _ => true
  | PAbort _ | PComplete | PDone _ => false
  end.

Definition is_live (st : wstatus) : bool :=
  match st with WRequest _ _ _ true => true | _ => false end.

(** No request is open that was not destroyed. *)
Definition quiet (s : State) : Prop := Forall (λ st, is_live st = false) (workers s).

Definition grows (s s' : State) : Prop :=
  cancelled s' = cancelled s ∧
  (cancelled s = true → quiet s → quiet s') ∧
  ∃ new, trace s' = new ++ trace s ∧
         Forall (engine_action (cancelled s)) new ∧
         (early (phase s') = true →
          early (phase s) = true ∧ Forall (λ a, is_final a = false) new).

(** When the flag is set no request is open: [cancelUpload] destroys the
    open ones and none is started afterwards. *)
Definition cancel_closes (s : State) : Prop := cancelled s = true → quiet s.

(** Before the abort or the completion call the trace has neither. *)
Definition early_trace (s : State) : Prop :=
  early (phase s) = true → Forall (λ a, is_final a = false) (trace s).

(** The states of the single-shot path. *)
Definition single_shot (s : State) : Prop :=
  trace s = [ActFPutObject] ∧ workers s = [] ∧ queue s = [] ∧
  (phase s = PSimple ∨ ∃ o, phase s = PDone o).

(** What the coordinator leaves alone when it goes on after the workers:
    it reads the shared variables and sorts the results in place. *)
Definition coordinated (s s' : State) : Prop :=
  cancelled s' = cancelled s ∧ partProgress s' = partProgress s ∧
  toastPercent s' = toastPercent s ∧ queue s' = queue s ∧
  uploadError s' = uploadError s ∧ workers s' = workers s ∧
  uploadedParts s' ≡ₚ uploadedParts s.

(** The callbacks of a worker. *)
Definition worker_event (ev : Event) : bool :=
  match ev with
  | EvPresigned _ _ | EvPresignFailed _ _ | EvDrain _ _
  | EvResponse _ _ _ | EvReqError _ _ | EvTimer _ => true
  | _ => false
  end.

(** ** The invariant of the progress counters *)

(** The multipart branch: the part size is a number, not above the size of
    the file. *)
Definition multipart (c : Session) : Prop :=
  ∃ ps, partSize c = Num ps ∧ 0 < ps ≤ fileSize c.

Definition worker_ok (c : Session) (st : wstatus) : Prop :=
  match st with
  | WPresign p _ | WBackoff p _ => p ∈ parts c
  | WRequest p _ u _ => p ∈ parts c ∧ 0 ≤ u
  | WResolved | WRejected _ => True
  end.

(** A counter is between 0 and the length of its part. *)
Definition within_part (v : Z) (p : PartInfo) : Prop := 0 ≤ v ≤ part_len p.

Definition total_len (l : list PartInfo) : Z := foldr (λ p a, part_len p + a) 0 l.

Definition progress_inv (c : Session) (s : State) : Prop :=
  Forall (λ p, p ∈ parts c) (queue s) ∧
  Forall (worker_ok c) (workers s) ∧
  (∀ failed, phase s = PAlert failed → Forall (λ p, p ∈ parts c) failed) ∧
  Forall2 within_part (partProgress s) (parts c) ∧
  toastPercent s = percentage_of (totalUploaded_of (partProgress s)) (fileSize c).

(** ** The upload after a cancellation *)

Definition is_rejected (st : wstatus) : bool :=
  match st with WRejected _ => true | _ => false end.

(** While [Promise.all] is awaited none of its workers has failed and one
    of them has not returned yet. *)
Definition awaiting (s : State) : Prop :=
  ∀ first, phase s = PWorkers first →
    (∀ w st, (first ≤ w)%nat → workers s !! w = Some st → is_rejected st = false) ∧
    (∃ w st, (first ≤ w)%nat ∧ workers s !! w = Some st ∧ is_pending st = true).

(** The states after a cancellation that came while the workers were
    awaited, with [done] the results and [tr] the trace at that moment:
    the workers are still awaited, or the abort was called, or the upload
    has ended as cancelled. *)
Definition cancelling (done : list PartResult) (tr : list Action) (s : State) : Prop :=
  cancelled s = true ∧ quiet s ∧ uploadedParts s = done ∧
  ((∃ first, phase s = PWorkers first) ∧ trace s = tr ∨
   phase s = PAbort ByCancel ∧ trace s = ActAbort :: tr ∨
   phase s = PDone (Failure cancelled_msg) ∧ trace s = ActAbort :: tr).

(** The worker a callback belongs to. *)
Definition event_worker (ev : Event) : option nat :=
  match ev with
  | EvPresigned w _ | EvPresignFailed w _ | EvDrain w _
  | EvResponse w _ _ | EvReqError w _ | EvTimer w => Some w
  | _ => None
  end.

(** The callback that a pending worker can always receive. *)
Definition next_event (w : nat) (st : wstatus) : Event :=
  match st with
  | WPresign _ _ => EvPresigned w 0
  | WRequest _ _ _ _ => EvReqError w "socket hang up"
  | _ => EvTimer w
  end.

(** What the callback of worker [w] does to the state: the worker takes a
    new status and its promise, if it settled, is seen by [Promise.all]. *)
Definition worker_moved (c : Session) (w : nat) (s s' : State) : Prop :=
  ∃ st' s2, phase s2 = phase s ∧ workers s2 = <[w := st']> (workers s) ∧
            s' = settle c w s2.

(** A worker right after its start: in [uploadPart] or returned. *)
Definition fresh_worker (st : wstatus) : Prop :=
  st = WResolved ∨ ∃ p r, st = WPresign p r.

(** Every open request is in the registry. *)
Definition registered (s : State) : Prop :=
  ∀ w p r u, workers s !! w = Some (WRequest p r u true) → w ∈ activeRequests s.

(** Between two states of one callback the registry is the same, and a
    request that is open in the second was open in the first or is that
    of a registered worker. *)
Definition tracked (s s' : State) : Prop :=
  activeRequests s' = activeRequests s ∧
  ∀ w st, workers s' !! w = Some st → is_live st = true →
          w ∈ activeRequests s ∨ ∃ st0, workers s !! w = Some st0 ∧ is_live st0 = true.

(** ** Inputs of the examples *)

Definition prefs_default : Preferences :=
  {| partSizePref := Num 5; concurrencyPref := Num 4; retryCountPref := Num 3 |}.

(** A part size of 1 MB, below the minimum of the store. *)
Definition prefs_small_part : Preferences :=
  {| partSizePref := Num 1; concurrencyPref := Num 4; retryCountPref := Num 3 |}.

(** Two workers and no automatic retry. *)
Definition prefs_two_workers : Preferences :=
  {| partSizePref := Num 5; concurrencyPref := Num 2; retryCountPref := Num 0 |}.



(** ** The parts of an upload, counted

    Where every part of the plan is: in the queue, in the hands of a worker
    or among the results. *)

(** The part that a worker holds. *)
Definition held (st : wstatus) : gmultiset Z :=
  match st with
  | WPresign p _ | WRequest p _ _ _ | WBackoff p _ => {[+ partNumber p +]}
  | WResolved | WRejected _ => ∅
  end.

Definition in_hand (ws : list wstatus) : gmultiset Z :=
  foldr (λ st m, held st ⊎ m) ∅ ws.

Definition numbers (l : list PartInfo) : gmultiset Z :=
  list_to_set_disj (partNumber <$> l).

Definition results (l : list PartResult) : gmultiset Z :=
  list_to_set_disj (part <$> l).

Definition accounted (s : State) : gmultiset Z :=
  numbers (queue s) ⊎ in_hand (workers s) ⊎ results (uploadedParts s).

(** The actions of a worker. *)
Definition worker_action (a : Action) : bool :=
  match a with
  | ActPresign _ | ActRequest _ | ActDelay _ _ => true
  | _ => false
  end.

Definition is_alert (a : Action) : bool :=
  match a with ActAlert _ _ _ => true | _ => false end.

(** What the callback of worker [w] does, up to the moment [Promise.all]
    sees its promise: the worker takes a new status, the coordinator
    stays where it is, the trace grows by actions of a worker, and no part
    appears or is counted twice; a part is lost only when the worker is
    rejected. *)
Definition handed (c : Session) (w : nat) (s s2 : State) : Prop :=
  ∃ st st',
    workers s !! w = Some st ∧
    workers s2 = <[w := st']> (workers s) ∧
    phase s2 = phase s ∧ cancelled s2 = cancelled s ∧
    (∃ new, trace s2 = new ++ trace s ∧ Forall (λ a, worker_action a = true) new) ∧
    accounted s2 ⊆ accounted s ∧
    (is_rejected st' = false → accounted s2 = accounted s).

(** The whole callback of worker [w]: the worker takes its new status
    and [Promise.all] sees its promise. *)
Definition turned (c : Session) (w : nat) (s s' : State) : Prop :=
  ∃ s2, handed c w s s2 ∧ s' = settle c w s2.

(** A state reached from another by actions of workers and by the start
    of at most [k] workers: the coordinator has not moved. *)
Definition extended (k : nat) (s s1 : State) : Prop :=
  (∃ new, trace s1 = new ++ trace s ∧ Forall (λ a, worker_action a = true) new) ∧
  phase s1 = phase s ∧ cancelled s1 = cancelled s ∧
  (length (workers s) ≤ length (workers s1) ≤ length (workers s) + k)%nat.

(** The callbacks that end [handleSubmit], with the phase they come in
    and the outcome they give. *)
Definition ends (ev : Event) (ph : Phase) (o : Outcome) : Prop :=
  match ev with
  | EvFPutDone err => ph = PSimple ∧ o = outcome_of err
  | EvInitiated (Some e) => ph = PInitiate ∧ o = Failure e
  | EvAbortDone _ => ∃ why, ph = PAbort why ∧ o = Failure (abort_message why)
  | EvCompleteDone err => ph = PComplete ∧ o = outcome_of err
  | _ => False
  end.

(** The calls of [runUploadWorkers] that an upload has made: one for each
    alert, and one more when the coordinator is not at an alert or before
    the first call. *)
Definition rounds (s : State) : nat :=
  count is_alert (trace s) +
  match phase s with
  | PSimple | PInitiate | PAlert _ => 0
  | _ => 1
  end.

(** The largest number of workers of one round. *)
Definition pool (c : Session) : nat :=
  match concurrency c with
  | Num k => Z.to_nat k
  | NaN => 0
  end.

(** The requests that are open. *)
Definition open_requests (s : State) : nat :=
  length (filter (λ st, is_live st = true) (workers s)).

(** The first round: the states of an upload before any alert.  The
    workers awaited are all the workers, and every part of the plan is in
    the queue, in the hands of a worker or among the results, once. *)
Definition first_round (c : Session) (s : State) : Prop :=
  count is_alert (trace s) = 0%nat →
  (∀ l, In (ActComplete l) (trace s) → part <$> l = partNumber <$> parts c) ∧
  match phase s with
  | PSimple | PInitiate => workers s = [] ∧ uploadedParts s = []
  | PWorkers first => first = 0%nat ∧ accounted s = numbers (parts c)
  | PAlert _ => False
  | _ => True
  end.

(** ** The counters of the parts not being sent *)






(** An upload whose abort was called is at that call or has ended with
    the error of the abort. *)
Definition aborted (s : State) : Prop :=
  In ActAbort (trace s) →
  ∃ why, phase s = PAbort why ∨ phase s = PDone (Failure (abort_message why)).

(** An upload that has started no worker: no part was asked for or
    uploaded, the completion was not called, and the upload of a file in
    parts stands before or after an alert, at the abort, or has failed. *)
Definition idle (c : Session) (s : State) : Prop :=
  workers s = [] ∧ uploadedParts s = [] ∧
  Forall (λ a, worker_action a = false ∧ ∀ l, a ≠ ActComplete l) (trace s) ∧
  match phase s with
  | PSimple | PDone Success => ¬ In ActInitiate (trace s)
  | PInitiate => parts c ≠ []
  | PAlert failed => parts c ≠ [] ∧ failed ≠ []
  | PAbort _ | PDone (Failure _) => True
  | PWorkers _ | PComplete => False
  end.

(** ** Strings

    The methods of [String.prototype] that the two commands use, on a
    string as the sequence of its code units. *)

Module JsString.

(** [s.startsWith(t)] *)
Fixpoint startsWith (s t : string) {struct t} : bool :=
  match t, s with
  | EmptyString, _ => true
  | String b t', String a s' => bool_decide (a = b) && startsWith s' t'
  | String _ _, EmptyString => false
  end.

(** [s.includes(t)] *)
Fixpoint includes (s t : string) : bool :=
  startsWith s t ||
  match s with
  | EmptyString => false
  | String _ s' => includes s' t
  end.

(** [s.slice(n)] for [0 ≤ n] *)
Fixpoint slice_from (n : nat) (s : string) : string :=
  match n, s with
  | O, _ => s
  | S n', String _ s' => slice_from n' s'
  | S _, EmptyString => EmptyString
  end.

(** [s.endsWith(t)] *)
Definition endsWith (s t : string) : bool :=
  bool_decide (String.length t ≤ String.length s)%nat &&
  bool_decide (slice_from (String.length s - String.length t) s = t).

(** [s.slice(0, -1)] *)
Fixpoint slice_init (s : string) : string :=
  match s with
  | EmptyString => EmptyString
  | String a EmptyString => EmptyString
  | String a s' => String a (slice_init s')
  end.

(** [s.split(sep)] for a separator of one code unit; the result has one
    element more than [s] has separators. *)
Fixpoint split (sep : string) (s : string) : list string :=
  match s with
  | EmptyString => [EmptyString]
  | String a s' =>
      if bool_decide (String a EmptyString = sep) then EmptyString :: split sep s'
      else match split sep s' with
           | x :: l => String a x :: l
           | [] => [String a EmptyString]
           end
  end.

(** [l.join(sep)] *)
Fixpoint join (sep : string) (l : list string) : string :=
  match l with
  | [] => EmptyString
  | [x] => x
  | x :: l' => x +:+ sep +:+ join sep l'
  end.

End JsString.

(** ** Values thrown

    What a [catch] block receives: an [Error] with its message and, for
    the errors of Node, a code; or a value that is no [Error], of which
    the handlers read [String(err)] only. *)

Inductive Thrown : Type :=
| ErrorObject (message : string) (code : option string)
| Value (shown : string).

(** [err instanceof Error ? err.message : String(err)] *)
Definition errorMessage_of (err : Thrown) : string :=
  match err with
  | ErrorObject message _ => message
  | Value shown => shown
  end.

(** [err instanceof Error && "code" in err ? err.code : ""]; the code is
    compared with constants only, an absent one is [None]. *)
Definition errorCode_of (err : Thrown) : option string :=
  match err with
  | ErrorObject _ code => code
  | Value _ => None
  end.

(** [x.toFixed(1)] for [0 ≤ x < 10^21], [x] the exact value of the double:
    the decimal with one digit nearest to [x], the larger one at a tie. *)
Definition toFixed1 (x : Q) : string :=
  let n := Qfloor (x * inject_Z 10 + (1 # 2))%Q in
  pretty (n / 10) +:+ "." +:+ pretty (n mod 10).

(** [a > b] *)
Definition js_gt (a b : jsnum) : bool := js_lt b a.

(** [a >= b]: false when one of them is [NaN]. *)
Definition js_ge (a b : jsnum) : bool :=
  match a, b with
  | Num x, Num y => y <=? x
  | _, _ => false
  end.

(** ** The upload command outside the multipart engine *)

Module UploadCommand.

Inductive ToastStyle : Type :=
| Animated
| StyleSuccess
| StyleFailure.

Record Toast : Type := {
  style : ToastStyle;
  title : string;
  message : string
}.

(** [values.file]: "can be string or string array". *)
Inductive FileValue : Type :=
| OneFile (path : string)
| FileList (paths : list string).

Record FormValues : Type := {
  bucket : string;
  file : FileValue;
  prefix : string
}.

(** The preferences and the [useSSL] state that [handleSubmit] reads.
    [maxFileSizeText] is [preferences.maxFileSize || "1024"] and
    [maxFileSizeMB] is the [parseInt] of it; [upload] holds the three
    numbers of the upload configuration. *)
Record Settings : Type := {
  defaultBucket : string;
  publicUrlBase : option string;
  autoCopyUrl : bool;
  maxFileSizeText : string;
  maxFileSizeMB : jsnum;
  uploadPrefs : Preferences;
  useSSL : bool
}.

(** [getFilePath(fileValue)] *)
Definition getFilePath (fileValue : FileValue) : string :=
  match fileValue with
  | FileList paths =>
      match paths with
      | path :: _ => path
      | [] => ""
      end
  | OneFile path => path
  end.

(** [generatePublicUrl(bucket, objectName)] *)
Definition generatePublicUrl (publicUrlBase : option string) (bucket objectName : string)
  : option string :=
  match publicUrlBase with
  | None => None
  | Some base =>
      if bool_decide (base = "") then None
      else
        let baseUrl := if JsString.endsWith base "/" then JsString.slice_init base else base in
        if JsString.includes baseUrl bucket
        then Some (baseUrl +:+ "/" +:+ objectName)
        else Some (baseUrl +:+ "/" +:+ bucket +:+ "/" +:+ objectName)
  end.

(** *** [checkFilePermission] *)

Record PermissionCheck : Type := {
  hasPermission : bool;
  error : option string
}.

Definition refused (msg : string) : PermissionCheck :=
  {| hasPermission := false; error := Some msg |}.

(** The [catch] block of [checkFilePermission]. *)
Definition permission_error (filePath : string) (err : Thrown) : PermissionCheck :=
  match err with
  | ErrorObject message code =>
      if bool_decide (code = Some "EACCES")
      then refused ("Permission denied for file: " +:+ filePath)
      else if bool_decide (code = Some "EPERM")
      then refused ("Operation not permitted for file: " +:+ filePath)
      else refused ("Error accessing file: " +:+ message)
  | Value shown => refused ("Unknown error accessing file: " +:+ shown)
  end.

(** [parseInt(...) >= 1024 ? `${(parseInt(...) / 1024).toFixed(1)} GB` : `${...} MB`] *)
Definition maxSizeDisplay (st : Settings) : string :=
  match maxFileSizeMB st with
  | Num m =>
      if 1024 <=? m then toFixed1 (inject_Z m / inject_Z 1024)%Q +:+ " GB"
      else maxFileSizeText st +:+ " MB"
  | NaN => maxFileSizeText st +:+ " MB"
  end.

(** The check of the size, once [statSync] has returned [size]. *)
Definition check_size (st : Settings) (size : Z) : PermissionCheck :=
  let maxFileSize := js_mul (js_mul (maxFileSizeMB st) (Num 1024)) (Num 1024) in
  if js_gt (Num size) maxFileSize then
    refused ("File is too large (" +:+ toFixed1 (inject_Z size / inject_Z 1024 / inject_Z 1024)%Q
             +:+ " MB). Maximum allowed size is " +:+ maxSizeDisplay st +:+ ".")
  else {| hasPermission := true; error := None |}.

(** [checkFilePermission(filePath)] after [accessAsync] has returned or
    thrown [access]; [stat] is what [fs.statSync] then answers. *)
Definition permission_checked (st : Settings) (filePath : string)
    (access : option Thrown) (stat : Thrown + Z) : PermissionCheck :=
  match access with
  | Some err => permission_error filePath err
  | None =>
      match stat with
      | inl err => permission_error filePath err
      | inr size => check_size st size
      end
  end.

(** [checkFilePermission(filePath)] when [fs.existsSync] answers [false]. *)
Definition file_missing (filePath : string) : PermissionCheck :=
  refused ("File does not exist: " +:+ filePath).

(** *** The toasts at the end of [handleSubmit] *)

Definition failure_toast (title message : string) : Toast :=
  {| style := StyleFailure; title := title; message := message |}.

Definition success_toast (message : string) : Toast :=
  {| style := StyleSuccess; title := "Upload successful"; message := message |}.

Definition isNetworkError (errorCode : option string) (errorMessage : string) : bool :=
  bool_decide (errorCode = Some "ECONNRESET") ||
  bool_decide (errorCode = Some "ECONNREFUSED") ||
  bool_decide (errorCode = Some "ETIMEDOUT") ||
  bool_decide (errorCode = Some "ENOTFOUND") ||
  JsString.includes errorMessage "socket hang up" ||
  JsString.includes errorMessage "network" ||
  JsString.includes errorMessage "ECONNRESET".

Definition isSSLError (useSSL : bool) (errorMessage : string) : bool :=
  useSSL &&
  (JsString.includes errorMessage "TLS connection" ||
   JsString.includes errorMessage "certificate" ||
   JsString.includes errorMessage "SSL").

(** The inner [catch] of [handleSubmit]. *)
Definition upload_error_toast (useSSL : bool) (err : Thrown) : Toast :=
  let errorMessage := errorMessage_of err in
  let errorCode := errorCode_of err in
  if isSSLError useSSL errorMessage
  then failure_toast "SSL Connection Error" "Try disabling SSL in the options"
  else if isNetworkError errorCode errorMessage
  then failure_toast "Network Error" "Connection lost. Please check your network and try again."
  else if bool_decide (errorMessage = "Upload cancelled") ||
          bool_decide (errorMessage = "Upload aborted by user")
  then failure_toast "Upload Cancelled" "The upload was cancelled"
  else failure_toast "Upload failed" errorMessage.

(** *** [handleSubmit] as a whole

    Where [handleSubmit] stands, from the submission of the form to its
    [finally] block. *)

Inductive Stage : Type :=
| SShowToast (values : FormValues)
    (* [await showToast(...)] *)
| SAccess (values : FormValues) (filePath : string)
    (* [await accessAsync(...)] in [checkFilePermission] *)
| SBucketExists (bucket objectName : string)
    (* [await minioClient.bucketExists(bucket)] *)
| SMakeBucket (bucket objectName : string)
    (* [await minioClient.makeBucket(bucket, "us-east-1")] *)
| SUpload (bucket objectName : string)
    (* the upload itself *)
| SCopy
    (* [await Clipboard.copy(url)] *)
| SGeneralToast
    (* [await showToast(...)] in the outer [catch] *)
| SFinished.

(** The state of the component that [handleSubmit] and [cancelUpload]
    write.  [toast] is the toast in its last state set outside the upload
    (while the upload runs its message follows the progress);
    [uploadCancelled] is [uploadCancelledRef.current]; [transfer] holds the
    size of the file and the variables of the upload once it has begun:
    its requests go on when [handleSubmit] has left it. *)
Record View : Type := {
  isUploading : bool;
  uploadedFileUrl : option string;
  toast : option Toast;
  uploadCancelled : bool;
  transfer : option (Z * State);
  stage : Stage
}.

Definition set_toast (t : Toast) (v : View) : View :=
  {| isUploading := isUploading v; uploadedFileUrl := uploadedFileUrl v;
     toast := Some t; uploadCancelled := uploadCancelled v;
     transfer := transfer v; stage := stage v |}.

Definition set_stage (g : Stage) (v : View) : View :=
  {| isUploading := isUploading v; uploadedFileUrl := uploadedFileUrl v;
     toast := toast v; uploadCancelled := uploadCancelled v;
     transfer := transfer v; stage := g |}.

Definition set_uploadedFileUrl (url : option string) (v : View) : View :=
  {| isUploading := isUploading v; uploadedFileUrl := url;
     toast := toast v; uploadCancelled := uploadCancelled v;
     transfer := transfer v; stage := stage v |}.

Definition set_uploadCancelled (b : bool) (v : View) : View :=
  {| isUploading := isUploading v; uploadedFileUrl := uploadedFileUrl v;
     toast := toast v; uploadCancelled := b;
     transfer := transfer v; stage := stage v |}.

(** The variables of the upload are [s]; the flag is one of them. *)
Definition set_transfer (size : Z) (s : State) (v : View) : View :=
  {| isUploading := isUploading v; uploadedFileUrl := uploadedFileUrl v;
     toast := toast v; uploadCancelled := cancelled s;
     transfer := Some (size, s); stage := stage v |}.

(** [setIsUploading(false)] and the end of [handleSubmit]. *)
Definition finished (v : View) : View :=
  {| isUploading := false; uploadedFileUrl := uploadedFileUrl v;
     toast := toast v; uploadCancelled := uploadCancelled v;
     transfer := transfer v; stage := SFinished |}.

(** The callbacks of the event loop during [handleSubmit].  A callback
    carries the answers of the synchronous calls that follow it:
    [fs.existsSync], [fs.statSync], [new Minio.Client] and
    [fs.readFileSync].  [CbUpload ev code] is a callback of the upload,
    with the code of the error when [ev] is an error of the store. *)
Inductive Callback : Type :=
| CbToastShown (err : option Thrown) (fileExists : bool)
| CbAccess (access : option Thrown) (stat : Thrown + Z) (client : option Thrown)
| CbBucketExists (answer : Thrown + bool) (stat : Thrown + Z) (read : option Thrown)
| CbMakeBucket (err : option Thrown) (stat : Thrown + Z) (read : option Thrown)
| CbUpload (ev : Event) (code : option string)
| CbCopied (err : option Thrown)
| CbGeneralToastShown
| CbCancel.

Section Submit.
Variable basename : string → string.   (* [path.basename] *)
Variable st : Settings.

(** The outer [catch]: a new toast is shown. *)
Definition general_error (err : Thrown) (v : View) : View :=
  set_stage SGeneralToast
    (set_toast (failure_toast "Upload failed" (errorMessage_of err)) v).

(** The inner [catch]. *)
Definition upload_failed (err : Thrown) (v : View) : View :=
  finished (set_toast (upload_error_toast (useSSL st) err) v).

(** After the upload: the public URL and the toast of success. *)
Definition upload_succeeded (bucket objectName : string) (v : View) : View :=
  match generatePublicUrl (publicUrlBase st) bucket objectName with
  | Some publicUrl =>
      let v1 := set_uploadedFileUrl (Some publicUrl) v in
      if autoCopyUrl st then set_stage SCopy v1
      else finished (set_toast (success_toast "File uploaded and URL generated") v1)
  | None =>
      finished (set_toast (success_toast ("File uploaded to " +:+ bucket +:+ "/" +:+ objectName)) v)
  end.

(** The upload has moved to [s]: [handleSubmit] goes on when the upload
    has returned or thrown; [code] is the code of the error, if it has
    one. *)
Definition uploading (bucket objectName : string) (size : Z) (code : option string)
    (s : State) (v : View) : View :=
  let v1 := set_transfer size s v in
  match phase s with
  | PDone Success => upload_succeeded bucket objectName v1
  | PDone (Failure msg) => upload_failed (ErrorObject msg code) v1
  | _ => set_stage (SUpload bucket objectName) v1
  end.

(** From [fs.statSync] to the first call of the upload. *)
Definition begin_upload (bucket objectName : string) (stat : Thrown + Z)
    (read : option Thrown) (v : View) : View :=
  match stat with
  | inl err => upload_failed err v
  | inr size =>
      let v1 := set_uploadCancelled false v in
      if js_lt (Num size) (partSize_of (uploadPrefs st))
      then uploading bucket objectName size None (handleSubmit (uploadPrefs st) size)
             (set_toast {| style := Animated; title := "Uploading file";
                           message := "Uploading..." |} v1)
      else
        match read with
        | Some err => upload_failed err v1
        | None => uploading bucket objectName size None (handleSubmit (uploadPrefs st) size) v1
        end
  end.

(** [permissionCheck.error || "File access error"] *)
Definition permission_message (check : PermissionCheck) : string :=
  match error check with
  | Some msg => if bool_decide (msg = "") then "File access error" else msg
  | None => "File access error"
  end.

(** From the answer of [checkFilePermission] to [bucketExists]. *)
Definition permission_answered (values : FormValues) (filePath : string)
    (check : PermissionCheck) (client : option Thrown) (v : View) : View :=
  if negb (hasPermission check) then
    finished (set_toast (failure_toast "Upload failed" (permission_message check)) v)
  else
    match client with
    | Some err => general_error err v
    | None =>
        let bucket := if bool_decide (bucket values = "") then defaultBucket st
                      else bucket values in
        let fileName := basename filePath in
        let objectName := if bool_decide (prefix values = "") then fileName
                          else prefix values +:+ "/" +:+ fileName in
        set_stage (SBucketExists bucket objectName) v
    end.

(** The form is submitted: [handleSubmit] up to [await showToast(...)]. *)
Definition submit (values : FormValues) : View :=
  {| isUploading := true; uploadedFileUrl := None; toast := None;
     uploadCancelled := false; transfer := None; stage := SShowToast values |}.

(** [cancelUpload()], the action offered while [isUploading] is set. *)
Definition cancel (v : View) : View :=
  match transfer v with
  | Some (size, s) => set_transfer size (cancelUpload s) v
  | None => set_uploadCancelled true v
  end.

(** The code of the error that ends the upload, when the store threw it. *)
Definition thrown_code (ev : Event) (code : option string) : option string :=
  match ev with
  | EvFPutDone (Some _) | EvInitiated (Some _) | EvCompleteDone (Some _) => code
  | _ => None
  end.

(** A callback of the upload: [handleSubmit] sees it while it is inside
    the upload. *)
Definition upload_callback (ev : Event) (code : option string) (v : View) : option View :=
  match transfer v with
  | Some (size, s) =>
      match ev, step (session_of (uploadPrefs st) size) ev s with
      | EvCancel, _ => None
      | _, Some s' =>
          match stage v with
          | SUpload bucket objectName =>
              Some (uploading bucket objectName size (thrown_code ev code) s' v)
          | _ => Some (set_transfer size s' v)
          end
      | _, None => None
      end
  | None => None
  end.

Definition callback (cb : Callback) (v : View) : option View :=
  match cb, stage v with
  | CbCancel, _ => if isUploading v then Some (cancel v) else None
  | CbUpload ev code, _ => upload_callback ev code v
  | CbToastShown (Some err) _, SShowToast _ => Some (general_error err v)
  | CbToastShown None fileExists, SShowToast values =>
      let v1 := set_toast {| style := Animated; title := "Uploading file"; message := "0%" |} v in
      let filePath := getFilePath (file values) in
      if bool_decide (filePath = "") then
        Some (finished (set_toast (failure_toast "Upload failed" "No file selected") v1))
      else if fileExists then Some (set_stage (SAccess values filePath) v1)
      else Some (permission_answered values filePath (file_missing filePath) None v1)
  | CbAccess access stat client, SAccess values filePath =>
      Some (permission_answered values filePath
              (permission_checked st filePath access stat) client v)
  | CbBucketExists answer stat read, SBucketExists bucket objectName =>
      match answer with
      | inl err => Some (upload_failed err v)
      | inr true => Some (begin_upload bucket objectName stat read v)
      | inr false => Some (set_stage (SMakeBucket bucket objectName) v)
      end
  | CbMakeBucket err stat read, SMakeBucket bucket objectName =>
      match err with
      | Some e => Some (upload_failed e v)
      | None => Some (begin_upload bucket objectName stat read v)
      end
  | CbCopied err, SCopy =>
      match err with
      | Some e => Some (upload_failed e v)
      | None =>
          Some (finished (set_toast (success_toast "File uploaded and URL copied to clipboard") v))
      end
  | CbGeneralToastShown, SGeneralToast => Some (finished v)
  | _, _ => None
  end.

Fixpoint run (cbs : list Callback) (v : View) : option View :=
  match cbs with
  | [] => Some v
  | cb :: cbs' =>
      match callback cb v with
      | Some v' => run cbs' v'
      | None => None
      end
  end.

(** [handleSubmit(values)] followed through the callbacks [cbs]. *)
Definition handleSubmit (values : FormValues) (cbs : list Callback) : option View :=
  run cbs (submit values).

End Submit.

Definition is_finished (g : Stage) : bool :=
  match g with SFinished => true | _ => false end.

Definition cancelled_toast : Toast :=
  failure_toast "Upload Cancelled" "The upload was cancelled".

(** What holds of the view in every state of [handleSubmit]: the flag
    [isUploading] is set until the end; the URL and a toast of success
    are there only after an upload that succeeded; while [handleSubmit] is
    inside the upload, the upload has not ended; and when the upload has
    failed, the toast is that of its error, an error without a code when
    the abort was called. *)
Definition coherent (st : Settings) (v : View) : Prop :=
  isUploading v = negb (is_finished (stage v)) ∧
  (∀ t, toast v = Some t → style t = StyleSuccess →
        stage v = SFinished ∧ ∃ size s, transfer v = Some (size, s) ∧ phase s = PDone Success) ∧
  (∀ url, uploadedFileUrl v = Some url →
          ∃ size s, transfer v = Some (size, s) ∧ phase s = PDone Success) ∧
  match transfer v with
  | None =>
      match stage v with
      | SUpload _ _ | SCopy => False
      | _ => True
      end
  | Some (size, s) =>
      reachable (uploadPrefs st) size s ∧ uploadCancelled v = cancelled s ∧
      match stage v with
      | SUpload _ _ => ∀ o, phase s ≠ PDone o
      | SCopy => phase s = PDone Success
      | SFinished =>
          phase s = PDone Success ∨
          ∃ msg code, phase s = PDone (Failure msg) ∧
            toast v = Some (upload_error_toast (useSSL st) (ErrorObject msg code)) ∧
            (In ActAbort (trace s) → code = None)
      | _ => False
      end
  end.

End UploadCommand.

(** ** The progress stream *)

Module ProgressStream.

(** [Math.round((transferred / total) * 100)] for integers [0 ≤ transferred]
    and [total]: the quotient by 0 is [Infinity], and [NaN] for 0 / 0. *)
Inductive Rounded : Type :=
| Finite (z : Z)
| Infinity
| NotANumber.

Definition round_ratio (transferred total : Z) : Rounded :=
  if total =? 0 then (if transferred =? 0 then NotANumber else Infinity)
  else Finite (percentage_of transferred total).

(** [Math.min(percentage, 100)] *)
Definition min_100 (percentage : Rounded) : jsnum :=
  match percentage with
  | Finite z => Num (Z.min z 100)
  | Infinity => Num 100
  | NotANumber => NaN
  end.

Record ProgressStats : Type := {
  transferred : Z;
  total : Z;
  percentage : jsnum
}.

(** The stream: its two fields, the calls of [onProgress] and the chunks
    pushed downstream, both in the order they were made. *)
Record Stream : Type := {
  this_transferred : Z;
  this_total : Z;
  reported : list ProgressStats;
  pushed : list (list Byte.byte)
}.

(** [new ProgressStream(total, { onProgress })] *)
Definition create (total : Z) : Stream :=
  {| this_transferred := 0; this_total := total; reported := []; pushed := [] |}.

(** [_transform(chunk, encoding, callback)] *)
Definition _transform (chunk : list Byte.byte) (s : Stream) : Stream :=
  let transferred' := this_transferred s + Z.of_nat (length chunk) in
  let percentage := round_ratio transferred' (this_total s) in
  {| this_transferred := transferred';
     this_total := this_total s;
     reported := reported s ++ [{| transferred := transferred'; total := this_total s;
                                   percentage := min_100 percentage |}];
     pushed := pushed s ++ [chunk] |}.

(** The chunks written to the stream, in order. *)
Definition write_all (chunks : list (list Byte.byte)) (s : Stream) : Stream :=
  foldl (λ s' chunk, _transform chunk s') s chunks.

(** The reports are whole percentages that do not go down. *)
Definition percentage_le (a b : ProgressStats) : Prop :=
  ∃ p q, percentage a = Num p ∧ percentage b = Num q ∧ p ≤ q.

End ProgressStream.

(** ** The list command *)

Module ListCommand.

Record MinioObject : Type := {
  name : string;
  size : Z;
  lastModified : Z;   (* a [Date], as its time value *)
  etag : string;
  isDirectory : bool
}.

Definition MAX_PREVIEW_SIZE : Z := 50 * 1024 * 1024.

Definition IMAGE_EXTENSIONS : list string :=
  [".jpg"; ".jpeg"; ".png"; ".gif"; ".bmp"; ".webp"; ".svg"].

Definition TEXT_EXTENSIONS : list string :=
  [".txt"; ".md"; ".json"; ".xml"; ".html"; ".css"; ".js"; ".ts"; ".py"; ".sh";
   ".bat"; ".cmd"; ".ps1"; ".jsonl"; ".lrc"].

Definition AUDIO_EXTENSIONS : list string := [".mp3"; ".wav"; ".ogg"; ".m4a"; ".flac"].

Definition VIDEO_EXTENSIONS : list string := [".mp4"; ".webm"; ".mov"; ".avi"].

Definition PREVIEWABLE_EXTENSIONS : list string :=
  IMAGE_EXTENSIONS ++ AUDIO_EXTENSIONS ++ VIDEO_EXTENSIONS ++ TEXT_EXTENSIONS.

Inductive Icon : Type :=
| Icon_Image
| Icon_Music
| Icon_Video
| Icon_Text
| Icon_Document.

(** [l.includes(x)] *)
Definition Array_includes (l : list string) (x : string) : bool := bool_decide (x ∈ l).

Section Extensions.
Variable extname : string → string.       (* [path.extname] *)
Variable toLowerCase : string → string.   (* [String.prototype.toLowerCase] *)

(** [isPreviewable(objectName, size)] *)
Definition isPreviewable (objectName : string) (size : Z) : bool :=
  if MAX_PREVIEW_SIZE <? size then false
  else
    let ext := toLowerCase (extname objectName) in
    Array_includes PREVIEWABLE_EXTENSIONS ext.

(** [getFileIcon(fileName)] *)
Definition getFileIcon (fileName : string) : Icon :=
  let ext := toLowerCase (extname fileName) in
  if Array_includes IMAGE_EXTENSIONS ext then Icon_Image
  else if Array_includes AUDIO_EXTENSIONS ext then Icon_Music
  else if Array_includes VIDEO_EXTENSIONS ext then Icon_Video
  else if Array_includes TEXT_EXTENSIONS ext then Icon_Text
  else Icon_Document.

End Extensions.

(** [Math.max(10, parseInt(preferences.pageSize || "100"))] *)
Definition pageSize_of (pageSizePref : jsnum) : jsnum := Math_max (Num 10) pageSizePref.

(** *** Navigation *)

(** [navigateUp()]: the prefix it sets and lists, none when
    [currentPrefix] is empty. *)
Definition navigateUp (currentPrefix : string) : option string :=
  if bool_decide (currentPrefix = "") then None
  else
    let parts := filter (λ p, p ≠ "") (JsString.split "/" currentPrefix) in
    let parts := removelast parts in
    Some (if bool_decide (0 < length parts)%nat then JsString.join "/" parts +:+ "/" else "").

(** A name without a slash; a segment of a path is such a name that is
    not empty. *)
Definition slash_free (s : string) : Prop := JsString.includes s "/" = false.

Definition segment (s : string) : Prop := s ≠ "" ∧ slash_free s.

(** The prefix that names the directory [segs]: each segment followed by
    a slash. *)
Definition directory_prefix (segs : list string) : string :=
  foldr (λ seg p, seg +:+ "/" +:+ p) "" segs.

(** *** [listObjects] *)

(** An object of the stream of [listObjectsV2]; a field may be missing. *)
Record BucketItem : Type := {
  item_name : option string;
  item_size : option Z;
  item_lastModified : option Z;
  item_etag : option string
}.

(** What the stream raises; [now] is the clock that [new Date()] reads. *)
Inductive StreamEvent : Type :=
| OnData (now : Z) (obj : BucketItem)
| OnError (err : Thrown)
| OnEnd
| OnClose.

(** The variables of one call of [listObjects]; [settled] is the state of
    the promise that wraps the stream, [hasMore] the last [setHasMore]. *)
Record Listing : Type := {
  fetchedObjects : list MinioObject;
  directories : gset string;
  objectCount : Z;
  lastObj : option string;
  streamDestroyed : bool;
  hasMore : bool;
  settled : option (option Thrown)
}.

(** [resolve()] or [reject(err)]: the first call settles the promise. *)
Definition settle_with (r : option Thrown) (l : Listing) : Listing :=
  {| fetchedObjects := fetchedObjects l; directories := directories l;
     objectCount := objectCount l; lastObj := lastObj l;
     streamDestroyed := streamDestroyed l; hasMore := hasMore l;
     settled := match settled l with Some r0 => Some r0 | None => Some r end |}.

Definition push_directory (dirName : string) (now : Z) (l : Listing) : Listing :=
  {| fetchedObjects :=
       fetchedObjects l ++ [{| name := dirName; size := 0; lastModified := now;
                               etag := ""; isDirectory := true |}];
     directories := {[ dirName ]} ∪ directories l;
     objectCount := objectCount l; lastObj := lastObj l;
     streamDestroyed := streamDestroyed l; hasMore := hasMore l; settled := settled l |}.

Definition push_file (n : string) (now : Z) (obj : BucketItem) (l : Listing) : Listing :=
  {| fetchedObjects :=
       fetchedObjects l ++ [{| name := n; size := default 0 (item_size obj);
                               lastModified := default now (item_lastModified obj);
                               etag := default "" (item_etag obj); isDirectory := false |}];
     directories := directories l;
     objectCount := objectCount l + 1; lastObj := Some n;
     streamDestroyed := streamDestroyed l; hasMore := hasMore l; settled := settled l |}.

(** [streamDestroyed = true; objectsStream.destroy(); setHasMore(true); resolve()] *)
Definition page_full (l : Listing) : Listing :=
  settle_with None
    {| fetchedObjects := fetchedObjects l; directories := directories l;
       objectCount := objectCount l; lastObj := lastObj l;
       streamDestroyed := true; hasMore := true; settled := settled l |}.

(** [onData(obj)] *)
Definition onData (prefix : string) (pageSize : jsnum) (now : Z) (obj : BucketItem)
    (l : Listing) : Listing :=
  if streamDestroyed l then l
  else
    match item_name obj with
    | None => l
    | Some n =>
        if bool_decide (n = "") || bool_decide (n = prefix) then l
        else
          let relativePath := JsString.slice_from (String.length prefix) n in
          let parts := JsString.split "/" relativePath in
          let parts0 := default "" (head parts) in
          let l1 :=
            if bool_decide (1 < length parts)%nat && negb (bool_decide (parts0 = "")) then
              let dirName := prefix +:+ parts0 +:+ "/" in
              if bool_decide (dirName ∈ directories l) then l
              else push_directory dirName now l
            else push_file n now obj l in
          if js_ge (Num (objectCount l1)) pageSize then page_full l1 else l1
    end.

Definition onEvent (prefix : string) (pageSize : jsnum) (ev : StreamEvent) (l : Listing)
  : Listing :=
  match ev with
  | OnData now obj => onData prefix pageSize now obj l
  | OnError err => if streamDestroyed l then l else settle_with (Some err) l
  | OnEnd =>
      if streamDestroyed l then l
      else settle_with None
             {| fetchedObjects := fetchedObjects l; directories := directories l;
                objectCount := objectCount l; lastObj := lastObj l;
                streamDestroyed := streamDestroyed l; hasMore := false;
                settled := settled l |}
  | OnClose => if streamDestroyed l then settle_with None l else l
  end.

(** The variables before the stream is read: when more is loaded the
    directories already shown are known, otherwise [setHasMore(false)]. *)
Definition listing_start (loadMore : bool) (hasMore : bool) (objects : list MinioObject)
  : Listing :=
  {| fetchedObjects := [];
     directories := if loadMore
                    then list_to_set (name <$> filter (λ o, isDirectory o = true) objects)
                    else ∅;
     objectCount := 0; lastObj := None; streamDestroyed := false;
     hasMore := if loadMore then hasMore else false;
     settled := None |}.

Definition read_stream (prefix : string) (pageSize : jsnum) (evs : list StreamEvent)
    (l : Listing) : Listing :=
  foldl (λ l' ev, onEvent prefix pageSize ev l') l evs.

(** The names of the objects that the stream has delivered. *)
Definition stream_names (evs : list StreamEvent) : list string :=
  omap (λ ev, match ev with OnData _ obj => item_name obj | _ => None end) evs.

(** The test of [onData] for an object below a directory:
    [parts.length > 1 && parts[0] !== ""]. *)
Definition below_directory (prefix n : string) : Prop :=
  let parts := JsString.split "/" (JsString.slice_from (String.length prefix) n) in
  (1 < length parts)%nat ∧ default "" (head parts) ≠ "".

(** The invariant of the names, with [known] the directories known
    before the stream is read and [seen] the names the stream has
    delivered: a directory fetched is known now, was not known before and
    is named by a segment below the prefix; a file fetched has the name of
    an object of the stream that is not below a directory; no name is
    fetched twice. *)
Definition names_inv (prefix : string) (known : gset string) (seen : list string)
    (l : Listing) : Prop :=
  known ⊆ directories l ∧
  NoDup (name <$> fetchedObjects l) ∧
  Forall (λ o, if isDirectory o
               then name o ∈ directories l ∧ (name o ∉ known) ∧
                    ∃ seg, segment seg ∧ name o = (prefix +:+ seg +:+ "/")
               else name o ∈ seen ∧ ¬ below_directory prefix (name o))
         (fetchedObjects l).

(** The invariant of the page, for a page of [k] files: the files are
    counted, the page is not full while the stream is open, and never more
    than full; once the stream is destroyed more is announced and the
    promise is settled. *)
Definition page_inv (k : Z) (l : Listing) : Prop :=
  objectCount l = Z.of_nat (length (filter (λ o, isDirectory o = false) (fetchedObjects l))) ∧
  objectCount l ≤ k ∧
  (streamDestroyed l = false → objectCount l < k) ∧
  (streamDestroyed l = true →
   objectCount l = k ∧ hasMore l = true ∧ settled l ≠ None).

(** The entries that are files. *)
Definition files (l : list MinioObject) : list MinioObject :=
  filter (λ o, isDirectory o = false) l.

(** [Array.prototype.sort(cmp)]: a stable sort; the order it gives is
    that of the source for a consistent comparator, as [localeCompare]
    is. *)
Fixpoint sort_insert {A : Type} (cmp : A → A → Z) (x : A) (l : list A) : list A :=
  match l with
  | [] => [x]
  | y :: l' => if cmp x y <=? 0 then x :: l else y :: sort_insert cmp x l'
  end.

Definition Array_sort {A : Type} (cmp : A → A → Z) (l : list A) : list A :=
  foldr (sort_insert cmp) [] l.

(** No directory comes after a file. *)
Definition directories_first (a b : MinioObject) : Prop :=
  isDirectory b = true → isDirectory a = true.

Section Sorting.
Variable localeCompare : string → string → Z.   (* [String.prototype.localeCompare] *)

(** "directories first, then files" *)
Definition compareObjects (a b : MinioObject) : Z :=
  if isDirectory a && negb (isDirectory b) then -1
  else if negb (isDirectory a) && isDirectory b then 1
  else localeCompare (name a) (name b).

(** [objects.some((existing) => existing.name === o.name)] *)
Definition shown_already (objects : list MinioObject) (o : MinioObject) : bool :=
  existsb (λ existing, bool_decide (name existing = name o)) objects.

(** [newObjects]: what [listObjects] passes to [setObjects] when the
    stream has been read. *)
Definition newObjects (loadMore : bool) (objects : list MinioObject) (l : Listing)
  : list MinioObject :=
  let fetched := Array_sort compareObjects (fetchedObjects l) in
  let merged := if loadMore
                then objects ++ filter (λ o, shown_already objects o = false) fetched
                else fetched in
  Array_sort compareObjects merged.

End Sorting.

End ListCommand.

(** ** Inputs of the examples of the upload command *)

(** The last segment of a path, as [path.basename] gives it for a path
    that does not end in a separator. *)
Definition basename_example (p : string) : string :=
  List.last (JsString.split "/" p) "".

Definition settings_example : UploadCommand.Settings :=
  {| UploadCommand.defaultBucket := "media";
     UploadCommand.publicUrlBase := Some "https://cdn.example.com/";
     UploadCommand.autoCopyUrl := true;
     UploadCommand.maxFileSizeText := "1024";
     UploadCommand.maxFileSizeMB := Num 1024;
     UploadCommand.uploadPrefs := prefs_two_workers;
     UploadCommand.useSSL := true |}.

Definition values_example : UploadCommand.FormValues :=
  {| UploadCommand.bucket := "";
     UploadCommand.file := UploadCommand.FileList ["/tmp/video.mp4"];
     UploadCommand.prefix := "clips" |}.

(** The callbacks from the submission to the first call of an upload of
    10 MiB into a bucket that exists. *)
Definition callbacks_to_upload : list UploadCommand.Callback :=
  [UploadCommand.CbToastShown None true;
   UploadCommand.CbAccess None (inr (10 * MiB)) None;
   UploadCommand.CbBucketExists (inr true) (inr (10 * MiB)) None].

(** The upload is cancelled while the workers ask for their URLs. *)
Definition callbacks_cancelled : list UploadCommand.Callback :=
  callbacks_to_upload ++
  [UploadCommand.CbUpload (EvInitiated None) None;
   UploadCommand.CbCancel;
   UploadCommand.CbUpload (EvPresigned 0 100) None;
   UploadCommand.CbUpload (EvPresigned 1 100) None;
   UploadCommand.CbUpload (EvAbortDone None) None].

(** The two parts are uploaded and the URL is copied. *)
Definition callbacks_completed : list UploadCommand.Callback :=
  callbacks_to_upload ++
  [UploadCommand.CbUpload (EvInitiated None) None;
   UploadCommand.CbUpload (EvPresigned 0 100) None;
   UploadCommand.CbUpload (EvPresigned 1 100) None;
   UploadCommand.CbUpload (EvResponse 1 (Some 200) "b") None;
   UploadCommand.CbUpload (EvResponse 0 (Some 200) "a") None;
   UploadCommand.CbUpload (EvCompleteDone None) None;
   UploadCommand.CbCopied None].

(** * Properties *)

(** * Part planning *)

Section Planning.

Lemma ceil_div_bounds (a b : Z) :
  0 < b → (ceil_div a b - 1) * b < a ≤ ceil_div a b * b.
Proof.
  intros Hb. unfold ceil_div.
  pose proof (Z.mul_div_le (- a) b Hb).
  pose proof (Z.mul_succ_div_gt (- a) b Hb).
  lia.
Qed.

Lemma ceil_div_unique (a b n : Z) :
  0 < b → (n - 1) * b < a ≤ n * b → ceil_div a b = n.
Proof.
  intros Hb Hn. pose proof (ceil_div_bounds a b Hb). nia.
Qed.

Lemma ceil_div_pos (a b : Z) : 0 < b → 0 < a → 0 < ceil_div a b.
Proof. intros Hb Ha. pose proof (ceil_div_bounds a b Hb). nia. Qed.

Lemma length_parts_loop n i ps size : length (parts_loop n i ps size) = n.
Proof. revert i. induction n as [|n IH]; intros i; simpl; [done|]. by rewrite IH. Qed.

Lemma parts_loop_lookup n i ps size (k : nat) p :
  parts_loop n i ps size !! k = Some p ↔
  (k < n)%nat ∧
  p = {| partNumber := i + Z.of_nat k + 1;
         start := (i + Z.of_nat k) * ps;
         end_ := Z.min ((i + Z.of_nat k) * ps + ps) size |}.
Proof.
  revert i k. induction n as [|n IH]; intros i k; simpl.
  - split; [done | lia].
  - destruct k as [|k]; simpl.
    + replace (i + Z.of_nat 0) with i by lia.
      split; [intros [= <-]; split; [lia | done] | intros [_ ->]; done].
    + rewrite IH. replace (i + 1 + Z.of_nat k) with (i + Z.of_nat (S k)) by lia.
      split; intros [? ?]; (split; [lia | done]).
Qed.

Lemma length_plan size ps :
  Z.of_nat (length (plan size ps)) = Z.max 0 (totalParts_of size ps).
Proof. unfold plan. rewrite length_parts_loop. lia. Qed.

Lemma plan_lookup size ps (k : nat) p :
  plan size ps !! k = Some p ↔
  Z.of_nat k < totalParts_of size ps ∧
  p = {| partNumber := Z.of_nat k + 1;
         start := Z.of_nat k * ps;
         end_ := Z.min (Z.of_nat k * ps + ps) size |}.
Proof.
  unfold plan. rewrite parts_loop_lookup. simpl.
  split; intros [? ?]; (split; [lia | done]).
Qed.

End Planning.
(** C1: for a file of positive size and a positive part size, the plan has
  [ceil(fileSize / partSize)] parts, numbered from 1 without gap, each
  part is a non-empty range, the first starts at 0, each ends where the
  next starts, the last ends at [fileSize], and every byte of
  [0, fileSize) lies in exactly one part. *)
Theorem plan_partitions_file (size ps : Z) :
0 < size → 0 < ps →
let l := plan size ps in
let n := totalParts_of size ps in
Z.of_nat (length l) = n ∧
(n - 1) * ps < size ≤ n * ps ∧
(∀ (i : nat) p, l !! i = Some p → partNumber p = Z.of_nat i + 1 ∧ start p < end_ p) ∧
(∀ p, l !! 0%nat = Some p → start p = 0) ∧
(∀ (i : nat) p q, l !! i = Some p → l !! S i = Some q → end_ p = start q) ∧
(∀ p, last l = Some p → end_ p = size) ∧
(∀ b, 0 ≤ b < size →
      ∃ (i : nat) p, l !! i = Some p ∧ start p ≤ b < end_ p ∧
        ∀ (j : nat) q, l !! j = Some q → start q ≤ b < end_ q → j = i).
Proof.
intros Hsize Hps l n.
pose proof (ceil_div_bounds size ps Hps) as Hn. fold (totalParts_of size ps) in Hn. fold n in Hn.
assert (0 < n) as Hn0 by (apply ceil_div_pos; done).
assert (Z.of_nat (length l) = n) as Hlen.
{ unfold l. rewrite length_plan. fold n. lia. }
repeat split; try lia.
- apply plan_lookup in H as [_ ->]. done.
- apply plan_lookup in H as [Hi ->]. simpl. fold n in Hi. nia.
- intros p [_ ->]%plan_lookup. simpl. lia.
- intros i p q [_ ->]%plan_lookup [Hi ->]%plan_lookup. simpl. fold n in Hi. nia.
- intros p. rewrite last_lookup. intros [Hi ->]%plan_lookup. simpl.
  fold n in Hi. nia.
- intros b Hb.
  assert (0 ≤ b / ps) by (apply Z.div_pos; lia).
  pose proof (Z.mul_div_le b ps Hps). pose proof (Z.mul_succ_div_gt b ps Hps).
  exists (Z.to_nat (b / ps)). eexists. split; [|split].
  + apply plan_lookup. split; [|reflexivity]. fold n. nia.
  + simpl. nia.
  + intros j q [Hj ->]%plan_lookup. simpl. intros Hq. nia.
Qed.

(** The plan at the sizes of the scenario of the design: 26 MiB in parts of 5 MiB. *)
Lemma plan_partitions_file_witness :
0 < 26 * MiB ∧ 0 < 5 * MiB ∧ Z.of_nat (length (plan (26 * MiB) (5 * MiB))) = 6.
Proof.
split; [done|]. split; [done|].
destruct (plan_partitions_file (26 * MiB) (5 * MiB) eq_refl eq_refl) as [H _].
etrans; [exact H | reflexivity].
Defined.
(** * The order of the completion call *)

Section Sorting.

Lemma sort_insert_perm x l : sort_insert by_part x l ≡ₚ x :: l.
Proof.
  induction l as [|y l IH]; simpl; [done|].
  case_match; [done|]. rewrite IH. apply Permutation_swap.
Qed.

Lemma js_sort_perm l : js_sort by_part l ≡ₚ l.
Proof.
  induction l as [|x l IH]; simpl; [done|].
  rewrite sort_insert_perm. by rewrite IH.
Qed.

Lemma sort_insert_sorted x l :
  StronglySorted part_le l → StronglySorted part_le (sort_insert by_part x l).
Proof.
  induction 1 as [|y l Hl IH Hy]; simpl.
  - repeat constructor.
  - destruct (by_part x y <=? 0) eqn:Hxy.
    + apply Z.leb_le in Hxy. unfold by_part in Hxy.
      constructor; [by constructor|].
      constructor; [unfold part_le; lia|].
      eapply Forall_impl; [exact Hy|]. unfold part_le. intros; lia.
    + apply Z.leb_gt in Hxy. unfold by_part in Hxy.
      constructor; [done|].
      rewrite sort_insert_perm. constructor; [unfold part_le; lia | done].
Qed.

Lemma js_sort_sorted l : StronglySorted part_le (js_sort by_part l).
Proof.
  induction l as [|x l IH]; simpl; [constructor|]. by apply sort_insert_sorted.
Qed.

End Sorting.
(** * What a transition adds to the trace *)

Section Trace.
Context (c : Session).

Lemma grows_refl s : grows s s.
Proof. split; [done|]. split; [done|]. exists []. by rewrite Forall_nil. Qed.

Lemma grows_trans s1 s2 s3 : grows s1 s2 → grows s2 s3 → grows s1 s3.
Proof.
  intros (Hc1 & Hq1 & n1 & Ht1 & Hn1 & He1) (Hc2 & Hq2 & n2 & Ht2 & Hn2 & He2).
  split; [congruence|]. split.
  { intros Hc Hq. apply Hq2; [congruence | by apply Hq1]. }
  exists (n2 ++ n1). split; [|split].
  - rewrite Ht2, Ht1. by rewrite app_assoc.
  - apply Forall_app. split; [|done]. by rewrite <- Hc1.
  - intros He3. destruct (He2 He3) as [He2' Hf2]. destruct (He1 He2') as [He1' Hf1].
    split; [done|]. by apply Forall_app.
Qed.

(** A change of the state that leaves the flag, the workers, the phase and
    the trace alone. *)
Lemma grows_same s s' :
  cancelled s' = cancelled s → workers s' = workers s →
  phase s' = phase s → trace s' = trace s → grows s s'.
Proof.
  intros Hc Hw Hp Ht. split; [done|]. split.
  { unfold quiet. by rewrite Hw. }
  exists []. rewrite Hp. by rewrite !Forall_nil.
Qed.

Lemma quiet_insert w st s :
  is_live st = false → quiet s → quiet (set_worker w st s).
Proof. intros Hst Hq. unfold quiet, set_worker. simpl. by apply Forall_insert. Qed.

(** A worker changes its status to one without an open request. *)
Lemma grows_set_worker w st s : is_live st = false → grows s (set_worker w st s).
Proof.
  intros Hst. split; [done|]. split.
  { intros _. by apply quiet_insert. }
  exists []. by rewrite !Forall_nil.
Qed.

Lemma grows_set_phase ph s :
  (early ph = true → early (phase s) = true) → grows s (set_phase ph s).
Proof.
  intros He. split; [done|]. split; [done|].
  exists []. rewrite !Forall_nil. split; [done|]. split; [done|].
  intros H. split; [by apply He | done].
Qed.

Lemma grows_emitted a s s' :
  trace s' = a :: trace s → cancelled s' = cancelled s → workers s' = workers s →
  engine_action (cancelled s) a →
  (early (phase s') = true → early (phase s) = true ∧ is_final a = false) →
  grows s s'.
Proof.
  intros Ht Hc Hw Ha He. split; [done|]. split.
  { unfold quiet. by rewrite Hw. }
  exists [a]. split; [done|]. split; [by constructor|].
  intros [? ?]%He. split; [done|]. by constructor.
Qed.

Lemma grows_finish s : grows s (finish s).
Proof.
  unfold finish. destruct (cancelled s) eqn:Hc.
  - by eapply grows_emitted.
  - eapply grows_emitted; [reflexivity | done | done | | done].
    simpl. rewrite Hc. split; [done|]. by eexists.
Qed.

Lemma grows_after_workers b s : early (phase s) = true → grows s (after_workers c b s).
Proof.
  intros He.
  unfold after_workers. destruct (negb b && negb (cancelled s)) eqn:Hb;
    [|apply grows_finish].
  case_bool_decide; [apply grows_finish|].
  apply andb_true_iff in Hb as [_ Hc%negb_true_iff].
  eapply grows_emitted; [reflexivity | done | done | by rewrite Hc | done].
Qed.

Lemma grows_settle w s : grows s (settle c w s).
Proof.
  unfold settle. destruct (phase s) eqn:Hp; try apply grows_refl.
  repeat case_match; try apply grows_refl; apply grows_after_workers; by rewrite Hp.
Qed.

Lemma grows_worker_throw w e s : grows s (worker_throw c w e s).
Proof.
  unfold worker_throw. eapply grows_trans; [|apply grows_settle].
  eapply grows_trans; [|by apply grows_set_worker].
  apply grows_same; by case_match.
Qed.

Lemma retry_catch_cancelled m r e : retry_catch m r true e = Rethrow e.
Proof. done. Qed.

Lemma grows_attempt_failed w p r e s : grows s (attempt_failed c w p r e s).
Proof.
  unfold attempt_failed. destruct (retry_catch _ _ _ _) eqn:Hr.
  - apply grows_worker_throw.
  - destruct (cancelled s) eqn:Hc; [by rewrite retry_catch_cancelled in Hr|].
    eapply grows_trans; [|by apply grows_set_worker].
    eapply grows_emitted; [reflexivity | done | done | by rewrite Hc | done].
Qed.

Lemma grows_uploadPart_start w p r s : grows s (uploadPart_start c w p r s).
Proof.
  unfold uploadPart_start. destruct (cancelled s) eqn:Hc.
  - apply grows_attempt_failed.
  - eapply grows_trans; [|by apply grows_set_worker].
    eapply grows_emitted; [reflexivity | done | done | by rewrite Hc | done].
Qed.

Lemma grows_writeChunk w p r u n s : grows s (writeChunk c w p r u n s).
Proof.
  unfold writeChunk. destruct (cancelled s) eqn:Hc.
  - apply grows_attempt_failed.
  - split; [by case_match|]. split; [congruence|].
    exists []. rewrite !Forall_nil. by case_match.
Qed.

Lemma grows_worker_loop w s : grows s (worker_loop c w s).
Proof.
  unfold worker_loop. destruct (queue s) as [|p rest]; [by apply grows_set_worker|].
  destruct (cancelled s) eqn:Hc; simpl; [by apply grows_set_worker|].
  case_bool_decide; simpl; [|by apply grows_set_worker].
  eapply grows_trans; [|by apply grows_set_worker].
  eapply grows_emitted; [reflexivity | done | done | | done].
  simpl. by rewrite Hc.
Qed.

Lemma grows_part_uploaded w p tag s : grows s (part_uploaded c w p tag s).
Proof.
  unfold part_uploaded.
  eapply grows_trans; [|apply grows_settle].
  eapply grows_trans; [|apply grows_worker_loop]. by apply grows_same.
Qed.

Lemma grows_spawn_worker s : grows s (spawn_worker c s).
Proof.
  unfold spawn_worker. eapply grows_trans; [|apply grows_worker_loop].
  split; [done|]. split.
  { intros _ Hq. unfold quiet. simpl. apply Forall_app. split; [done|]. by constructor. }
  exists []. by rewrite !Forall_nil.
Qed.

Lemma grows_spawn n s : grows s (Nat.iter n (spawn_worker c) s).
Proof.
  induction n as [|n IH]; simpl; [apply grows_refl|].
  eapply grows_trans; [exact IH | apply grows_spawn_worker].
Qed.

Lemma worker_loop_phase w s : phase (worker_loop c w s) = phase s.
Proof. unfold worker_loop. by repeat case_match. Qed.

Lemma spawn_phase n s : phase (Nat.iter n (spawn_worker c) s) = phase s.
Proof.
  induction n as [|n IH]; simpl; [done|].
  unfold spawn_worker at 1. by rewrite worker_loop_phase.
Qed.

Lemma grows_runUploadWorkers s :
  early (phase s) = true → grows s (runUploadWorkers c s).
Proof.
  intros He. unfold runUploadWorkers.
  set (s1 := Nat.iter _ _ _).
  assert (grows s s1) as H1.
  { eapply grows_trans; [|apply grows_spawn]. by apply grows_same. }
  assert (phase s1 = phase s) as Hp by (unfold s1; by rewrite spawn_phase).
  case_match.
  - eapply grows_trans; [exact H1 | apply grows_after_workers]. by rewrite Hp.
  - eapply grows_trans; [exact H1 |]. apply grows_set_phase. by rewrite Hp.
Qed.

Lemma reset_progress_fields l s :
  cancelled (reset_progress l s) = cancelled s ∧
  trace (reset_progress l s) = trace s ∧
  queue (reset_progress l s) = queue s ∧
  workers (reset_progress l s) = workers s ∧
  uploadedParts (reset_progress l s) = uploadedParts s ∧
  uploadError (reset_progress l s) = uploadError s ∧
  phase (reset_progress l s) = phase s.
Proof.
  unfold reset_progress. revert s. induction l as [|p l IH]; intros s; simpl; [done|].
  destruct (IH (set_progress p 0 s)) as (-> & -> & -> & -> & -> & -> & ->). done.
Qed.

Lemma grows_alert_answered failed b s :
  early (phase s) = true → grows s (alert_answered c failed b s).
Proof.
  intros He. unfold alert_answered. destruct b; simpl.
  - destruct (reset_progress_fields failed (set_queue failed s))
      as (Hc & Ht & _ & Hw & _ & _ & Hp).
    eapply grows_trans; [|apply grows_runUploadWorkers; simpl; by rewrite Hp].
    by apply grows_same; simpl.
  - by eapply grows_emitted.
Qed.

Lemma grows_unregister w s : grows s (unregister w s).
Proof. by apply grows_same. Qed.

(** A transition other than the cancellation keeps the flag and adds
    engine actions only. *)
Lemma step_grows ev s s' :
  step c ev s = Some s' → ev ≠ EvCancel → grows s s'.
Proof.
  intros Hstep Hev.
  destruct ev; simpl in Hstep; [done|..]; repeat case_match; simplify_eq;
    first [ by apply grows_set_phase
          | apply grows_attempt_failed
          | apply grows_uploadPart_start
          | apply grows_alert_answered
          | eapply grows_trans; [apply grows_unregister | apply grows_attempt_failed]
          | eapply grows_trans; [apply grows_unregister | apply grows_part_uploaded]
          | idtac ].
  - eapply grows_trans; [|apply grows_runUploadWorkers; simpl; by rewrite H].
    by apply grows_same.
  - eapply grows_trans; [|apply grows_writeChunk].
    eapply grows_trans; [|by apply grows_same].
    eapply grows_emitted; [reflexivity | done | done | | done]. simpl. done.
  - apply grows_writeChunk.
  - by rewrite H.
Qed.

Lemma destroy_registered_lookup reg ws (w : nat) :
  destroy_registered reg ws !! w
  = (λ st, if bool_decide (w ∈ reg) then destroy st else st) <$> ws !! w.
Proof. unfold destroy_registered. apply list_lookup_imap. Qed.

(** [cancelUpload] leaves no request open when every open request is
    registered, and none when none was open. *)
Lemma quiet_cancelUpload s : registered s → quiet (cancelUpload s).
Proof.
  intros Hreg. unfold quiet, cancelUpload. simpl.
  apply Forall_lookup. intros w st. rewrite destroy_registered_lookup.
  destruct (workers s !! w) as [st0|] eqn:Hw; simpl; [|done]. intros [= <-].
  case_bool_decide as Hin; [by destruct st0|].
  destruct (is_live st0) eqn:Hlive; [|done].
  destruct st0 as [|p r u [|]| | |]; try done. by destruct (Hin (Hreg w p r u Hw)).
Qed.

Lemma quiet_cancelUpload_again s : quiet s → quiet (cancelUpload s).
Proof.
  intros Hq. unfold quiet, cancelUpload in *. simpl.
  apply Forall_lookup. intros w st. rewrite destroy_registered_lookup.
  destruct (workers s !! w) as [st0|] eqn:Hw; simpl; [|done]. intros [= <-].
  rewrite Forall_lookup in Hq. specialize (Hq w st0 Hw).
  case_bool_decide; [by destruct st0 | done].
Qed.

Lemma cancel_or_not ev : ev = EvCancel ∨ ev ≠ EvCancel.
Proof. destruct ev; auto. Qed.

Lemma step_trace ev s s' :
  step c ev s = Some s' →
  ∃ new, trace s' = new ++ trace s ∧ Forall (engine_action (cancelled s)) new.
Proof.
  intros Hstep. destruct (cancel_or_not ev) as [-> | Hev].
  - simpl in Hstep. simplify_eq. by exists [].
  - destruct (step_grows _ _ _ Hstep Hev) as (_ & _ & new & ? & ? & _). eauto.
Qed.

(** Once the flag is set it stays set, and no request is open. *)
Lemma step_cancelled ev s s' :
  step c ev s = Some s' → cancelled s = true → quiet s →
  cancelled s' = true ∧ quiet s'.
Proof.
  intros Hstep Hc Hq. destruct (cancel_or_not ev) as [-> | Hev].
  - simpl in Hstep. simplify_eq. split; [done | by apply quiet_cancelUpload_again].
  - destruct (step_grows _ _ _ Hstep Hev) as (Hc' & Hq' & _). split; [congruence | auto].
Qed.

Lemma run_invariant (I : State → Prop) evs :
  (∀ ev s s', I s → step c ev s = Some s' → I s') →
  ∀ s s', I s → run c evs s = Some s' → I s'.
Proof.
  intros Hstep. induction evs as [|ev evs IH]; simpl; intros s s' HI Hrun.
  - by simplify_eq.
  - destruct (step c ev s) as [s1|] eqn:Hs; [|done]. eauto.
Qed.

Lemma engine_action_weaken b a : engine_action b a → engine_action false a.
Proof. destruct a, b; simpl; try done. by intros [? _]. Qed.

Lemma run_trace evs s s' :
  run c evs s = Some s' →
  ∃ new, trace s' = new ++ trace s ∧ Forall (engine_action false) new.
Proof.
  revert s. induction evs as [|ev evs IH]; simpl; intros s Hrun.
  - simplify_eq. by exists [].
  - destruct (step c ev s) as [s1|] eqn:Hs; [|done].
    destruct (step_trace _ _ _ Hs) as (n1 & Ht1 & Hn1).
    destruct (IH _ Hrun) as (n2 & Ht2 & Hn2).
    exists (n2 ++ n1). split; [by rewrite Ht2, Ht1, app_assoc|].
    apply Forall_app. split; [done|].
    eapply Forall_impl; [exact Hn1|]. intros a. apply engine_action_weaken.
Qed.

Lemma step_early_trace ev s s' :
  early_trace s → step c ev s = Some s' → early_trace s'.
Proof.
  intros HI Hstep He'. destruct (cancel_or_not ev) as [-> | Hev].
  - simpl in Hstep. simplify_eq. by apply HI.
  - destruct (step_grows _ _ _ Hstep Hev) as (_ & _ & new & Ht & _ & Hf).
    destruct (Hf He') as [He Hnew]. rewrite Ht. apply Forall_app. split; [done|]. by apply HI.
Qed.

End Trace.

Lemma handleSubmit_fields prefs size :
  cancelled (handleSubmit prefs size) = false ∧
  workers (handleSubmit prefs size) = [] ∧
  queue (handleSubmit prefs size) = [] ∧
  uploadedParts (handleSubmit prefs size) = [] ∧
  uploadError (handleSubmit prefs size) = None ∧
  toastPercent (handleSubmit prefs size) = 0.
Proof. unfold handleSubmit. by repeat case_match. Qed.

Lemma handleSubmit_trace prefs size :
  Forall (λ a, is_final a = false) (trace (handleSubmit prefs size)).
Proof. unfold handleSubmit. repeat case_match; simpl; by repeat constructor. Qed.

Lemma reachable_early_trace prefs size s : reachable prefs size s → early_trace s.
Proof.
  intros [evs Hrun]. eapply run_invariant; [apply step_early_trace | | exact Hrun].
  intros _. apply handleSubmit_trace.
Qed.

(** C2: whatever the order in which the workers complete their parts (the
    events of the upload in any order), the array passed to
    [completeMultipartUpload] is sorted by part number, ascending; it is
    the sorted copy of a list of results. *)
Theorem completion_receives_sorted_parts prefs size evs s l :
  upload prefs size evs = Some s →
  In (ActComplete l) (trace s) →
  StronglySorted part_le l ∧ ∃ results, l = js_sort by_part results ∧ l ≡ₚ results.
Proof.
  intros Hrun Hin.
  destruct (run_trace _ _ _ _ Hrun) as (new & Ht & Hnew).
  rewrite Ht in Hin. apply in_app_or in Hin as [Hin | Hin].
  - rewrite Forall_forall in Hnew. apply list_elem_of_In in Hin. apply Hnew in Hin.
    simpl in Hin. destruct Hin as [_ [results ->]].
    split; [apply js_sort_sorted|]. exists results. split; [done | apply js_sort_perm].
  - pose proof (handleSubmit_trace prefs size) as Hinit.
    rewrite Forall_forall in Hinit. apply list_elem_of_In in Hin. by apply Hinit in Hin.
Qed.

Lemma completion_receives_sorted_parts_witness :
  StronglySorted part_le [{| part := 1; etag := "a" |}; {| part := 2; etag := "b" |}].
Proof.
  eapply (completion_receives_sorted_parts
            {| partSizePref := Num 5; concurrencyPref := Num 2; retryCountPref := Num 0 |}
            (10 * MiB)
            [EvInitiated None; EvPresigned 0 100; EvPresigned 1 100;
             EvResponse 1 (Some 200) "b"; EvResponse 0 (Some 200) "a"]).
  - vm_compute. reflexivity.
  - simpl. left. reflexivity.
Defined.

(** * The choice between the single-shot and the multipart path *)

Lemma step_single_shot c ev s s' :
  single_shot s → step c ev s = Some s' → single_shot s'.
Proof.
  intros (Ht & Hw & Hq & Hp) Hstep.
  destruct ev; simpl in Hstep; rewrite ?Hw in Hstep; simpl in Hstep; try done.
  - simplify_eq. unfold single_shot, cancelUpload. simpl. by rewrite Hw.
  - destruct Hp as [Hp | [o Hp]]; rewrite Hp in Hstep; [|done]. simplify_eq.
    unfold single_shot. simpl. eauto 10.
  - destruct Hp as [Hp | [o Hp]]; by rewrite Hp in Hstep.
  - destruct Hp as [Hp | [o Hp]]; by rewrite Hp in Hstep.
  - destruct Hp as [Hp | [o Hp]]; by rewrite Hp in Hstep.
  - destruct Hp as [Hp | [o Hp]]; by rewrite Hp in Hstep.
Qed.

Lemma partSize_of_num prefs n :
  partSizePref prefs = Num n → partSize_of prefs = Num (Z.max 5 n * MiB).
Proof. intros H. unfold partSize_of. rewrite H. simpl. f_equal. unfold MiB. lia. Qed.

Lemma handleSubmit_small prefs size :
  js_lt (Num size) (partSize_of prefs) = true →
  handleSubmit prefs size = start_state [] PSimple [ActFPutObject].
Proof.
  intros H. unfold handleSubmit.
  change (partSize (session_of prefs size)) with (partSize_of prefs). by rewrite H.
Qed.

Lemma handleSubmit_initiate prefs size :
  In ActInitiate (trace (handleSubmit prefs size)) →
  ∃ ps, partSize_of prefs = Num ps ∧ ps ≤ size.
Proof.
  unfold handleSubmit, totalParts.
  change (partSize (session_of prefs size)) with (partSize_of prefs).
  change (fileSize (session_of prefs size)) with size.
  destruct (partSize_of prefs) as [ps|] eqn:Hps; simpl.
  - destruct (size <? ps) eqn:Hlt; simpl; [by intros [?|[]]|].
    intros _. exists ps. split; [done|]. apply Z.ltb_ge in Hlt. lia.
  - intros [].
Qed.

Lemma small_file_reachable prefs size evs s :
  js_lt (Num size) (partSize_of prefs) = true →
  upload prefs size evs = Some s → single_shot s.
Proof.
  intros Hlt Hrun.
  eapply run_invariant; [apply step_single_shot | | exact Hrun].
  rewrite handleSubmit_small by done. unfold single_shot. simpl. eauto.
Qed.

(** C9: a file smaller than the threshold, which is the effective part
    size (and so a file smaller than the configured part size), takes the
    single-shot path: [fPutObject] is the only call ever made, no worker
    and no queue exist; and [initiateNewMultipartUpload] is called only
    when the file is at least as large as the effective part size. *)
Theorem small_file_single_shot prefs size evs s :
  upload prefs size evs = Some s →
  (js_lt (Num size) (partSize_of prefs) = true →
   trace s = [ActFPutObject] ∧ workers s = [] ∧ queue s = []) ∧
  (∀ n, partSizePref prefs = Num n → size < n * MiB →
        js_lt (Num size) (partSize_of prefs) = true) ∧
  (In ActInitiate (trace s) → ∃ ps, partSize_of prefs = Num ps ∧ ps ≤ size).
Proof.
  intros Hrun. split; [|split].
  - intros Hlt. by destruct (small_file_reachable _ _ _ _ Hlt Hrun) as (? & ? & ? & _).
  - intros n Hn Hlt. rewrite (partSize_of_num _ _ Hn). simpl.
    apply Z.ltb_lt. unfold MiB in *. lia.
  - intros Hin. destruct (run_trace _ _ _ _ Hrun) as (new & Ht & Hnew).
    rewrite Ht in Hin. apply in_app_or in Hin as [Hin | Hin].
    + rewrite Forall_forall in Hnew. apply list_elem_of_In in Hin. by apply Hnew in Hin.
    + by apply handleSubmit_initiate.
Qed.

Lemma small_file_single_shot_witness :
  ∃ s, upload prefs_default (3 * MiB) [EvFPutDone None] = Some s ∧
       trace s = [ActFPutObject] ∧ phase s = PDone Success.
Proof.
  eexists. split; [vm_compute; reflexivity|]. split; [|reflexivity].
  eapply (small_file_single_shot prefs_default (3 * MiB) [EvFPutDone None]).
  - vm_compute. reflexivity.
  - reflexivity.
Defined.

(** C8, as the claim states it, fails: with a part size of 1 MB, below the
    minimum, and an empty file the upload is not rejected; [fPutObject] is
    called and the upload succeeds. *)
Lemma invalid_configuration_not_rejected :
  partSizePref prefs_small_part = Num 1 ∧ 1 < 5 ∧ 0 ≤ 0 ∧
  handleSubmit prefs_small_part 0 = start_state [] PSimple [ActFPutObject] ∧
  upload prefs_small_part 0 [EvFPutDone None]
  = Some (start_state [] (PDone Success) [ActFPutObject]).
Proof. by vm_compute. Qed.

(** C8, amended: a configured part size below the minimum of the store is
    not rejected but raised to 5 MiB, and the upload goes on; a file of
    size 0 or less, like every file smaller than the effective part size,
    is not rejected either but sent by the single-shot path, where
    [fPutObject] is the only call and no multipart upload is initiated. *)
Theorem small_part_size_is_raised_not_rejected prefs n size :
  partSizePref prefs = Num n →
  n < 5 ∨ size ≤ 0 →
  partSize_of prefs = Num (Z.max 5 n * MiB) ∧
  5 * MiB ≤ Z.max 5 n * MiB ∧
  (n < 5 → partSize_of prefs = Num (5 * MiB) ∧
           (size < 5 * MiB → phase (handleSubmit prefs size) = PSimple) ∧
           (5 * MiB ≤ size ≤ 2 ^ 53 → phase (handleSubmit prefs size) = PInitiate)) ∧
  (size ≤ 0 →
   handleSubmit prefs size = start_state [] PSimple [ActFPutObject] ∧
   ∀ evs s, upload prefs size evs = Some s → trace s = [ActFPutObject]).
Proof.
  intros Hn _. pose proof (partSize_of_num _ _ Hn) as Hps.
  split; [done|]. split; [unfold MiB; lia|]. split.
  - intros Hlt. replace (Z.max 5 n) with 5 in Hps by lia. split; [done|]. split.
    + intros Hsize. rewrite handleSubmit_small; [done|]. rewrite Hps. simpl. by apply Z.ltb_lt.
    + intros Hsize. unfold handleSubmit, totalParts.
      change (partSize (session_of prefs size)) with (partSize_of prefs).
      change (fileSize (session_of prefs size)) with size.
      rewrite Hps. cbn [js_lt Math_ceil_div].
      destruct (size <? 5 * MiB) eqn:Hcmp; [apply Z.ltb_lt in Hcmp; lia|].
      pose proof (ceil_div_bounds size (5 * MiB) eq_refl) as Hb.
      destruct ((0 <=? ceil_div size (5 * MiB)) && (ceil_div size (5 * MiB) <=? 4294967295)) eqn:Hr;
        [done|].
      apply andb_false_iff in Hr. unfold MiB in *.
      destruct Hr as [Hr | Hr]; [apply Z.leb_gt in Hr | apply Z.leb_gt in Hr]; lia.
  - intros Hsize.
    assert (js_lt (Num size) (partSize_of prefs) = true) as Hlt.
    { rewrite Hps. simpl. apply Z.ltb_lt. unfold MiB. lia. }
    split; [by apply handleSubmit_small|].
    intros evs s Hrun. by destruct (small_file_reachable _ _ _ _ Hlt Hrun) as (? & _).
Qed.

Lemma small_part_size_is_raised_not_rejected_witness :
  partSize_of prefs_small_part = Num (5 * MiB) ∧
  phase (handleSubmit prefs_small_part (3 * MiB)) = PSimple.
Proof.
  destruct (small_part_size_is_raised_not_rejected prefs_small_part 1 (3 * MiB))
    as (_ & _ & H & _).
  - reflexivity.
  - left. lia.
  - destruct H as (H1 & H2 & _); [lia|]. split; [exact H1 | apply H2; reflexivity].
Defined.

(** * The retries of one part *)

Section Retry.
Context (m : Z) (Hm : 0 ≤ m).









End Retry.

(** * The coordinator and the workers *)

Section Engine.
Context (c : Session).

Lemma coordinated_refl s : coordinated s s.
Proof. by repeat split. Qed.

Lemma coordinated_finish s : coordinated s (finish s).
Proof.
  unfold finish. destruct (cancelled s); repeat split; simpl; try done.
  apply js_sort_perm.
Qed.

Lemma coordinated_after_workers b s : coordinated s (after_workers c b s).
Proof.
  unfold after_workers. repeat case_match; try apply coordinated_finish.
  by repeat split.
Qed.

Lemma coordinated_settle w s : coordinated s (settle c w s).
Proof.
  unfold settle. repeat case_match;
    try apply coordinated_refl; apply coordinated_after_workers.
Qed.

(** Where the coordinator goes when it is not cancelled: to the alert
    with the failed parts, which are not none, or to the completion. *)
Lemma after_workers_phase b s :
  cancelled s = false →
  (phase (after_workers c b s) = PAlert (failedParts_of c s) ∧
   failedParts_of c s ≠ [] ∧ b = false ∧
   trace (after_workers c b s)
   = ActAlert (Z.of_nat (length (uploadedParts s))) (totalParts c)
              (Z.of_nat (length (failedParts_of c s))) :: trace s) ∨
  (phase (after_workers c b s) = PComplete ∧ (b = true ∨ failedParts_of c s = [])).
Proof.
  intros Hc. unfold after_workers, finish. rewrite Hc. destruct b; simpl.
  - right. split; [done | by left].
  - case_bool_decide as Hlen.
    + right. split; [done|]. right. by apply nil_length_inv.
    + left. repeat split; try done. intros Hnil. by rewrite Hnil in Hlen.
Qed.

Lemma settle_phase w s :
  cancelled s = false →
  phase (settle c w s) = phase s ∨
  (∃ first, phase s = PWorkers first ∧ (first ≤ w)%nat ∧
     (phase (settle c w s) = PAlert (failedParts_of c s) ∧ failedParts_of c s ≠ [] ∨
      phase (settle c w s) = PComplete)).
Proof.
  intros Hc. unfold settle. destruct (phase s) as [| |first| | | |] eqn:Hp; try by left.
  case_bool_decide as Hw; [|by left].
  destruct (workers s !! w) as [[| | | |err]|]; try by left.
  - destruct (all_resolved first s); [|by left].
    right. exists first. split; [done|]. split; [done|].
    destruct (after_workers_phase (workers_ok s) s Hc) as [(? & ? & _) | [? _]]; auto.
  - right. exists first. split; [done|]. split; [done|].
    destruct (after_workers_phase false s Hc) as [(? & ? & _) | [? _]]; auto.
Qed.

(** The end of a worker by an error that is not a cancellation. *)
Lemma worker_throw_fields w err s :
  is_cancel err = false → (w < length (workers s))%nat →
  let s' := worker_throw c w err s in
  uploadError s' = Some err ∧
  workers s' = <[w := WRejected err]> (workers s) ∧
  workers s' !! w = Some (WRejected err) ∧
  queue s' = queue s ∧ cancelled s' = cancelled s ∧
  partProgress s' = partProgress s ∧ toastPercent s' = toastPercent s ∧
  uploadedParts s' ≡ₚ uploadedParts s.
Proof.
  intros Herr Hw. unfold worker_throw. rewrite Herr.
  set (s2 := set_worker _ _ _).
  destruct (coordinated_settle w s2) as (Hc & Hpp & Htp & Hq & He & Hws & Hup).
  simpl. rewrite Hc, Hpp, Htp, Hq, He, Hws, Hup. simpl.
  repeat split; try done. by apply list_lookup_insert_eq.
Qed.

(** A failure that cannot be retried: the error is recorded, the worker
    ends, and the coordinator goes to the alert or to the completion, or
    stays where it is when it does not await this worker. *)
Lemma attempt_failed_exhausted w p r err s :
  cancelled s = false → is_cancel err = false → js_lt (Num 0) r = false →
  (w < length (workers s))%nat →
  let s' := attempt_failed c w p r err s in
  uploadError s' = Some err ∧
  workers s' !! w = Some (WRejected err) ∧
  queue s' = queue s ∧
  (phase s' = phase s ∨ (∃ failed, phase s' = PAlert failed) ∨ phase s' = PComplete).
Proof.
  intros Hc Herr Hr Hw. unfold attempt_failed, retry_catch. rewrite Hc, Herr, Hr. simpl.
  destruct (worker_throw_fields w err s Herr Hw) as (He & _ & Hws & Hq & _).
  repeat split; try done.
  unfold worker_throw. rewrite Herr.
  set (s2 := set_worker _ _ _).
  destruct (settle_phase w s2 Hc) as [Hp | (first & _ & _ & [[Hp _] | Hp])]; eauto.
Qed.

(** A failure that is retried: the counter of the part is reset and shown
    before the timer is set. *)
Lemma attempt_failed_retry w p r err s ms r' :
  retry_catch (maxRetries c) r (cancelled s) err = RetryAfter ms r' →
  attempt_failed c w p r err s
  = set_worker w (WBackoff p r')
      (emit (ActDelay (partNumber p) ms) (updateTotalProgress c (set_progress p 0 s))).
Proof. intros Hcatch. unfold attempt_failed. by rewrite Hcatch. Qed.

Lemma attempt_failed_queue w p r err s :
  queue (attempt_failed c w p r err s) = queue s ∧
  (uploadError s ≠ None → uploadError (attempt_failed c w p r err s) ≠ None).
Proof.
  unfold attempt_failed. destruct (retry_catch _ _ _ _); [|done].
  unfold worker_throw. set (s2 := set_worker _ _ _).
  destruct (coordinated_settle w s2) as (_ & _ & _ & Hq & He & _).
  rewrite Hq, He. unfold s2. by case_match.
Qed.

Lemma uploadPart_start_queue w p r s :
  queue (uploadPart_start c w p r s) = queue s ∧
  (uploadError s ≠ None → uploadError (uploadPart_start c w p r s) ≠ None).
Proof. unfold uploadPart_start. case_match; [apply attempt_failed_queue | done]. Qed.

Lemma writeChunk_queue w p r u n s :
  queue (writeChunk c w p r u n s) = queue s ∧
  (uploadError s ≠ None → uploadError (writeChunk c w p r u n s) ≠ None).
Proof.
  unfold writeChunk. case_match; [apply attempt_failed_queue|]. by case_match.
Qed.

(** With an error recorded the loop of a worker ends without a shift. *)
Lemma worker_loop_stopped w s :
  uploadError s ≠ None → worker_loop c w s = set_worker w WResolved s.
Proof.
  intros He. unfold worker_loop. destruct (queue s); [done|].
  case_bool_decide; [done|]. by rewrite andb_false_r.
Qed.

Lemma part_uploaded_stopped w p tag s :
  uploadError s ≠ None → (w < length (workers s))%nat →
  let s' := part_uploaded c w p tag s in
  queue s' = queue s ∧ uploadError s' = uploadError s ∧
  workers s' !! w = Some WResolved ∧
  uploadedParts s' ≡ₚ uploadedParts s ++ [{| part := partNumber p; etag := tag |}].
Proof.
  intros He Hw. unfold part_uploaded.
  rewrite worker_loop_stopped by done.
  set (s2 := set_worker _ _ _).
  destruct (coordinated_settle w s2) as (_ & _ & _ & Hq & Hue & Hws & Hup).
  simpl. rewrite Hq, Hue, Hws, Hup. simpl. repeat split; try done.
  by apply list_lookup_insert_eq.
Qed.

End Engine.

(** * The failure of a part *)

(** C5, as the claim states it, fails. Three parts, two workers, no retry:
    worker 0 fails on part 1 and records the error; worker 1 then
    completes part 2, adds its result and returns, for [uploadError] is
    set: part 3 stays in the queue, and no URL was ever asked for it. *)
Lemma other_workers_stop_after_failure :
  ∃ s, upload prefs_two_workers (15 * MiB)
         [EvInitiated None; EvPresigned 0 0; EvPresigned 1 100;
          EvResponse 0 (Some 500) ""; EvResponse 1 (Some 200) "b"] = Some s ∧
       uploadError s = Some "Part 1 upload failed with status 500" ∧
       workers s = [WRejected "Part 1 upload failed with status 500"; WResolved] ∧
       uploadedParts s = [{| part := 2; etag := "b" |}] ∧
       queue s = [{| partNumber := 3; start := 10 * MiB; end_ := 15 * MiB |}] ∧
       ¬ In (ActPresign 3) (trace s).
Proof.
  eexists. split; [vm_compute; reflexivity|]. repeat split.
  simpl. intros H. repeat destruct H as [H | H]; done.
Qed.

Lemma attempt_failed_stopped c w p r err s :
  uploadError s ≠ None →
  queue (attempt_failed c w p r err s) = queue s ∧
  uploadError (attempt_failed c w p r err s) ≠ None.
Proof. intros He. destruct (attempt_failed_queue c w p r err s). auto. Qed.

Lemma writeChunk_stopped c w p r u n s :
  uploadError s ≠ None →
  queue (writeChunk c w p r u n s) = queue s ∧
  uploadError (writeChunk c w p r u n s) ≠ None.
Proof. intros He. destruct (writeChunk_queue c w p r u n s). auto. Qed.

Lemma uploadPart_start_stopped c w p r s :
  uploadError s ≠ None →
  queue (uploadPart_start c w p r s) = queue s ∧
  uploadError (uploadPart_start c w p r s) ≠ None.
Proof. intros He. destruct (uploadPart_start_queue c w p r s). auto. Qed.

(** C5, amended: the worker whose part fails for good records the error
    and ends; while an error is recorded no callback of a worker takes a
    part from the queue, and the error stays recorded; another worker whose
    part then completes adds its result and ends as well. *)
Theorem failure_stops_every_worker c ev s s' :
  worker_event ev = true →
  step c ev s = Some s' →
  (∀ w p r err, (w < length (workers s))%nat →
     cancelled s = false → is_cancel err = false → js_lt (Num 0) r = false →
     uploadError (attempt_failed c w p r err s) = Some err ∧
     workers (attempt_failed c w p r err s) !! w = Some (WRejected err) ∧
     queue (attempt_failed c w p r err s) = queue s) ∧
  (uploadError s ≠ None → queue s' = queue s ∧ uploadError s' ≠ None) ∧
  (∀ w statusCode tag p r u,
     uploadError s ≠ None → ev = EvResponse w statusCode tag →
     status_ok statusCode = true → workers s !! w = Some (WRequest p r u true) →
     workers s' !! w = Some WResolved ∧
     uploadedParts s' ≡ₚ uploadedParts s ++ [{| part := partNumber p; etag := tag |}]).
Proof.
  intros Hev Hstep. split; [|split].
  - intros w p r err Hw Hc Herr Hr.
    by destruct (attempt_failed_exhausted c w p r err s Hc Herr Hr Hw) as (? & ? & ? & _).
  - intros He. destruct ev; try done; simpl in Hstep; repeat case_match; simplify_eq;
      first [ apply attempt_failed_stopped; done
            | apply (attempt_failed_stopped c _ _ _ _ (unregister _ s)); done
            | apply writeChunk_stopped; done
            | apply (writeChunk_stopped c _ _ _ _ _ (register _ (emit _ s))); done
            | apply uploadPart_start_stopped; done
            | idtac ].
    match goal with H : workers s !! ?w = Some _ |- _ => apply lookup_lt_Some in H as Hw end.
    match goal with |- context [part_uploaded c ?w ?p ?tag (unregister ?w s)] =>
      destruct (part_uploaded_stopped c w p tag (unregister w s) He Hw) as (-> & -> & _) end.
    done.
  - intros w statusCode tag p r u He -> Hok Hw. simpl in Hstep. rewrite Hw, Hok in Hstep.
    simplify_eq.
    assert (w < length (workers s))%nat as Hlt by (by eapply lookup_lt_Some).
    by destruct (part_uploaded_stopped c w p tag (unregister w s) He Hlt) as (_ & _ & ? & ?).
Qed.

Lemma failure_stops_every_worker_witness :
  ∃ s s',
    upload prefs_two_workers (15 * MiB)
      [EvInitiated None; EvPresigned 0 0; EvPresigned 1 100; EvResponse 0 (Some 500) ""]
    = Some s ∧
    step (session_of prefs_two_workers (15 * MiB)) (EvResponse 1 (Some 200) "b") s = Some s' ∧
    queue s' = queue s ∧ queue s ≠ [].
Proof.
  eexists. eexists. split; [vm_compute; reflexivity|]. split; [vm_compute; reflexivity|].
  split; [|done].
  eapply (failure_stops_every_worker (session_of prefs_two_workers (15 * MiB))
            (EvResponse 1 (Some 200) "b")); [reflexivity | vm_compute; reflexivity | done].
Defined.



(** * The progress counters *)

Lemma write_loop_done n len u : len ≤ u → write_loop n len u = u.
Proof.
  intros H. destruct n; simpl; destruct (u <? len) eqn:H'; try done; apply Z.ltb_lt in H'; lia.
Qed.

Lemma write_loop_bounds n len u :
  0 ≤ u → u < len → u < write_loop n len u ≤ len.
Proof.
  revert u. induction n as [|n IH]; intros u Hu Hlt; simpl.
  - destruct (u <? len) eqn:H; [|apply Z.ltb_ge in H; lia]. unfold chunkSize. lia.
  - destruct (u <? len) eqn:H; [|apply Z.ltb_ge in H; lia].
    destruct (decide (Z.min (u + chunkSize) len < len)) as [Hlt' | Hge].
    + unfold chunkSize in *. specialize (IH (Z.min (u + 64 * 1024) len)). lia.
    + rewrite write_loop_done by lia. unfold chunkSize in *. lia.
Qed.

Lemma foldl_add_acc a l : foldl Z.add a l = a + foldl Z.add 0 l.
Proof.
  revert a. induction l as [|x l IH]; intros a; simpl; [lia|].
  rewrite (IH (a + x)), (IH (0 + x)). lia.
Qed.

Lemma totalUploaded_cons v l : totalUploaded_of (v :: l) = v + totalUploaded_of l.
Proof. unfold totalUploaded_of. simpl. rewrite foldl_add_acc. lia. Qed.

Lemma totalUploaded_bounds l ps :
  Forall2 within_part l ps → 0 ≤ totalUploaded_of l ≤ total_len ps.
Proof.
  induction 1 as [|v p l ps Hv _ IH]; [done|].
  rewrite totalUploaded_cons. unfold within_part in Hv. simpl. lia.
Qed.

Lemma total_len_parts_loop n i ps size :
  0 < ps → (i + Z.of_nat n) * ps < size →
  total_len (parts_loop (S n) i ps size) = Z.min ((i + Z.of_nat n + 1) * ps) size - i * ps.
Proof.
  intros Hps. revert i. induction n as [|n IH]; intros i Hlast.
  - simpl. unfold part_len. simpl. lia.
  - change (parts_loop (S (S n)) i ps size)
      with ({| partNumber := i + 1; start := i * ps; end_ := Z.min (i * ps + ps) size |}
              :: parts_loop (S n) (i + 1) ps size).
    change (total_len (?p :: ?l)) with (part_len p + total_len l).
    rewrite IH by lia. unfold part_len. simpl. 
    replace (i + 1 + Z.of_nat n + 1) with (i + Z.of_nat (S n) + 1) by lia. nia.
Qed.

Lemma total_len_plan size ps :
  0 < ps → 0 < size → total_len (plan size ps) = size.
Proof.
  intros Hps Hsize. unfold plan.
  pose proof (ceil_div_bounds size ps Hps) as Hn.
  pose proof (ceil_div_pos size ps Hps Hsize) as Hn0.
  fold (totalParts_of size ps) in *.
  destruct (Z.to_nat (totalParts_of size ps)) as [|n] eqn:Hnat; [lia|].
  rewrite total_len_parts_loop; nia.
Qed.

Section Progress.
Context (c : Session) (Hmulti : multipart c).

Lemma parts_slot p :
  p ∈ parts c → parts c !! slot p = Some p ∧ 0 < part_len p.
Proof.
  destruct Hmulti as (ps & Hps & Hpos & Hle). unfold parts. rewrite Hps.
  intros (k & Hk)%list_elem_of_lookup. pose proof Hk as Hk'.
  apply plan_lookup in Hk' as [Hlt ->].
  pose proof (ceil_div_bounds (fileSize c) ps Hpos) as Hn.
  unfold totalParts_of in Hlt.
  unfold slot, part_len. simpl. replace (Z.to_nat (Z.of_nat k + 1 - 1)) with k by lia.
  split; [done | nia].
Qed.

Lemma total_len_parts : total_len (parts c) = fileSize c.
Proof.
  destruct Hmulti as (ps & Hps & Hpos & Hle). unfold parts. rewrite Hps.
  apply total_len_plan; lia.
Qed.

Lemma within_part_insert l p v :
  Forall2 within_part l (parts c) → p ∈ parts c → within_part v p →
  Forall2 within_part (<[slot p := v]> l) (parts c).
Proof.
  intros Hl Hp Hv. destruct (parts_slot p Hp) as [Hslot _].
  rewrite <- (list_insert_id (parts c) (slot p) p Hslot). by apply Forall2_insert.
Qed.

Lemma progress_inv_fields s s' :
  queue s' = queue s → workers s' = workers s →
  partProgress s' = partProgress s → toastPercent s' = toastPercent s →
  (∀ failed, phase s' = PAlert failed →
             phase s = PAlert failed ∨ Forall (λ p, p ∈ parts c) failed) →
  progress_inv c s → progress_inv c s'.
Proof.
  intros Hq Hw Hpp Htp Hph (H1 & H2 & H3 & H4 & H5).
  unfold progress_inv. rewrite Hq, Hw, Hpp, Htp. repeat split; try done.
  intros failed [Hf | Hf]%Hph; auto.
Qed.

Lemma progress_inv_same s s' :
  queue s' = queue s → workers s' = workers s →
  partProgress s' = partProgress s → toastPercent s' = toastPercent s →
  phase s' = phase s →
  progress_inv c s → progress_inv c s'.
Proof.
  intros Hq Hw Hpp Htp Hph. apply progress_inv_fields; try done.
  intros failed. rewrite Hph. auto.
Qed.

Lemma progress_inv_set_worker w st s :
  worker_ok c st → progress_inv c s → progress_inv c (set_worker w st s).
Proof.
  intros Hst (H1 & H2 & H3 & H4 & H5). repeat split; try done.
  simpl. by apply Forall_insert.
Qed.

Lemma progress_inv_set_progress p v s :
  p ∈ parts c → within_part v p → progress_inv c s →
  progress_inv c (updateTotalProgress c (set_progress p v s)).
Proof.
  intros Hp Hv (H1 & H2 & H3 & H4 & H5). repeat split; try done.
  simpl. by apply within_part_insert.
Qed.

Lemma progress_inv_finish s : progress_inv c s → progress_inv c (finish s).
Proof.
  apply progress_inv_fields; unfold finish; destruct (cancelled s); simpl; try done.
Qed.

Lemma failedParts_known s : Forall (λ p, p ∈ parts c) (failedParts_of c s).
Proof.
  apply Forall_forall. intros p Hp. unfold failedParts_of in Hp.
  by apply list_elem_of_filter in Hp as [_ ?].
Qed.

Lemma progress_inv_after_workers b s :
  progress_inv c s → progress_inv c (after_workers c b s).
Proof.
  intros H. unfold after_workers. repeat case_match; try by apply progress_inv_finish.
  eapply progress_inv_fields; [..|exact H]; try done.
  simpl. intros failed [= <-]. right. apply failedParts_known.
Qed.

Lemma progress_inv_settle w s : progress_inv c s → progress_inv c (settle c w s).
Proof.
  intros H. unfold settle. repeat case_match; try done; by apply progress_inv_after_workers.
Qed.

Lemma progress_inv_worker_throw w err s :
  progress_inv c s → progress_inv c (worker_throw c w err s).
Proof.
  intros H. unfold worker_throw. apply progress_inv_settle.
  apply progress_inv_set_worker; [done|].
  case_match; [done|]. (eapply progress_inv_same; [..|exact H]; done).
Qed.

Lemma within_part_zero p : p ∈ parts c → within_part 0 p.
Proof. intros Hp. destruct (parts_slot p Hp) as [_ ?]. unfold within_part. lia. Qed.

Lemma progress_inv_attempt_failed w p r err s :
  p ∈ parts c → progress_inv c s → progress_inv c (attempt_failed c w p r err s).
Proof.
  intros Hp H. unfold attempt_failed. case_match; [by apply progress_inv_worker_throw|].
  apply progress_inv_set_worker; [done|].
  eapply progress_inv_same;
    [..|apply (progress_inv_set_progress p 0 s Hp (within_part_zero p Hp) H)]; done.
Qed.

Lemma progress_inv_uploadPart_start w p r s :
  p ∈ parts c → progress_inv c s → progress_inv c (uploadPart_start c w p r s).
Proof.
  intros Hp H. unfold uploadPart_start. case_match; [by apply progress_inv_attempt_failed|].
  apply progress_inv_set_worker; [done|]. (eapply progress_inv_same; [..|exact H]; done).
Qed.

Lemma progress_inv_writeChunk w p r u n s :
  p ∈ parts c → 0 ≤ u → progress_inv c s → progress_inv c (writeChunk c w p r u n s).
Proof.
  intros Hp Hu H. unfold writeChunk. case_match; [by apply progress_inv_attempt_failed|].
  destruct (u <? part_len p) eqn:Hlt.
  - apply Z.ltb_lt in Hlt. pose proof (write_loop_bounds n _ _ Hu Hlt).
    apply progress_inv_set_worker; [split; [done | lia]|].
    apply progress_inv_set_progress; [done | unfold within_part; lia | done].
  - apply Z.ltb_ge in Hlt. rewrite write_loop_done by done.
    by apply progress_inv_set_worker.
Qed.

Lemma progress_inv_worker_loop w s :
  progress_inv c s → progress_inv c (worker_loop c w s).
Proof.
  intros H. unfold worker_loop. destruct (queue s) as [|p rest] eqn:Hq.
  - by apply progress_inv_set_worker.
  - case_match; [|by apply progress_inv_set_worker].
    destruct H as (H1 & H2 & H3 & H4 & H5). rewrite Hq in H1.
    apply Forall_cons in H1 as [Hp Hrest].
    apply progress_inv_set_worker; [done|]. by repeat split.
Qed.

Lemma progress_inv_part_uploaded w p tag s :
  progress_inv c s → progress_inv c (part_uploaded c w p tag s).
Proof.
  intros H. unfold part_uploaded. apply progress_inv_settle, progress_inv_worker_loop.
  (eapply progress_inv_same; [..|exact H]; done).
Qed.

Lemma progress_inv_spawn n s :
  progress_inv c s → progress_inv c (Nat.iter n (spawn_worker c) s).
Proof.
  intros H. induction n as [|n IH]; simpl; [done|].
  unfold spawn_worker at 1. apply progress_inv_worker_loop.
  destruct IH as (H1 & H2 & H3 & H4 & H5). repeat split; try done.
  simpl. apply Forall_app. split; [done|]. by repeat constructor.
Qed.

Lemma progress_inv_runUploadWorkers s :
  progress_inv c s → progress_inv c (runUploadWorkers c s).
Proof.
  intros H. unfold runUploadWorkers.
  set (s1 := Nat.iter _ _ _).
  assert (progress_inv c s1) as H1.
  { apply progress_inv_spawn. (eapply progress_inv_same; [..|exact H]; done). }
  case_match; [by apply progress_inv_after_workers|].
  eapply progress_inv_fields; [..|exact H1]; done.
Qed.

Lemma progress_inv_reset failed s :
  Forall (λ p, p ∈ parts c) failed →
  Forall (λ p, p ∈ parts c) (queue s) → Forall (worker_ok c) (workers s) →
  Forall2 within_part (partProgress s) (parts c) →
  Forall (λ p, p ∈ parts c) (queue (reset_progress failed s)) ∧
  Forall (worker_ok c) (workers (reset_progress failed s)) ∧
  Forall2 within_part (partProgress (reset_progress failed s)) (parts c).
Proof.
  intros Hf. revert s. induction Hf as [|p failed Hp _ IH]; intros s Hq Hw Hb; [done|].
  apply (IH (set_progress p 0 s)); simpl; try done.
  apply within_part_insert; [done | done | by apply within_part_zero].
Qed.

Lemma progress_inv_alert_answered failed b s :
  Forall (λ p, p ∈ parts c) failed →
  progress_inv c s → progress_inv c (alert_answered c failed b s).
Proof.
  intros Hf H. unfold alert_answered. destruct b; simpl.
  - apply progress_inv_runUploadWorkers.
    destruct H as (H1 & H2 & H3 & H4 & H5).
    destruct (progress_inv_reset failed (set_queue failed s) Hf Hf H2 H4) as (? & ? & ?).
    repeat split; try done.
    simpl. destruct (reset_progress_fields failed (set_queue failed s)) as (_ & _ & _ & _ & _ & _ & ->).
    simpl. intros failed' Hph. by apply H3.
  - eapply progress_inv_fields; [..|exact H]; done.
Qed.

Lemma worker_ok_lookup s w st :
  progress_inv c s → workers s !! w = Some st → worker_ok c st.
Proof.
  intros (_ & H2 & _) Hw. rewrite Forall_forall in H2. apply H2.
  by eapply list_elem_of_lookup_2.
Qed.

Lemma progress_inv_unregister w s : progress_inv c s → progress_inv c (unregister w s).
Proof. by apply progress_inv_same. Qed.

Lemma step_progress_inv ev s s' :
  progress_inv c s → step c ev s = Some s' → progress_inv c s'.
Proof.
  intros H Hstep.
  destruct ev; simpl in Hstep; repeat case_match; simplify_eq;
    try match goal with Hw : workers s !! _ = Some _ |- _ =>
          pose proof (worker_ok_lookup _ _ _ H Hw) as Hok; simpl in Hok end;
    first [ by apply progress_inv_attempt_failed
          | by apply progress_inv_attempt_failed; [tauto | apply progress_inv_unregister]
          | by apply progress_inv_uploadPart_start
          | by apply progress_inv_part_uploaded, progress_inv_unregister
          | by (eapply progress_inv_fields; [..|exact H]; done)
          | idtac ].
  - destruct H as (H1 & H2 & H3 & H4 & H5). repeat split; try done.
    simpl. apply Forall_lookup. intros w st. rewrite destroy_registered_lookup.
    destruct (workers s !! w) as [st0|] eqn:Hw; simpl; [|done]. intros [= <-].
    rewrite Forall_lookup in H2. specialize (H2 w st0 Hw).
    case_bool_decide; [by destruct st0 | done].
  - apply progress_inv_runUploadWorkers.
    destruct H as (H1 & H2 & H3 & H4 & H5). repeat split; try done.
    simpl. by apply Forall_forall.
  - apply progress_inv_writeChunk; [done | done |]. (eapply progress_inv_same; [..|exact H]; done).
  - destruct Hok. by apply progress_inv_writeChunk.
  - apply progress_inv_alert_answered; [|done].
    destruct H as (_ & _ & H3 & _). by apply H3.
Qed.

End Progress.

(** * The doubles of the percentage *)

Section Doubles.
Local Open Scope Q_scope.

Lemma pow2_pos e : 0 < 2 ^ e.
Proof. by apply Qpower_0_lt. Qed.

Lemma pow2_plus a b : 2 ^ (a + b) == 2 ^ a * 2 ^ b.
Proof. by apply Qpower_plus. Qed.

Lemma pow2_le a b : (a ≤ b)%Z → 2 ^ a <= 2 ^ b.
Proof. intros H. by apply Qpower_le_compat_l. Qed.

Lemma pow2_lt a b : (a < b)%Z → 2 ^ a < 2 ^ b.
Proof. intros H. by apply Qpower_lt_compat_l. Qed.

Lemma pow2_lt_inv a b : 2 ^ a < 2 ^ b → (a < b)%Z.
Proof. intros H. by apply (Qpower_lt_compat_l_inv 2). Qed.

Lemma pow2_cancel a : 2 ^ a * 2 ^ (- a) == 1.
Proof. rewrite <- pow2_plus. by rewrite Z.add_opp_diag_r. Qed.

Lemma pow2_inject n : (0 ≤ n)%Z → inject_Z (2 ^ n) == 2 ^ n.
Proof. intros H. by rewrite Zpower_Qpower. Qed.

Lemma ilog2_spec q : 0 < q → 2 ^ ilog2 q <= q ∧ q < 2 ^ (ilog2 q + 1).
Proof.
  intros Hq. unfold ilog2.
  set (a := Z.log2 (Qnum q)). set (b := Z.log2 (Z.pos (Qden q))). set (k := (a - b)%Z).
  assert (0 < Qnum q)%Z as Hn by (destruct q as [n d]; unfold Qlt in Hq; simpl in *; lia).
  destruct (Z.log2_spec (Qnum q) Hn) as [Ha1 Ha2]. fold a in Ha1, Ha2.
  destruct (Z.log2_spec (Z.pos (Qden q)) ltac:(lia)) as [Hb1 Hb2]. fold b in Hb1, Hb2.
  assert (0 ≤ a)%Z as Ha0 by apply Z.log2_nonneg.
  assert (0 ≤ b)%Z as Hb0 by apply Z.log2_nonneg.
  assert (q * inject_Z (Z.pos (Qden q)) == inject_Z (Qnum q)) as Hqd.
  { destruct q as [n d]. simpl. rewrite (Qmake_Qdiv n d). field.
    intros H. by apply (Qeq_alt _ _) in H. }
  assert (2 ^ a <= inject_Z (Qnum q) ∧ inject_Z (Qnum q) < 2 * 2 ^ a) as [HA1 HA2].
  { rewrite <- pow2_inject by done. split.
    - by rewrite <- Zle_Qle.
    - change 2 with (inject_Z 2) at 1. rewrite <- inject_Z_mult, <- Zlt_Qlt.
      rewrite Z.pow_succ_r in Ha2 by done. lia. }
  assert (2 ^ b <= inject_Z (Z.pos (Qden q)) ∧ inject_Z (Z.pos (Qden q)) < 2 * 2 ^ b)
    as [HB1 HB2].
  { rewrite <- pow2_inject by done. split.
    - by rewrite <- Zle_Qle.
    - change 2 with (inject_Z 2) at 1. rewrite <- inject_Z_mult, <- Zlt_Qlt.
      rewrite Z.pow_succ_r in Hb2 by done. lia. }
  assert (2 ^ k * 2 ^ b == 2 ^ a) as Hk.
  { rewrite <- pow2_plus. unfold k. by replace (a - b + b)%Z with a by lia. }
  assert (2 ^ (k + 1) == 2 * 2 ^ k) as Hk1.
  { rewrite pow2_plus. change (2 ^ 1) with 2. ring. }
  assert (2 * 2 ^ (k - 1) == 2 ^ k) as Hk2.
  { change 2 with (2 ^ 1) at 1. rewrite <- pow2_plus. by replace (1 + (k - 1))%Z with k by lia. }
  pose proof (pow2_pos a). pose proof (pow2_pos b). pose proof (pow2_pos k).
  pose proof (pow2_pos (k - 1)).
  set (A := 2 ^ a) in *. set (B := 2 ^ b) in *. set (K := 2 ^ k) in *.
  set (nQ := inject_Z (Qnum q)) in *. set (dQ := inject_Z (Z.pos (Qden q))) in *.
  assert (q < 2 * K) as Hup.
  { apply (Qmult_lt_r _ _ B); [done|]. nra. }
  assert (K < 2 * q) as Hlo.
  { apply (Qmult_lt_r _ _ B); [done|]. nra. }
  destruct (Qlt_le_dec q K) as [Hlt | Hge].
  - replace (k - 1 + 1)%Z with k by lia. fold K. split; [|done].
    set (K' := 2 ^ (k - 1)) in *. nra.
  - rewrite Hk1. fold K. done.
Qed.

Lemma ilog2_unique q k : 0 < q → 2 ^ k <= q → q < 2 ^ (k + 1) → ilog2 q = k.
Proof.
  intros Hq Hlo Hup. destruct (ilog2_spec q Hq) as [Hlo' Hup'].
  assert (ilog2 q < k + 1)%Z by (apply pow2_lt_inv; lra).
  assert (k < ilog2 q + 1)%Z by (apply pow2_lt_inv; lra).
  lia.
Qed.

Lemma ilog2_mono x y : 0 < x → x <= y → (ilog2 x ≤ ilog2 y)%Z.
Proof.
  intros Hx Hxy. destruct (ilog2_spec x Hx) as [Hlo _].
  destruct (ilog2_spec y ltac:(lra)) as [_ Hup].
  assert (ilog2 x < ilog2 y + 1)%Z by (apply pow2_lt_inv; lra). lia.
Qed.

Lemma ilog2_comp x y : 0 < x → x == y → ilog2 x = ilog2 y.
Proof.
  intros Hx Hxy. destruct (ilog2_spec x Hx) as [Hlo Hup].
  symmetry. apply ilog2_unique; lra.
Qed.

(** The integer nearest to a rational *)

Lemma nearest_even_bounds x :
  inject_Z (nearest_even x) - (1 # 2) <= x ∧ x <= inject_Z (nearest_even x) + (1 # 2).
Proof.
  unfold nearest_even. pose proof (Qfloor_le x) as Hlo. pose proof (Qlt_floor x) as Hup.
  rewrite inject_Z_plus in Hup. change (inject_Z 1) with 1 in Hup.
  destruct (Qcompare_spec (x - inject_Z (Qfloor x)) (1 # 2)) as [He | Hl | Hg].
  - destruct (Z.even (Qfloor x)); rewrite ?inject_Z_plus; change (inject_Z 1) with 1; lra.
  - lra.
  - rewrite inject_Z_plus. change (inject_Z 1) with 1. lra.
Qed.

Lemma nearest_even_comp x y : x == y → nearest_even x = nearest_even y.
Proof.
  intros Hxy. unfold nearest_even. rewrite (Qfloor_comp x y Hxy).
  assert ((x - inject_Z (Qfloor y) ?= 1 # 2) = (y - inject_Z (Qfloor y) ?= 1 # 2)) as ->
    by (by rewrite Hxy).
  done.
Qed.

Lemma nearest_even_mono x y : x <= y → (nearest_even x ≤ nearest_even y)%Z.
Proof.
  intros Hxy. destruct (nearest_even_bounds x) as [Hx _].
  destruct (nearest_even_bounds y) as [_ Hy].
  destruct (Z.le_gt_cases (nearest_even x) (nearest_even y)) as [|Hgt]; [done|].
  assert (nearest_even y + 1 ≤ nearest_even x)%Z as Hz by lia.
  rewrite Zle_Qle, inject_Z_plus in Hz. change (inject_Z 1) with 1 in Hz.
  assert (x == y) as Heq by lra.
  rewrite (nearest_even_comp x y Heq) in Hgt. lia.
Qed.

Lemma nearest_even_Z z : nearest_even (inject_Z z) = z.
Proof.
  unfold nearest_even. rewrite Qfloor_Z.
  destruct (Qcompare_spec (inject_Z z - inject_Z z) (1 # 2)); [lra | done | lra].
Qed.

(** The double nearest to a positive rational *)

Lemma scaled_below q :
  0 < q → q * 2 ^ (- Z.max (ilog2 q - 52) (-1074)) < 2 ^ 53.
Proof.
  intros Hq. destruct (ilog2_spec q Hq) as [_ Hup].
  set (e := Z.max (ilog2 q - 52) (-1074)).
  assert (2 ^ (ilog2 q + 1) <= 2 ^ (e + 53)) as Hle by (apply pow2_le; lia).
  rewrite (pow2_plus e 53) in Hle.
  pose proof (pow2_cancel e) as Hc. pose proof (pow2_pos e). pose proof (pow2_pos (- e)).
  set (E := 2 ^ e) in *. set (E' := 2 ^ (- e)) in *. set (P := 2 ^ 53) in *.
  assert (q < E * P) as Hlt by (by apply Qlt_le_trans with (2 ^ (ilog2 q + 1))).
  clearbody E E' P. apply (Qmult_lt_r _ _ E); [done|].
  assert (q * E' * E == q * (E * E')) as -> by ring. rewrite Hc. lra.
Qed.

Lemma scaled_above q :
  0 < q → (-1022 ≤ ilog2 q)%Z → 2 ^ 52 <= q * 2 ^ (- (ilog2 q - 52)).
Proof.
  intros Hq Hn. destruct (ilog2_spec q Hq) as [Hlo _].
  set (e := (ilog2 q - 52)%Z).
  assert (2 ^ ilog2 q == 2 ^ e * 2 ^ 52) as Hle.
  { rewrite <- pow2_plus. unfold e. by replace (ilog2 q - 52 + 52)%Z with (ilog2 q) by lia. }
  pose proof (pow2_cancel e) as Hc. pose proof (pow2_pos e). pose proof (pow2_pos (- e)).
  set (E := 2 ^ e) in *. set (E' := 2 ^ (- e)) in *. set (P := 2 ^ 52) in *.
  apply (Qmult_le_r _ _ E); [done|].
  assert (q * E' * E == q * (E * E')) as -> by ring. rewrite Hc. lra.
Qed.

Lemma binary64_pos_comp x y : 0 < x → x == y → binary64_pos x == binary64_pos y.
Proof.
  intros Hx Hxy. unfold binary64_pos. rewrite (ilog2_comp x y Hx Hxy).
  set (e := Z.max _ _).
  by rewrite (nearest_even_comp (x * 2 ^ (- e)) (y * 2 ^ (- e))) by (by rewrite Hxy).
Qed.

Lemma binary64_pos_mono x y : 0 < x → x <= y → binary64_pos x <= binary64_pos y.
Proof.
  intros Hx Hxy. assert (0 < y) as Hy by lra. unfold binary64_pos.
  pose proof (ilog2_mono x y Hx Hxy) as Hlog.
  set (ex := Z.max (ilog2 x - 52) (-1074)). set (ey := Z.max (ilog2 y - 52) (-1074)).
  destruct (Z.eq_dec ex ey) as [Heq | Hne].
  - rewrite <- Heq. pose proof (pow2_pos ex). pose proof (pow2_pos (- ex)).
    apply Qmult_le_compat_r; [|lra]. rewrite <- Zle_Qle.
    apply nearest_even_mono. apply Qmult_le_compat_r; lra.
  - assert (ex < ey)%Z as Hlt by lia.
    assert (ey = ilog2 y - 52)%Z as Hey by lia.
    assert (-1022 ≤ ilog2 y)%Z as Hnorm by lia.
    pose proof (scaled_below x Hx) as Hbx. fold ex in Hbx.
    pose proof (scaled_above y Hy Hnorm) as Hay. rewrite <- Hey in Hay.
    assert (nearest_even (x * 2 ^ (- ex)) ≤ 2 ^ 53)%Z as Hnx.
    { rewrite <- (nearest_even_Z (2 ^ 53)). apply nearest_even_mono.
      rewrite pow2_inject by done. lra. }
    assert (2 ^ 52 ≤ nearest_even (y * 2 ^ (- ey)))%Z as Hny.
    { rewrite <- (nearest_even_Z (2 ^ 52)) at 1. apply nearest_even_mono.
      by rewrite pow2_inject. }
    rewrite Zle_Qle in Hnx, Hny. rewrite pow2_inject in Hnx, Hny by done.
    assert (2 ^ (ex + 53) <= 2 ^ (ey + 52)) as Hpow by (apply pow2_le; lia).
    rewrite !pow2_plus in Hpow.
    pose proof (pow2_pos ex). pose proof (pow2_pos ey).
    set (X := inject_Z (nearest_even _)) in *. clearbody X.
    set (Y := inject_Z (nearest_even _)) in *. clearbody Y.
    set (A := 2 ^ ex) in *. set (B := 2 ^ ey) in *.
    set (P := 2 ^ 53) in *. set (R := 2 ^ 52) in *.
    apply Qle_trans with (A * P); [nra|]. apply Qle_trans with (B * R); [done | nra].
Qed.

Lemma binary64_pos_nonneg q : 0 < q → 0 <= binary64_pos q.
Proof.
  intros Hq. unfold binary64_pos. set (e := Z.max _ _).
  pose proof (pow2_pos e). pose proof (pow2_pos (- e)).
  apply Qmult_le_0_compat; [|lra].
  change 0 with (inject_Z 0). rewrite <- Zle_Qle.
  rewrite <- (nearest_even_Z 0) at 1. apply nearest_even_mono.
  change (inject_Z 0) with 0. apply Qmult_le_0_compat; lra.
Qed.

(** The error of the rounding is half a unit of the last place, a
    fraction of at most 2^-53 of a number in the normal range. *)
Lemma binary64_pos_error q :
  0 < q → (-1022 ≤ ilog2 q)%Z →
  q - q * 2 ^ (-53) <= binary64_pos q ∧ binary64_pos q <= q + q * 2 ^ (-53).
Proof.
  intros Hq Hnorm. unfold binary64_pos.
  replace (Z.max (ilog2 q - 52) (-1074)) with (ilog2 q - 52)%Z by lia.
  pose proof (scaled_above q Hq Hnorm) as Hab. set (e := (ilog2 q - 52)%Z) in *.
  destruct (nearest_even_bounds (q * 2 ^ (- e))) as [Hlo Hup].
  pose proof (pow2_cancel e) as Hc. pose proof (pow2_pos e). pose proof (pow2_pos (- e)).
  assert (2 ^ 52 * 2 ^ (-53) == 1 # 2) as Hhalf by reflexivity.
  pose proof (pow2_pos 52). pose proof (pow2_pos (-53)).
  set (N := inject_Z (nearest_even _)) in *. clearbody N.
  set (E := 2 ^ e) in *. set (E' := 2 ^ (- e)) in *.
  set (R := 2 ^ 52) in *. set (D := 2 ^ (-53)) in *.
  assert (q == q * E' * E) as Hqe.
  { assert (q * E' * E == q * (E * E')) as -> by ring. rewrite Hc. ring. }
  assert (E * R <= q) as Hq'.
  { apply Qle_trans with (R * E); [lra|]. apply Qle_trans with (q * E' * E); [|lra].
    apply Qmult_le_compat_r; lra. }
  assert (E * (1 # 2) <= q * D) as Hulp.
  { apply Qle_trans with (E * R * D).
    - assert (E * R * D == E * (R * D)) as -> by ring. rewrite Hhalf. lra.
    - apply Qmult_le_compat_r; lra. }
  assert (N * E - q == (N - q * E') * E) as Hdiff.
  { assert ((N - q * E') * E == N * E - q * E' * E) as -> by ring. lra. }
  assert ((N - q * E') * E <= (1 # 2) * E) as Hd1 by (apply Qmult_le_compat_r; lra).
  assert (- (1 # 2) * E <= (N - q * E') * E) as Hd2 by (apply Qmult_le_compat_r; lra).
  split; lra.
Qed.

Lemma binary64_comp x y : x == y → binary64 x == binary64 y.
Proof.
  intros Hxy. unfold binary64. rewrite <- (Qcompare_comp x y Hxy 0 0 (Qeq_refl 0)).
  destruct (Qcompare_spec x 0) as [H0 | Hlt | Hgt]; [done | |].
  - apply Qopp_comp, binary64_pos_comp; [lra | by rewrite Hxy].
  - by apply binary64_pos_comp.
Qed.

Lemma binary64_nonneg x : 0 <= x → 0 <= binary64 x.
Proof.
  intros Hx. unfold binary64.
  destruct (Qcompare_spec x 0) as [H0 | Hlt | Hgt]; [lra | lra | by apply binary64_pos_nonneg].
Qed.

Lemma binary64_mono x y : 0 <= x → x <= y → binary64 x <= binary64 y.
Proof.
  intros Hx Hxy. unfold binary64 at 1.
  destruct (Qcompare_spec x 0) as [H0 | Hlt | Hgt].
  - apply binary64_nonneg. lra.
  - lra.
  - unfold binary64. destruct (Qcompare_spec y 0) as [H0 | Hlt | Hgt']; [lra | lra |].
    by apply binary64_pos_mono.
Qed.

Lemma binary64_error q :
  0 < q → (-1022 ≤ ilog2 q)%Z →
  q - q * 2 ^ (-53) <= binary64 q ∧ binary64 q <= q + q * 2 ^ (-53).
Proof.
  intros Hq Hnorm. unfold binary64.
  destruct (Qcompare_spec q 0) as [H0 | Hlt | Hgt]; [lra | lra |].
  by apply binary64_pos_error.
Qed.

Lemma ilog2_above q k : 2 ^ k <= q → (k ≤ ilog2 q)%Z.
Proof.
  intros Hk. pose proof (pow2_pos k).
  destruct (ilog2_spec q ltac:(lra)) as [_ Hup].
  assert (k < ilog2 q + 1)%Z by (apply pow2_lt_inv; lra). lia.
Qed.

End Doubles.

(** * The percentage shown *)

Section Percentage.
Local Open Scope Q_scope.

Lemma Qfloor_unique x n : inject_Z n <= x → x < inject_Z n + 1 → Qfloor x = n.
Proof.
  intros Hlo Hup. pose proof (Qfloor_le x) as Hlo'. pose proof (Qlt_floor x) as Hup'.
  rewrite inject_Z_plus in Hup'. change (inject_Z 1) with 1 in Hup'.
  assert (Qfloor x < n + 1)%Z.
  { rewrite Zlt_Qlt, inject_Z_plus. change (inject_Z 1) with 1. lra. }
  assert (n < Qfloor x + 1)%Z.
  { rewrite Zlt_Qlt, inject_Z_plus. change (inject_Z 1) with 1. lra. }
  lia.
Qed.

Lemma Math_round_mono x y : x <= y → (Math_round x ≤ Math_round y)%Z.
Proof. intros H. apply Qfloor_resp_le. lra. Qed.

Lemma percentage_of_zero T : percentage_of 0 T = 0%Z.
Proof.
  unfold percentage_of, js_prod, js_quot.
  assert (inject_Z 0 / inject_Z T == 0) as H0.
  { change (inject_Z 0) with 0. unfold Qdiv. ring. }
  assert (binary64 (inject_Z 0 / inject_Z T) * inject_Z 100 == 0) as H1.
  { rewrite (binary64_comp _ _ H0). reflexivity. }
  assert (binary64 (binary64 (inject_Z 0 / inject_Z T) * inject_Z 100) + (1 # 2) == 1 # 2)
    as H2.
  { rewrite (binary64_comp _ _ H1). reflexivity. }
  unfold Math_round. by rewrite (Qfloor_comp _ _ H2).
Qed.

Lemma percentage_of_mono T t1 t2 :
  (0 < T)%Z → (0 ≤ t1 ≤ t2)%Z → (percentage_of t1 T ≤ percentage_of t2 T)%Z.
Proof.
  intros HT Ht. unfold percentage_of, js_prod, js_quot.
  assert (0 < inject_Z T) as HTq by (change 0 with (inject_Z 0); by rewrite <- Zlt_Qlt).
  assert (0 <= inject_Z t1) as H1 by (change 0 with (inject_Z 0); rewrite <- Zle_Qle; lia).
  assert (inject_Z t1 <= inject_Z t2) as H2 by (rewrite <- Zle_Qle; lia).
  assert (0 < / inject_Z T) as Hinv by (by apply Qinv_lt_0_compat).
  assert (0 <= inject_Z t1 / inject_Z T) as Hq1 by (apply Qmult_le_0_compat; lra).
  assert (inject_Z t1 / inject_Z T <= inject_Z t2 / inject_Z T) as Hq12
    by (apply Qmult_le_compat_r; lra).
  pose proof (binary64_nonneg _ Hq1) as Hb1.
  pose proof (binary64_mono _ _ Hq1 Hq12) as Hb12.
  apply Math_round_mono, binary64_mono.
  - apply Qmult_le_0_compat; [done|]. by change 0 with (inject_Z 0).
  - apply Qmult_le_compat_r; [done|]. by change 0 with (inject_Z 0).
Qed.

Lemma percentage_full T : (0 < T)%Z → percentage_of T T = 100%Z.
Proof.
  intros HT. unfold percentage_of, js_prod, js_quot.
  assert (inject_Z T / inject_Z T == 1) as H1.
  { field. intros H. change 0 with (inject_Z 0) in H. rewrite inject_Z_injective in H. lia. }
  assert (binary64 (binary64 (inject_Z T / inject_Z T) * inject_Z 100) + (1 # 2)
          == binary64 (binary64 1 * inject_Z 100) + (1 # 2)) as H2.
  { apply Qplus_comp; [|done]. apply binary64_comp. apply Qmult_comp; [|done].
    by apply binary64_comp. }
  unfold Math_round. rewrite (Qfloor_comp _ _ H2). by vm_compute.
Qed.

Lemma percentage_bounds t T : (0 < T)%Z → (0 ≤ t ≤ T)%Z → (0 ≤ percentage_of t T ≤ 100)%Z.
Proof.
  intros HT Ht. split.
  - rewrite <- (percentage_of_zero T). apply percentage_of_mono; lia.
  - rewrite <- (percentage_full T HT). apply percentage_of_mono; lia.
Qed.

Lemma percentage_over t T : (0 < T)%Z → (T ≤ t)%Z → (100 ≤ percentage_of t T)%Z.
Proof.
  intros HT Ht. rewrite <- (percentage_full T HT). apply percentage_of_mono; lia.
Qed.

(** The two roundings move the product by less than half of the spacing of
    the halves of the percents of a file of at most 2^44 bytes. *)
Lemma percentage_of_close t T :
  (0 < T ≤ 2 ^ 44)%Z → (0 < t ≤ T)%Z →
  let y := js_prod (js_quot (inject_Z t) (inject_Z T)) (inject_Z 100) in
  200 * inject_Z t - (4 # 5) <= 2 * (y * inject_Z T) ∧
  2 * (y * inject_Z T) <= 200 * inject_Z t + (4 # 5).
Proof.
  intros HT Ht. unfold js_prod, js_quot. simpl.
  assert (1 <= inject_Z t) as Ht1 by (change 1 with (inject_Z 1); rewrite <- Zle_Qle; lia).
  assert (inject_Z t <= inject_Z T) as HtT by (rewrite <- Zle_Qle; lia).
  assert (inject_Z T <= 17592186044416) as HT44.
  { change 17592186044416 with (inject_Z (2 ^ 44)). rewrite <- Zle_Qle. lia. }
  set (tQ := inject_Z t) in *. set (TQ := inject_Z T) in *.
  assert (0 < TQ) as HT0 by lra.
  set (q0 := tQ / TQ).
  assert (q0 * TQ == tQ) as Hq0 by (unfold q0; field; lra).
  assert (2 ^ (-44) <= q0 ∧ q0 <= 1) as [Hlo0 Hup0].
  { assert (2 ^ (-44) == 1 # 17592186044416) as -> by reflexivity.
    split; (apply (Qmult_le_r _ _ TQ); [done|]); rewrite Hq0; lra. }
  assert (2 ^ (-53) == 1 # 9007199254740992) as HD by reflexivity.
  destruct (binary64_error q0) as [E1 E1'].
  { assert (2 ^ (-44) == 1 # 17592186044416) as HD44 by reflexivity. lra. }
  { apply (Z.le_trans _ (-44)); [lia|]. by apply ilog2_above. }
  rewrite HD in E1, E1'.
  set (q1 := binary64 q0) in *.
  destruct (binary64_error (q1 * inject_Z 100)) as [E2 E2'].
  { change (inject_Z 100) with 100.
    assert (2 ^ (-44) == 1 # 17592186044416) as HD44 by reflexivity. lra. }
  { apply (Z.le_trans _ (-44)); [lia|]. apply ilog2_above.
    change (inject_Z 100) with 100.
    assert (2 ^ (-44) == 1 # 17592186044416) as -> by reflexivity. lra. }
  rewrite HD in E2, E2'. change (inject_Z 100) with 100 in *.
  set (y := binary64 (q1 * 100)) in *. clearbody y q1.
  assert (100 * q0 - q0 * (200 # 9007199254740992) <= y) as Hy1 by lra.
  assert (y <= 100 * q0 + q0 * (201 # 9007199254740992)) as Hy2 by lra.
  assert ((100 * q0 - q0 * (200 # 9007199254740992)) * TQ <= y * TQ) as Hm1
    by (apply Qmult_le_compat_r; lra).
  assert (y * TQ <= (100 * q0 + q0 * (201 # 9007199254740992)) * TQ) as Hm2
    by (apply Qmult_le_compat_r; lra).
  assert ((100 * q0 - q0 * (200 # 9007199254740992)) * TQ
          == 100 * tQ - tQ * (200 # 9007199254740992)) as Hr1 by (rewrite <- Hq0; ring).
  assert ((100 * q0 + q0 * (201 # 9007199254740992)) * TQ
          == 100 * tQ + tQ * (201 # 9007199254740992)) as Hr2 by (rewrite <- Hq0; ring).
  rewrite Hr1 in Hm1. rewrite Hr2 in Hm2. clearbody q0.
  split; lra.
Qed.

(** The percentage shown is an integer nearest to [100 * t / T]: the one
    that rounds a half up, or the one below it when [100 * t / T] is a
    half of an odd number. *)
Lemma percentage_of_nearest t T :
  (0 < T ≤ 2 ^ 44)%Z → (0 ≤ t ≤ T)%Z →
  percentage_of t T = ((200 * t + T) / (2 * T))%Z ∨
  ((200 * t + T) mod (2 * T) = 0 ∧ percentage_of t T = (200 * t + T) / (2 * T) - 1)%Z.
Proof.
  intros HT Ht. destruct (Z.eq_dec t 0%Z) as [-> | Hne].
  { left. rewrite percentage_of_zero. rewrite Z.div_small; lia. }
  destruct (percentage_of_close t T HT ltac:(lia)) as [Hlo Hup]. simpl in Hlo, Hup.
  unfold percentage_of, Math_round.
  set (y := js_prod _ _) in *. clearbody y.
  set (n := ((200 * t + T) / (2 * T))%Z). set (r := ((200 * t + T) mod (2 * T))%Z).
  assert (200 * t + T = 2 * T * n + r)%Z as Hdiv by (apply Z.div_mod; lia).
  assert (0 ≤ r < 2 * T)%Z as Hr by (apply Z.mod_pos_bound; lia).
  assert (200 * inject_Z t + inject_Z T == 2 * (inject_Z n * inject_Z T) + inject_Z r) as HdivQ.
  { change 200 with (inject_Z 200). change 2 with (inject_Z 2).
    rewrite <- !inject_Z_mult, <- !inject_Z_plus. apply inject_Z_injective. lia. }
  assert (1 <= inject_Z T) as HT1 by (change 1 with (inject_Z 1); rewrite <- Zle_Qle; lia).
  assert (0 <= inject_Z r) as Hr0 by (change 0 with (inject_Z 0); rewrite <- Zle_Qle; lia).
  assert (inject_Z r + 1 <= 2 * inject_Z T) as Hr1.
  { change 1 with (inject_Z 1). change 2 with (inject_Z 2).
    rewrite <- inject_Z_mult, <- inject_Z_plus, <- Zle_Qle. lia. }
  set (TQ := inject_Z T) in *.
  assert (y + (1 # 2) < inject_Z n + 1) as Hbelow.
  { apply (Qmult_lt_r _ _ (2 * TQ)); [lra|].
    assert ((y + (1 # 2)) * (2 * TQ) == 2 * (y * TQ) + TQ) as -> by ring.
    assert ((inject_Z n + 1) * (2 * TQ) == 2 * (inject_Z n * TQ) + 2 * TQ) as -> by ring.
    lra. }
  destruct (Z.eq_dec r 0%Z) as [Hr00 | Hrne].
  - assert (inject_Z n - 1 <= y + (1 # 2)) as Habove.
    { apply (Qmult_le_r _ _ (2 * TQ)); [lra|].
      assert ((y + (1 # 2)) * (2 * TQ) == 2 * (y * TQ) + TQ) as -> by ring.
      assert ((inject_Z n - 1) * (2 * TQ) == 2 * (inject_Z n * TQ) - 2 * TQ) as -> by ring.
      lra. }
    destruct (Qlt_le_dec (y + (1 # 2)) (inject_Z n)) as [Hlt | Hge].
    + right. split; [done|].
      assert (inject_Z (n - 1) == inject_Z n - 1) as Hn1.
      { unfold Z.sub. rewrite inject_Z_plus. reflexivity. }
      apply Qfloor_unique; rewrite Hn1; lra.
    + left. by apply Qfloor_unique.
  - left. apply Qfloor_unique; [|done].
    assert (1 <= inject_Z r) as Hr2 by (change 1 with (inject_Z 1); rewrite <- Zle_Qle; lia).
    apply (Qmult_le_r _ _ (2 * TQ)); [lra|].
    assert ((y + (1 # 2)) * (2 * TQ) == 2 * (y * TQ) + TQ) as -> by ring.
    assert (inject_Z n * (2 * TQ) == 2 * (inject_Z n * TQ)) as -> by ring.
    lra.
Qed.

End Percentage.

(** [round(100 × transferred / total)] in integers. *)
Lemma round_percent_div t T :
  0 < T → round_percent t T = (200 * t + T) / (2 * T).
Proof.
  intros HT. unfold round_percent, Math_round. rewrite Zdiv_Qdiv.
  apply Qfloor_comp.
  rewrite !inject_Z_plus, !inject_Z_mult.
  assert (¬ (inject_Z T == 0)%Q) as HT0.
  { unfold Qeq. simpl. lia. }
  change (inject_Z 100) with 100%Q. change (inject_Z 200) with 200%Q.
  change (inject_Z 2) with 2%Q. field. done.
Qed.

(** Past 2^45 bytes the rounding of the quotient can carry the percentage
    over a half that the exact value does not sit on: the bound on the
    size in [percentage_of_nearest] cannot be dropped. *)
Lemma percentage_of_large_file :
  percentage_of 31489500027964 39609433997439 = 80 ∧
  round_percent 31489500027964 39609433997439 = 79 ∧
  (200 * 31489500027964 + 39609433997439) mod (2 * 39609433997439) ≠ 0.
Proof. split; [|split]; vm_compute; [reflexivity | reflexivity | discriminate]. Qed.

Lemma totalUploaded_replicate n : totalUploaded_of (replicate n 0) = 0.
Proof. induction n as [|n IH]; [done|]. simpl. by rewrite totalUploaded_cons, IH. Qed.

Lemma partSize_of_pos prefs ps : partSize_of prefs = Num ps → 0 < ps.
Proof.
  unfold partSize_of. destruct (partSizePref prefs) as [n|]; simpl; [|done].
  intros [= <-]. lia.
Qed.

(** The multipart branch starts with every counter at 0 and "0%". *)
Lemma handleSubmit_multipart prefs size :
  phase (handleSubmit prefs size) = PInitiate →
  multipart (session_of prefs size) ∧
  progress_inv (session_of prefs size) (handleSubmit prefs size).
Proof.
  unfold handleSubmit, totalParts.
  change (partSize (session_of prefs size)) with (partSize_of prefs).
  change (fileSize (session_of prefs size)) with size.
  destruct (partSize_of prefs) as [ps|] eqn:Hps; simpl; [|done].
  pose proof (partSize_of_pos _ _ Hps) as Hpos.
  destruct (size <? ps) eqn:Hlt; [done|]. apply Z.ltb_ge in Hlt.
  destruct ((0 <=? ceil_div size ps) && (ceil_div size ps <=? 4294967295)); [|done].
  intros _.
  assert (multipart (session_of prefs size)) as Hmulti.
  { exists ps. split; [done|]. simpl. lia. }
  split; [done|].
  unfold progress_inv. simpl. repeat split; try done.
  - apply Forall2_same_length_lookup_2.
    + rewrite length_replicate. unfold parts. simpl. rewrite Hps.
      unfold plan. by rewrite length_parts_loop.
    + intros i v p [-> _]%lookup_replicate Hp.
      apply list_elem_of_lookup_2 in Hp.
      destruct (parts_slot _ Hmulti p Hp) as [_ ?]. unfold within_part. lia.
  - by rewrite totalUploaded_replicate, percentage_of_zero.
Qed.

Lemma reachable_progress_inv prefs size s :
  phase (handleSubmit prefs size) = PInitiate →
  reachable prefs size s →
  progress_inv (session_of prefs size) s.
Proof.
  intros [Hmulti Hinit]%handleSubmit_multipart [evs Hrun].
  eapply run_invariant; [|exact Hinit | exact Hrun].
  intros ev s1 s2. by apply step_progress_inv.
Qed.

(** C10, as the claim states it, fails.  A file of 13107200 bytes, 200
    chunks of 64 KiB.  With 29 chunks written the quotient is 14.5 percent
    and [round] gives 15; the double [(1900544 / 13107200) * 100] is
    14.499999999999998 and 14 is shown.  With 115 chunks written the
    quotient is 57.5 percent and 57 is shown. *)
Lemma percentage_rounds_a_double :
  ∃ s1 s2,
    upload prefs_default 13107200 [EvInitiated None; EvPresigned 0 28] = Some s1 ∧
    totalUploaded_of (partProgress s1) = 1900544 ∧
    toastPercent s1 = 14 ∧ round_percent 1900544 13107200 = 15 ∧
    upload prefs_default 13107200
      [EvInitiated None; EvPresigned 0 100; EvPresigned 1 34] = Some s2 ∧
    totalUploaded_of (partProgress s2) = 7536640 ∧
    toastPercent s2 = 57 ∧ round_percent 7536640 13107200 = 58 ∧
    toastPercent s1
    ≠ clamp 0 100 (round_percent (totalUploaded_of (partProgress s1)) 13107200).
Proof.
  eexists _, _. split; [vm_compute; reflexivity|].
  split; [vm_compute; reflexivity|]. split; [vm_compute; reflexivity|].
  split; [vm_compute; reflexivity|]. split; [vm_compute; reflexivity|].
  split; [vm_compute; reflexivity|]. split; [vm_compute; reflexivity|].
  split; [vm_compute; reflexivity|]. vm_compute. discriminate.
Qed.

(** C10, amended: in every state of the multipart upload of a file of at
    most 2^44 bytes the percentage shown is
    [Math.round((totalUploaded / fileSize) * 100)] of the doubles, where
    [totalUploaded] is the sum of the counters of the parts and no counter
    is below 0 or above the length of its part.  It lies in [0, 100], so
    that the clamp changes nothing, and it is an integer nearest to
    [100 * totalUploaded / fileSize]: the integer [round] gives, which
    rounds a half up, or the one below it when the quotient is half of an
    odd number.  It is 0 when nothing is counted and 100 when the whole
    file is. *)
Theorem progress_percentage_nearest prefs size s :
  phase (handleSubmit prefs size) = PInitiate →
  size ≤ 2 ^ 44 →
  reachable prefs size s →
  let t := totalUploaded_of (partProgress s) in
  Forall2 within_part (partProgress s) (parts (session_of prefs size)) ∧
  0 ≤ t ≤ size ∧
  toastPercent s = percentage_of t size ∧
  0 ≤ toastPercent s ≤ 100 ∧
  clamp 0 100 (round_percent t size) = (200 * t + size) / (2 * size) ∧
  (toastPercent s = (200 * t + size) / (2 * size) ∨
   (200 * t + size) mod (2 * size) = 0 ∧
   toastPercent s = (200 * t + size) / (2 * size) - 1) ∧
  Z.abs (2 * (100 * t - toastPercent s * size)) ≤ size ∧
  (t = 0 → toastPercent s = 0) ∧
  (t = size → toastPercent s = 100).
Proof.
  intros Hinit H44 Hreach. simpl.
  destruct (handleSubmit_multipart _ _ Hinit) as [Hmulti _].
  destruct (reachable_progress_inv _ _ _ Hinit Hreach) as (_ & _ & _ & Hb & Ht).
  pose proof (totalUploaded_bounds _ _ Hb) as Hsum.
  rewrite (total_len_parts _ Hmulti) in Hsum. simpl in Hsum, Ht.
  assert (0 < size) as Hsize.
  { destruct Hmulti as (ps & _ & ? & ?). simpl in *. lia. }
  set (t := totalUploaded_of (partProgress s)) in *.
  pose proof (percentage_bounds t size Hsize Hsum) as Hp.
  pose proof (percentage_of_nearest t size ltac:(lia) Hsum) as Hnear.
  rewrite <- Ht in Hp, Hnear.
  assert (2 * size * ((200 * t + size) / (2 * size)) ≤ 200 * t + size
          < 2 * size * ((200 * t + size) / (2 * size)) + 2 * size) as Hdiv.
  { pose proof (Z.div_mod (200 * t + size) (2 * size) ltac:(lia)).
    pose proof (Z.mod_pos_bound (200 * t + size) (2 * size) ltac:(lia)). lia. }
  split; [done|]. split; [done|]. split; [done|]. split; [done|]. split; [|split; [done|]].
  { rewrite round_percent_div by done. unfold clamp.
    assert (0 ≤ (200 * t + size) / (2 * size)) by (apply Z.div_pos; lia).
    assert ((200 * t + size) / (2 * size) < 101) by (apply Z.div_lt_upper_bound; lia).
    lia. }
  split; [|split].
  - destruct Hnear as [-> | [Hmod ->]]; [lia|].
    pose proof (Z.div_mod (200 * t + size) (2 * size) ltac:(lia)). lia.
  - intros H0. rewrite Ht, H0. apply percentage_of_zero.
  - intros Hfull. rewrite Ht, Hfull. by apply percentage_full.
Qed.

Lemma progress_percentage_nearest_witness :
  ∃ s, upload prefs_default 13107200 [EvInitiated None; EvPresigned 0 28] = Some s ∧
       totalUploaded_of (partProgress s) = 1900544 ∧
       toastPercent s = 14 ∧
       (200 * 1900544 + 13107200) mod (2 * 13107200) = 0 ∧
       Z.abs (2 * (100 * totalUploaded_of (partProgress s) - toastPercent s * 13107200))
       ≤ 13107200.
Proof.
  eexists. split; [vm_compute; reflexivity|]. split; [vm_compute; reflexivity|].
  split; [vm_compute; reflexivity|]. split; [reflexivity|].
  eapply (progress_percentage_nearest prefs_default 13107200).
  - reflexivity.
  - lia.
  - exists [EvInitiated None; EvPresigned 0 28]. vm_compute. reflexivity.
Defined.

(** * The reset of the counters before a retry *)

Section Reset.
Context (c : Session).

Lemma worker_loop_progress w s :
  partProgress (worker_loop c w s) = partProgress s ∧
  toastPercent (worker_loop c w s) = toastPercent s.
Proof. unfold worker_loop. by repeat case_match. Qed.

Lemma spawn_progress n s :
  partProgress (Nat.iter n (spawn_worker c) s) = partProgress s ∧
  toastPercent (Nat.iter n (spawn_worker c) s) = toastPercent s.
Proof.
  induction n as [|n [IH1 IH2]]; simpl; [done|].
  unfold spawn_worker at 1 3.
  destruct (worker_loop_progress (length (workers (Nat.iter n (spawn_worker c) s)))
              (set_workers (workers (Nat.iter n (spawn_worker c) s) ++ [WResolved])
                 (Nat.iter n (spawn_worker c) s))) as [-> ->].
  done.
Qed.

Lemma runUploadWorkers_progress s :
  partProgress (runUploadWorkers c s) = partProgress s ∧
  toastPercent (runUploadWorkers c s) = toastPercent s.
Proof.
  unfold runUploadWorkers. set (s1 := Nat.iter _ _ _).
  destruct (spawn_progress (workerCount c (set_uploadError None s)) (set_uploadError None s))
    as [H1 H2]. fold s1 in H1, H2.
  case_match.
  - destruct (coordinated_after_workers c (workers_ok s1) s1) as (_ & -> & -> & _). done.
  - done.
Qed.

Lemma reset_progress_cons p failed s :
  reset_progress (p :: failed) s = reset_progress failed (set_progress p 0 s).
Proof. done. Qed.

Lemma reset_progress_keeps_zero failed s (i : nat) :
  partProgress s !! i = Some 0 → partProgress (reset_progress failed s) !! i = Some 0.
Proof.
  revert s. induction failed as [|p failed IH]; intros s Hi; [done|].
  rewrite reset_progress_cons. apply IH. simpl.
  destruct (decide (slot p = i)) as [<- | Hne].
  - apply list_lookup_insert_eq. by eapply lookup_lt_Some.
  - by rewrite list_lookup_insert_ne.
Qed.

Lemma reset_progress_zero failed s p :
  p ∈ failed → (slot p < length (partProgress s))%nat →
  partProgress (reset_progress failed s) !! slot p = Some 0.
Proof.
  revert s. induction failed as [|q failed IH]; intros s Hp Hlt; [by apply elem_of_nil in Hp|].
  rewrite reset_progress_cons.
  apply elem_of_cons in Hp as [-> | Hp].
  - apply reset_progress_keeps_zero. simpl. by apply list_lookup_insert_eq.
  - apply IH; [done|]. simpl. by rewrite length_insert.
Qed.

Lemma reset_progress_other failed s (i : nat) :
  (∀ p, p ∈ failed → slot p ≠ i) →
  partProgress (reset_progress failed s) !! i = partProgress s !! i.
Proof.
  revert s. induction failed as [|q failed IH]; intros s Hi; [done|].
  rewrite reset_progress_cons, IH.
  - simpl. apply list_lookup_insert_ne, Hi. by left.
  - intros p Hp. apply Hi. by right.
Qed.

End Reset.


(** * Cancellation *)

Section Cancellation.
Context (c : Session).

Lemma finish_cancelled s :
  cancelled s = true → finish s = set_phase (PAbort ByCancel) (emit ActAbort s).
Proof. intros Hc. unfold finish. by rewrite Hc. Qed.

Lemma after_workers_cancelled b s :
  cancelled s = true → after_workers c b s = set_phase (PAbort ByCancel) (emit ActAbort s).
Proof.
  intros Hc. unfold after_workers. rewrite Hc, andb_false_r. by apply finish_cancelled.
Qed.

Lemma attempt_failed_cancelled w p r err s :
  cancelled s = true → attempt_failed c w p r err s = worker_throw c w err s.
Proof. intros Hc. unfold attempt_failed. by rewrite Hc, retry_catch_cancelled. Qed.

(** After the cancellation a worker that is called back ends with an
    error; when it is awaited, the coordinator calls the abort. *)
Lemma worker_throw_cancelling done tr w err s :
  (w < length (workers s))%nat →
  cancelling done tr s → cancelling done tr (worker_throw c w err s).
Proof.
  intros Hw (Hc & Hq & Hu & Hph). unfold worker_throw.
  set (s1 := if is_cancel err then s else set_uploadError (Some err) s).
  assert (cancelled s1 = true ∧ workers s1 = workers s ∧ uploadedParts s1 = done ∧
          phase s1 = phase s ∧ trace s1 = trace s) as (Hc1 & Hw1 & Hu1 & Hp1 & Ht1).
  { unfold s1. by destruct (is_cancel err). }
  set (s2 := set_worker w (WRejected err) s1).
  assert (quiet s2) as Hq2.
  { apply quiet_insert; [done|]. unfold quiet. by rewrite Hw1. }
  assert (workers s2 !! w = Some (WRejected err)) as Hlook.
  { simpl. rewrite Hw1. by apply list_lookup_insert_eq. }
  unfold settle. change (phase s2) with (phase s1). rewrite Hp1.
  destruct Hph as [[[first Hp] Ht] | [[Hp Ht] | [Hp Ht]]]; rewrite Hp.
  - case_bool_decide.
    + rewrite Hlook, after_workers_cancelled by done.
      split; [done|]. split; [done|]. split; [done|]. right. left.
      split; [done|]. simpl. by rewrite Ht1, Ht.
    + split; [done|]. split; [done|]. split; [done|]. left.
      split; [by exists first; simpl; rewrite Hp1|]. simpl. by rewrite Ht1.
  - split; [done|]. split; [done|]. split; [done|]. right. left.
    split; [simpl; by rewrite Hp1 | simpl; by rewrite Ht1].
  - split; [done|]. split; [done|]. split; [done|]. right. right.
    split; [simpl; by rewrite Hp1 | simpl; by rewrite Ht1].
Qed.

Lemma quiet_lookup s w p r u :
  quiet s → workers s !! w = Some (WRequest p r u true) → False.
Proof.
  intros Hq Hw. unfold quiet in Hq. rewrite Forall_forall in Hq.
  apply list_elem_of_lookup_2, Hq in Hw. done.
Qed.

Lemma step_cancelling done tr ev s s' :
  cancelling done tr s → step c ev s = Some s' → cancelling done tr s'.
Proof.
  intros HJ Hstep. pose proof HJ as (Hc & Hq & Hu & Hph).
  destruct ev; simpl in Hstep.
  - simplify_eq. split; [done|]. split; [by apply quiet_cancelUpload_again|]. done.
  - destruct Hph as [[[first Hp] _] | [[Hp _] | [Hp _]]]; by rewrite Hp in Hstep.
  - destruct Hph as [[[first Hp] _] | [[Hp _] | [Hp _]]]; by rewrite Hp in Hstep.
  - destruct (workers s !! w) as [[p r| | | |]|] eqn:Hw; try done.
    rewrite Hc in Hstep. simplify_eq. rewrite attempt_failed_cancelled by done.
    apply worker_throw_cancelling; [by eapply lookup_lt_Some | done].
  - destruct (workers s !! w) as [[p r| | | |]|] eqn:Hw; try done. simplify_eq.
    rewrite attempt_failed_cancelled by done.
    apply worker_throw_cancelling; [by eapply lookup_lt_Some | done].
  - destruct (workers s !! w) as [[|p r u [|]| | |]|] eqn:Hw; try done.
    by destruct (quiet_lookup _ _ _ _ _ Hq Hw).
  - destruct (workers s !! w) as [[|p r u [|]| | |]|] eqn:Hw; try done.
    by destruct (quiet_lookup _ _ _ _ _ Hq Hw).
  - destruct (workers s !! w) as [[|p r u live| | |]|] eqn:Hw; try done. simplify_eq.
    rewrite attempt_failed_cancelled by done.
    apply worker_throw_cancelling; [by eapply lookup_lt_Some | done].
  - destruct (workers s !! w) as [[| |p r | |]|] eqn:Hw; try done. simplify_eq.
    unfold uploadPart_start. rewrite Hc. rewrite attempt_failed_cancelled by done.
    apply worker_throw_cancelling; [by eapply lookup_lt_Some | done].
  - destruct Hph as [[[first Hp] _] | [[Hp _] | [Hp _]]]; by rewrite Hp in Hstep.
  - destruct Hph as [[[first Hp] _] | [[Hp Ht] | [Hp _]]]; rewrite Hp in Hstep; try done.
    simplify_eq. split; [done|]. split; [done|]. split; [done|]. right. right. done.
  - destruct Hph as [[[first Hp] _] | [[Hp _] | [Hp _]]]; by rewrite Hp in Hstep.
Qed.

End Cancellation.

(** * The workers that are awaited *)

Section Awaiting.
Context (c : Session).

Lemma finish_not_waiting s first : phase (finish s) ≠ PWorkers first.
Proof. unfold finish. by case_match. Qed.

Lemma after_workers_not_waiting b s first : phase (after_workers c b s) ≠ PWorkers first.
Proof.
  unfold after_workers. repeat case_match; try apply finish_not_waiting. done.
Qed.

Lemma settle_pending w s st :
  workers s !! w = Some st → is_pending st = true → settle c w s = s.
Proof.
  intros Hw Hst. unfold settle. rewrite Hw. destruct st; try done; by repeat case_match.
Qed.

Lemma forallb_false {A} (f : A → bool) (l : list A) :
  forallb f l = false → ∃ (i : nat) x, l !! i = Some x ∧ f x = false.
Proof.
  induction l as [|x l IH]; simpl; [done|].
  destruct (f x) eqn:Hx; simpl.
  - intros (i & y & ? & ?)%IH. by exists (S i), y.
  - intros _. by exists 0%nat, x.
Qed.

Lemma all_resolved_false first s :
  all_resolved first s = false →
  ∃ w st, (first ≤ w)%nat ∧ workers s !! w = Some st ∧ is_resolved st = false.
Proof.
  unfold all_resolved. intros (i & st & Hi & Hst)%forallb_false.
  rewrite lookup_drop in Hi. exists (first + i)%nat, st. split; [lia | done].
Qed.

Lemma pending_or_settled st :
  is_rejected st = false → is_resolved st = false → is_pending st = true.
Proof. by destruct st. Qed.

(** [Promise.all] after the callback of worker [w]: the wait goes on only
    if no awaited worker has failed and one has not returned. *)
Lemma settle_awaiting w s :
  (w < length (workers s))%nat →
  (∀ first, phase s = PWorkers first →
     (∀ w' st, (first ≤ w')%nat → w' ≠ w → workers s !! w' = Some st → is_rejected st = false) ∧
     ((first ≤ w)%nat ∨
      ∃ w' st, (first ≤ w')%nat ∧ w' ≠ w ∧ workers s !! w' = Some st ∧ is_pending st = true)) →
  awaiting (settle c w s).
Proof.
  intros Hw Hpre. unfold settle.
  destruct (phase s) as [| |first| | | |] eqn:Hp; try (intros first' Hp'; congruence).
  destruct (Hpre first eq_refl) as [Hrej Hpend].
  destruct (lookup_lt_is_Some_2 _ _ Hw) as [st Hst]. rewrite Hst.
  assert (∀ st', is_rejected st' = false → workers s !! w = Some st' →
            (is_resolved st' = true → (first ≤ w)%nat → all_resolved first s = false) →
            awaiting s) as Hkeep.
  { intros st' Hnr Hst' Hall first' Hp'. rewrite Hp in Hp'. injection Hp' as <-.
    split.
    - intros w' st'' Hle Hlook. destruct (decide (w' = w)) as [-> | Hne]; [congruence | eauto].
    - destruct Hpend as [Hle | (w' & st'' & ? & ? & ? & ?)]; [|eauto].
      destruct (is_resolved st') eqn:Hres.
      + destruct (all_resolved_false first s (Hall eq_refl Hle)) as (w2 & st2 & Hle2 & Hl2 & Hr2).
        exists w2, st2. split; [done|]. split; [done|].
        apply pending_or_settled; [|done].
        destruct (decide (w2 = w)) as [-> | Hne]; [congruence | eauto].
      + exists w, st'. split; [done|]. split; [done|]. by apply pending_or_settled. }
  case_bool_decide as Hle.
  - destruct st as [p r|p r u live|p r| |err].
    + eapply Hkeep; [|exact Hst|]; done.
    + eapply Hkeep; [|exact Hst|]; done.
    + eapply Hkeep; [|exact Hst|]; done.
    + destruct (all_resolved first s) eqn:Hall.
      * intros first' Hp'. by apply after_workers_not_waiting in Hp'.
      * eapply Hkeep; [|exact Hst|]; done.
    + intros first' Hp'. by apply after_workers_not_waiting in Hp'.
  - intros first' Hp'. rewrite Hp in Hp'. injection Hp' as <-.
    split.
    + intros w' st' Hle' Hlook. eapply Hrej; [done | lia | done].
    + destruct Hpend as [? | (w' & st' & ? & ? & ? & ?)]; [done | eauto].
Qed.

Lemma worker_moved_awaiting w s s' :
  (w < length (workers s))%nat → awaiting s → worker_moved c w s s' → awaiting s'.
Proof.
  intros Hw Haw (st' & s2 & Hp & Hws & ->).
  apply settle_awaiting; [by rewrite Hws, length_insert|].
  intros first Hp2. rewrite Hp in Hp2. destruct (Haw first Hp2) as [Hrej (w1 & st1 & Hle & Hl1 & Hp1)].
  split.
  - intros w' st Hle' Hne. rewrite Hws, list_lookup_insert_ne by done. eauto.
  - destruct (decide (w1 = w)) as [-> | Hne]; [by left|].
    right. exists w1, st1. rewrite Hws, list_lookup_insert_ne by done. done.
Qed.

Lemma worker_moved_throw w err s : worker_moved c w s (worker_throw c w err s).
Proof.
  unfold worker_throw. eexists (WRejected err), _. split; [|split; [|done]].
  - simpl. by case_match.
  - simpl. by case_match.
Qed.

Lemma worker_moved_pending w st s s2 :
  workers s2 = <[w := st]> (workers s) → phase s2 = phase s →
  (w < length (workers s))%nat → is_pending st = true →
  worker_moved c w s s2.
Proof.
  intros Hws Hp Hw Hst. exists st, s2. split; [done|]. split; [done|].
  symmetry. eapply settle_pending; [|done]. rewrite Hws. by apply list_lookup_insert_eq.
Qed.

Lemma worker_moved_attempt_failed w p r err s :
  (w < length (workers s))%nat → worker_moved c w s (attempt_failed c w p r err s).
Proof.
  intros Hw. unfold attempt_failed. case_match; [apply worker_moved_throw|].
  by eapply worker_moved_pending.
Qed.

Lemma worker_moved_uploadPart_start w p r s :
  (w < length (workers s))%nat → worker_moved c w s (uploadPart_start c w p r s).
Proof.
  intros Hw. unfold uploadPart_start. case_match; [by apply worker_moved_attempt_failed|].
  by eapply worker_moved_pending.
Qed.

Lemma worker_moved_writeChunk w p r u n s :
  (w < length (workers s))%nat → worker_moved c w s (writeChunk c w p r u n s).
Proof.
  intros Hw. unfold writeChunk. case_match; [by apply worker_moved_attempt_failed|].
  eapply worker_moved_pending; [simpl; by case_match | simpl; by case_match | done | done].
Qed.

Lemma worker_loop_workers w s :
  ∃ st, fresh_worker st ∧ workers (worker_loop c w s) = <[w := st]> (workers s).
Proof.
  unfold worker_loop, fresh_worker.
  destruct (queue s) as [|p rest]; [exists WResolved; split; [by left | done]|].
  case_match.
  - exists (WPresign p (maxRetries c)). split; [right; eauto | done].
  - exists WResolved. split; [by left | done].
Qed.

Lemma worker_moved_part_uploaded w p tag s :
  worker_moved c w s (part_uploaded c w p tag s).
Proof.
  unfold part_uploaded. set (s1 := set_uploadedParts _ s).
  destruct (worker_loop_workers w s1) as (st & _ & Hws).
  exists st, (worker_loop c w s1). split; [by rewrite worker_loop_phase|]. done.
Qed.

Lemma spawn_workers n s :
  ∃ new, workers (Nat.iter n (spawn_worker c) s) = workers s ++ new ∧
         Forall fresh_worker new.
Proof.
  induction n as [|n (new & Hws & Hnew)]; simpl.
  - exists []. by rewrite app_nil_r.
  - unfold spawn_worker at 1. set (s1 := Nat.iter n (spawn_worker c) s) in *.
    destruct (worker_loop_workers (length (workers s1))
                (set_workers (workers s1 ++ [WResolved]) s1)) as (st & Hst & Hws').
    exists (new ++ [st]). split.
    + rewrite Hws'. simpl.
      replace (length (workers s1)) with (length (workers s1) + 0)%nat by lia.
      rewrite insert_app_r. simpl. by rewrite Hws, app_assoc.
    + apply Forall_app. split; [done|]. by constructor.
Qed.

Lemma runUploadWorkers_awaiting s : awaiting (runUploadWorkers c s).
Proof.
  unfold runUploadWorkers. set (s0 := set_uploadError None s). set (s1 := Nat.iter _ _ _).
  destruct (all_resolved (length (workers s0)) s1) eqn:Hall.
  - intros first Hp. by apply after_workers_not_waiting in Hp.
  - intros first [= <-].
    destruct (spawn_workers (workerCount c s0) s0) as (new & Hws & Hnew). fold s1 in Hws.
    rewrite Forall_forall in Hnew.
    assert (∀ w st, (length (workers s0) ≤ w)%nat → workers s1 !! w = Some st →
                    fresh_worker st) as Hfresh.
    { intros w st Hle. rewrite Hws, lookup_app_r by done.
      intros Hl. apply list_elem_of_lookup_2 in Hl. by apply Hnew. }
    split.
    + intros w st Hle Hl. simpl in Hl. by destruct (Hfresh w st Hle Hl) as [-> | (? & ? & ->)].
    + destruct (all_resolved_false _ _ Hall) as (w & st & Hle & Hl & Hres).
      exists w, st. split; [done|]. split; [done|].
      destruct (Hfresh w st Hle Hl) as [-> | (? & ? & ->)]; done.
Qed.

Lemma worker_moved_unregister w s s' :
  worker_moved c w (unregister w s) s' → worker_moved c w s s'.
Proof. intros H. exact H. Qed.

Lemma step_awaiting ev s s' : awaiting s → step c ev s = Some s' → awaiting s'.
Proof.
  intros Haw Hstep.
  destruct ev; simpl in Hstep; repeat case_match; simplify_eq;
    try (intros first' Hp'; simpl in Hp'; congruence);
    try apply runUploadWorkers_awaiting;
    try match goal with H : workers s !! ?w = Some _ |- _ =>
          apply lookup_lt_Some in H as Hlt end;
    first [ solve [eapply (worker_moved_awaiting _ s);
                     [ | | apply worker_moved_attempt_failed]; done]
          | solve [eapply (worker_moved_awaiting _ s);
                     [ | | apply worker_moved_uploadPart_start]; done]
          | solve [eapply (worker_moved_awaiting _ s);
                     [ | | apply worker_moved_part_uploaded]; done]
          | solve [eapply (worker_moved_awaiting _ s);
                     [ | | apply worker_moved_writeChunk]; done]
          | solve [eapply (worker_moved_awaiting _ s);
                     [ | | apply worker_moved_unregister, worker_moved_attempt_failed]; done]
          | solve [eapply (worker_moved_awaiting _ s);
                     [ | | apply worker_moved_unregister, worker_moved_part_uploaded]; done]
          | idtac ].
  - intros first Hp. simpl in Hp. destruct (Haw first Hp) as [Hrej (w & st & Hle & Hl & Hpe)].
    split.
    + intros w' st'. simpl. rewrite destroy_registered_lookup.
      destruct (workers s !! w') as [st0|] eqn:Hl0; simpl; [|done].
      intros Hle' [= <-]. specialize (Hrej w' st0 Hle' Hl0).
      case_bool_decide; [by destruct st0 | done].
    + eexists w, _. split; [done|]. simpl. rewrite destroy_registered_lookup, Hl. simpl.
      split; [done|]. case_bool_decide; [by destruct st | done].
  - destruct (worker_moved_writeChunk w p retriesLeft 0 accepted
                (register w (emit (ActRequest (partNumber p)) s)) Hlt)
      as (st' & s2 & Hp & Hws & ->).
    apply (worker_moved_awaiting w s); [done | done |]. by exists st', s2.
  - unfold alert_answered. destruct (negb _).
    + intros first' Hp'. simpl in Hp'. congruence.
    + apply runUploadWorkers_awaiting.
Qed.

End Awaiting.

Lemma reachable_awaiting prefs size s : reachable prefs size s → awaiting s.
Proof.
  intros [evs Hrun]. eapply run_invariant; [apply step_awaiting | | exact Hrun].
  intros first Hp. unfold handleSubmit in Hp. by repeat case_match.
Qed.

(** * The registry of the open requests *)

Section Registry.
Context (c : Session).

Lemma tracked_refl s : tracked s s.
Proof. split; [done|]. intros w st Hw Hl. right. eauto. Qed.

Lemma tracked_trans s1 s2 s3 : tracked s1 s2 → tracked s2 s3 → tracked s1 s3.
Proof.
  intros [Hr1 H1] [Hr2 H2]. split; [congruence|].
  intros w st Hw Hl. destruct (H2 w st Hw Hl) as [Hin | (st0 & Hw0 & Hl0)].
  - left. by rewrite <- Hr1.
  - eauto.
Qed.

Lemma tracked_same s s' :
  activeRequests s' = activeRequests s → workers s' = workers s → tracked s s'.
Proof. intros Hr Hw. split; [done|]. intros w st. rewrite Hw. eauto. Qed.

Lemma tracked_set_worker w st s : is_live st = false → tracked s (set_worker w st s).
Proof.
  intros Hst. split; [done|]. intros w' st'. simpl.
  destruct (decide (w' = w)) as [-> | Hne].
  - destruct (decide (w < length (workers s))%nat).
    + rewrite list_lookup_insert_eq by done. intros [= <-]. congruence.
    + rewrite list_insert_ge by lia. eauto.
  - rewrite list_lookup_insert_ne by done. eauto.
Qed.

Lemma tracked_finish s : tracked s (finish s).
Proof. unfold finish. by case_match; apply tracked_same. Qed.

Lemma tracked_after_workers b s : tracked s (after_workers c b s).
Proof.
  unfold after_workers. repeat case_match; try apply tracked_finish. by apply tracked_same.
Qed.

Lemma tracked_settle w s : tracked s (settle c w s).
Proof.
  unfold settle. repeat case_match; try apply tracked_refl; apply tracked_after_workers.
Qed.

Lemma tracked_worker_throw w err s : tracked s (worker_throw c w err s).
Proof.
  unfold worker_throw. eapply tracked_trans; [|apply tracked_settle].
  eapply tracked_trans; [|by apply tracked_set_worker].
  apply tracked_same; by case_match.
Qed.

Lemma tracked_attempt_failed w p r err s : tracked s (attempt_failed c w p r err s).
Proof.
  unfold attempt_failed. case_match; [apply tracked_worker_throw|].
  eapply tracked_trans; [|by apply tracked_set_worker]. by apply tracked_same.
Qed.

Lemma tracked_uploadPart_start w p r s : tracked s (uploadPart_start c w p r s).
Proof.
  unfold uploadPart_start. case_match; [apply tracked_attempt_failed|].
  eapply tracked_trans; [|by apply tracked_set_worker]. by apply tracked_same.
Qed.

(** [writeChunk] leaves the request of its worker open: it is registered,
    or it was open before. *)
Lemma tracked_writeChunk w p r u n s :
  w ∈ activeRequests s ∨ (∃ st0, workers s !! w = Some st0 ∧ is_live st0 = true) →
  tracked s (writeChunk c w p r u n s).
Proof.
  intros Hw. unfold writeChunk. case_match; [apply tracked_attempt_failed|].
  split; [by case_match|]. intros w' st'.
  assert (∀ s1 : State, workers s1 = workers s →
            <[w := WRequest p r (write_loop n (part_len p) u) true]> (workers s1) !! w'
            = Some st' → is_live st' = true →
            w' ∈ activeRequests s ∨ ∃ st0, workers s !! w' = Some st0 ∧ is_live st0 = true)
    as Hgen.
  { intros s1 Hws. rewrite Hws. destruct (decide (w' = w)) as [-> | Hne]; [done|].
    rewrite list_lookup_insert_ne by done. eauto. }
  case_match; simpl; by apply Hgen.
Qed.

Lemma tracked_worker_loop w s : tracked s (worker_loop c w s).
Proof.
  unfold worker_loop. repeat case_match; try by apply tracked_set_worker.
  eapply tracked_trans; [|by apply tracked_set_worker]. by apply tracked_same.
Qed.

Lemma tracked_part_uploaded w p tag s : tracked s (part_uploaded c w p tag s).
Proof.
  unfold part_uploaded. eapply tracked_trans; [|apply tracked_settle].
  eapply tracked_trans; [|apply tracked_worker_loop]. by apply tracked_same.
Qed.

Lemma tracked_spawn n s : tracked s (Nat.iter n (spawn_worker c) s).
Proof.
  induction n as [|n IH]; simpl; [apply tracked_refl|].
  eapply tracked_trans; [exact IH|]. unfold spawn_worker.
  eapply tracked_trans; [|apply tracked_worker_loop].
  split; [done|]. intros w st. simpl. intros Hw Hl.
  apply lookup_app_Some in Hw as [Hw | [_ Hw]]; [eauto|].
  apply list_lookup_singleton_Some in Hw as [_ <-]. done.
Qed.

Lemma tracked_runUploadWorkers s : tracked s (runUploadWorkers c s).
Proof.
  unfold runUploadWorkers. set (s1 := Nat.iter _ _ _).
  assert (tracked s s1) as H1.
  { eapply tracked_trans; [|apply tracked_spawn]. by apply tracked_same. }
  case_match.
  - eapply tracked_trans; [exact H1 | apply tracked_after_workers].
  - eapply tracked_trans; [exact H1 | by apply tracked_same].
Qed.

Lemma reset_progress_registry l s :
  activeRequests (reset_progress l s) = activeRequests s.
Proof.
  unfold reset_progress. revert s. induction l as [|p l IH]; intros s; simpl; [done|].
  by rewrite IH.
Qed.

Lemma tracked_alert_answered failed b s : tracked s (alert_answered c failed b s).
Proof.
  unfold alert_answered. destruct b; simpl; [|by apply tracked_same].
  eapply tracked_trans; [|apply tracked_runUploadWorkers].
  destruct (reset_progress_fields failed (set_queue failed s)) as (_ & _ & _ & Hw & _).
  apply tracked_same; simpl; [|done]. by rewrite reset_progress_registry.
Qed.

Lemma registered_tracked s s' : registered s → tracked s s' → registered s'.
Proof.
  intros Hreg [Hr Ht] w p r u Hw. rewrite Hr.
  destruct (Ht w _ Hw eq_refl) as [? | (st0 & Hw0 & Hl0)]; [done|].
  destruct st0 as [|p0 r0 u0 [|]| | |]; try done. by eapply Hreg.
Qed.

(** After the answer or the error of its request a worker has no open
    request, so that the entry removed from the registry is not missed. *)
Lemma attempt_failed_closed w p r err s st :
  (w < length (workers s))%nat →
  workers (attempt_failed c w p r err s) !! w = Some st → is_live st = false.
Proof.
  intros Hlt. unfold attempt_failed. case_match.
  - unfold worker_throw. set (s2 := set_worker _ _ _).
    destruct (coordinated_settle c w s2) as (_ & _ & _ & _ & _ & -> & _).
    simpl. rewrite list_lookup_insert_eq; [by intros [= <-]|]. by case_match.
  - simpl. rewrite list_lookup_insert_eq by done. by intros [= <-].
Qed.

Lemma part_uploaded_closed w p tag s st :
  (w < length (workers s))%nat →
  workers (part_uploaded c w p tag s) !! w = Some st → is_live st = false.
Proof.
  intros Hlt. unfold part_uploaded. set (s1 := set_uploadedParts _ s).
  destruct (coordinated_settle c w (worker_loop c w s1)) as (_ & _ & _ & _ & _ & -> & _).
  destruct (worker_loop_workers c w s1) as (st' & Hfresh & ->).
  simpl. rewrite list_lookup_insert_eq by done. intros [= <-].
  by destruct Hfresh as [-> | (? & ? & ->)].
Qed.

Lemma registered_unregister w s s' :
  registered s → tracked (unregister w s) s' →
  (∀ st, workers s' !! w = Some st → is_live st = false) →
  registered s'.
Proof.
  intros Hreg [Hr Ht] Hclosed w' p r u Hw. rewrite Hr. simpl.
  assert (w' ≠ w) as Hne.
  { intros ->. by specialize (Hclosed _ Hw). }
  destruct (Ht w' _ Hw eq_refl) as [? | (st0 & Hw0 & Hl0)]; [done|].
  apply list_elem_of_filter. split; [done|].
  destruct st0 as [|p0 r0 u0 [|]| | |]; try done. by eapply Hreg.
Qed.

Lemma step_registered ev s s' : registered s → step c ev s = Some s' → registered s'.
Proof.
  intros Hreg Hstep.
  destruct ev; simpl in Hstep; repeat case_match; simplify_eq;
    try match goal with H : workers s !! ?w = Some _ |- _ =>
          pose proof (lookup_lt_Some _ _ _ H) as Hlt end;
    first [ by (eapply registered_tracked; [exact Hreg | by apply tracked_same])
          | by (eapply registered_tracked; [exact Hreg | apply tracked_attempt_failed])
          | by (eapply registered_tracked; [exact Hreg | apply tracked_uploadPart_start])
          | by (eapply registered_tracked; [exact Hreg | apply tracked_alert_answered])
          | by (eapply registered_unregister;
                  [exact Hreg | apply tracked_attempt_failed
                  | intros st; by apply attempt_failed_closed])
          | by (eapply registered_unregister;
                  [exact Hreg | apply tracked_part_uploaded
                  | intros st; by apply part_uploaded_closed])
          | idtac ].
  - pose proof (quiet_cancelUpload _ Hreg) as Hq. intros w p r u Hw.
    unfold quiet in Hq. rewrite Forall_lookup in Hq. by specialize (Hq _ _ Hw).
  - eapply registered_tracked; [exact Hreg|].
    eapply tracked_trans; [|apply tracked_runUploadWorkers]. by apply tracked_same.
  - eapply (registered_tracked (register w (emit (ActRequest (partNumber p)) s))).
    + intros w' p' r' u' Hw'. simpl. apply elem_of_app. left. by eapply Hreg.
    + apply tracked_writeChunk. left. simpl. apply elem_of_app. right. by constructor.
  - eapply registered_tracked; [exact Hreg|]. apply tracked_writeChunk. right. eauto.
Qed.

End Registry.

Lemma reachable_registered prefs size s : reachable prefs size s → registered s.
Proof.
  intros [evs Hrun]. eapply run_invariant; [apply step_registered | | exact Hrun].
  intros w p r u Hw. destruct (handleSubmit_fields prefs size) as (_ & Hws & _).
  by rewrite Hws in Hw.
Qed.

(** Whenever the flag is set no request is open. *)
Lemma reachable_cancel_closes prefs size s : reachable prefs size s → cancel_closes s.
Proof.
  intros [evs Hrun].
  cut (registered s ∧ cancel_closes s); [tauto|].
  eapply (run_invariant _ (λ s, registered s ∧ cancel_closes s)); [| | exact Hrun].
  - intros ev s1 s2 [Hreg Hcc] Hstep. split; [by eapply step_registered|].
    intros Hc2. destruct (cancelled s1) eqn:Hc1.
    + by destruct (step_cancelled _ _ _ _ Hstep Hc1 (Hcc Hc1)).
    + destruct (cancel_or_not ev) as [-> | Hev].
      * simpl in Hstep. simplify_eq. by apply quiet_cancelUpload.
      * destruct (step_grows _ _ _ _ Hstep Hev) as (Hc & _). congruence.
  - destruct (handleSubmit_fields prefs size) as (Hc & Hws & _). split.
    + intros w p r u Hw. by rewrite Hws in Hw.
    + intros Hc'. congruence.
Qed.

Section CancelEnds.
Context (c : Session).

(** After the cancellation every callback of a worker ends the worker. *)
Lemma step_worker_cancelled ev w s s' :
  cancelled s = true → quiet s → event_worker ev = Some w →
  step c ev s = Some s' →
  (w < length (workers s))%nat ∧
  ∃ err s1, s' = worker_throw c w err s1 ∧
            cancelled s1 = cancelled s ∧ phase s1 = phase s ∧ workers s1 = workers s.
Proof.
  intros Hc Hq Hev Hstep.
  destruct ev; simpl in Hev; simplify_eq; simpl in Hstep.
  - destruct (workers s !! w) as [[p r| | | |]|] eqn:Hw; try done.
    rewrite Hc in Hstep. simplify_eq. rewrite attempt_failed_cancelled by done.
    split; [by eapply lookup_lt_Some | eauto 10].
  - destruct (workers s !! w) as [[p r| | | |]|] eqn:Hw; try done. simplify_eq.
    rewrite attempt_failed_cancelled by done.
    split; [by eapply lookup_lt_Some | eauto 10].
  - destruct (workers s !! w) as [[|p r u [|]| | |]|] eqn:Hw; try done.
    by destruct (quiet_lookup _ _ _ _ _ Hq Hw).
  - destruct (workers s !! w) as [[|p r u [|]| | |]|] eqn:Hw; try done.
    by destruct (quiet_lookup _ _ _ _ _ Hq Hw).
  - destruct (workers s !! w) as [[|p r u live| | |]|] eqn:Hw; try done. simplify_eq.
    rewrite attempt_failed_cancelled by done.
    split; [by eapply lookup_lt_Some|]. by exists err, (unregister w s).
  - destruct (workers s !! w) as [[| |p r | |]|] eqn:Hw; try done. simplify_eq.
    unfold uploadPart_start. rewrite Hc. rewrite attempt_failed_cancelled by done.
    split; [by eapply lookup_lt_Some | eauto 10].
Qed.

(** A pending worker can be called back. *)
Lemma next_event_enabled w st s :
  workers s !! w = Some st → is_pending st = true →
  event_worker (next_event w st) = Some w ∧ is_Some (step c (next_event w st) s).
Proof.
  intros Hw Hst. destruct st; try done; simpl; rewrite Hw; split; try done.
  by case_match.
Qed.

(** With the flag set, the end of an awaited worker makes the coordinator
    call the abort. *)
Lemma worker_throw_awaited first w err s :
  cancelled s = true → phase s = PWorkers first → (first ≤ w)%nat →
  (w < length (workers s))%nat →
  phase (worker_throw c w err s) = PAbort ByCancel.
Proof.
  intros Hc Hp Hle Hw. unfold worker_throw.
  set (s1 := if is_cancel err then s else set_uploadError (Some err) s).
  assert (cancelled s1 = true ∧ workers s1 = workers s ∧ phase s1 = phase s) as (Hc1 & Hw1 & Hp1).
  { unfold s1. by destruct (is_cancel err). }
  unfold settle. change (phase (set_worker w (WRejected err) s1)) with (phase s1).
  rewrite Hp1, Hp. rewrite bool_decide_eq_true_2 by done.
  change (workers (set_worker w (WRejected err) s1)) with (<[w := WRejected err]> (workers s1)).
  rewrite Hw1, list_lookup_insert_eq by done.
  by rewrite after_workers_cancelled.
Qed.

(** From a state after the cancellation the upload can end in two
    callbacks, as cancelled. *)
Lemma cancelling_ends done tr s :
  cancelling done tr s → awaiting s →
  ∃ evs s', (length evs ≤ 2)%nat ∧ run c evs s = Some s' ∧
            phase s' = PDone (Failure cancelled_msg).
Proof.
  intros (Hc & Hq & Hu & Hph) Haw.
  destruct Hph as [[[first Hp] _] | [[Hp _] | [Hp _]]].
  - destruct (Haw first Hp) as [_ (w & st & Hle & Hw & Hst)].
    destruct (next_event_enabled w st s Hw Hst) as [Hev [s1 Hs1]].
    destruct (step_worker_cancelled _ _ _ _ Hc Hq Hev Hs1)
      as [Hlt (err & s2 & -> & Hc2 & Hp2 & Hw2)].
    rewrite <- Hc2 in Hc. rewrite <- Hp2 in Hp. rewrite <- Hw2 in Hlt.
    pose proof (worker_throw_awaited first w err s2 Hc Hp Hle Hlt) as Hp1.
    exists [next_event w st; EvAbortDone None]. eexists. split; [simpl; lia|].
    simpl. rewrite Hs1. simpl. rewrite Hp1. done.
  - exists [EvAbortDone None]. eexists. split; [simpl; lia|]. simpl. rewrite Hp. done.
  - exists [], s. split; [simpl; lia|]. done.
Qed.

End CancelEnds.

Lemma count_cons f a tr :
  count f (a :: tr) = ((if f a then 1 else 0) + count f tr)%nat.
Proof. unfold count. rewrite filter_cons. by destruct (f a). Qed.

Lemma count_none f tr : Forall (λ a, f a = false) tr → count f tr = 0%nat.
Proof.
  induction 1 as [|a tr Ha _ IH]; [done|]. by rewrite count_cons, Ha, IH.
Qed.

(** X21: the cancellation comes while the workers of a round are awaited.
    From then on the flag is set, the only call that is ever added to the
    trace is one abort: no URL is asked for and no request is started for
    any part, and the completion is never called; no result is added to
    [uploadedParts]; the first callback of an awaited worker makes the
    coordinator call the abort; the upload can always end within two
    callbacks, and when it has ended it has ended with "Upload cancelled"
    after exactly one abort. *)
Theorem cancellation_aborts_once prefs size s0 first evs s :
  reachable prefs size s0 →
  phase s0 = PWorkers first →
  run (session_of prefs size) evs (cancelUpload s0) = Some s →
  cancelled s = true ∧
  (trace s = trace s0 ∨ trace s = ActAbort :: trace s0) ∧
  count is_attempt_start (trace s) = count is_attempt_start (trace s0) ∧
  count is_complete (trace s) = 0%nat ∧
  (count is_abort (trace s) ≤ 1)%nat ∧
  uploadedParts s = uploadedParts s0 ∧
  (∀ o, phase s = PDone o →
        o = Failure cancelled_msg ∧ count is_abort (trace s) = 1%nat) ∧
  (∀ first' ev w s',
     phase s = PWorkers first' → event_worker ev = Some w → (first' ≤ w)%nat →
     step (session_of prefs size) ev s = Some s' → phase s' = PAbort ByCancel) ∧
  (∃ evs' s', (length evs' ≤ 2)%nat ∧
              run (session_of prefs size) evs' s = Some s' ∧
              phase s' = PDone (Failure cancelled_msg)).
Proof.
  intros Hreach Hp Hrun. set (c := session_of prefs size) in *.
  assert (cancelling (uploadedParts s0) (trace s0) (cancelUpload s0)) as Hstart.
  { split; [done|].
    split; [by apply quiet_cancelUpload, (reachable_registered prefs size)|]. split; [done|].
    left. split; [by exists first | done]. }
  assert (cancelling (uploadedParts s0) (trace s0) s) as HJ.
  { eapply run_invariant; [apply step_cancelling | exact Hstart | exact Hrun]. }
  assert (awaiting s) as Haw.
  { eapply run_invariant; [apply step_awaiting | | exact Hrun].
    eapply (step_awaiting c EvCancel s0); [by eapply reachable_awaiting | done]. }
  pose proof (reachable_early_trace _ _ _ Hreach) as Hearly.
  unfold early_trace in Hearly. rewrite Hp in Hearly. specialize (Hearly eq_refl).
  assert (count is_abort (trace s0) = 0%nat) as Hab.
  { apply count_none. eapply Forall_impl; [exact Hearly|]. intros a. by destruct a. }
  assert (count is_complete (trace s0) = 0%nat) as Hco.
  { apply count_none. eapply Forall_impl; [exact Hearly|]. intros a. by destruct a. }
  pose proof HJ as (Hc & Hq & Hu & Hph).
  split; [done|].
  split; [destruct Hph as [[_ ->] | [[_ ->] | [_ ->]]]; auto|].
  split; [destruct Hph as [[_ ->] | [[_ ->] | [_ ->]]]; by rewrite ?count_cons|].
  split; [destruct Hph as [[_ ->] | [[_ ->] | [_ ->]]]; by rewrite ?count_cons|].
  split; [destruct Hph as [[_ ->] | [[_ ->] | [_ ->]]]; rewrite ?count_cons, Hab; simpl; lia|].
  split; [done|].
  split; [|split].
  - intros o Ho. destruct Hph as [[[f Hf] _] | [[Hf _] | [Hf ->]]]; try congruence.
    rewrite Hf in Ho. injection Ho as <-. by rewrite count_cons, Hab.
  - intros first' ev w s' Hp' Hev Hle Hstep.
    destruct (step_worker_cancelled c _ _ _ _ Hc Hq Hev Hstep)
      as [Hlt (err & s2 & -> & Hc2 & Hp2 & Hw2)].
    eapply worker_throw_awaited; [congruence | by rewrite Hp2 | done | by rewrite Hw2].
  - by eapply cancelling_ends.
Qed.

Lemma cancellation_aborts_once_witness :
  ∃ s0 s,
    upload prefs_two_workers (10 * MiB)
      [EvInitiated None; EvPresigned 0 10; EvPresigned 1 10] = Some s0 ∧
    run (session_of prefs_two_workers (10 * MiB))
      [EvReqError 0 "socket hang up"; EvAbortDone None] (cancelUpload s0) = Some s ∧
    phase s = PDone (Failure cancelled_msg) ∧
    count is_abort (trace s) = 1%nat ∧
    uploadedParts s = uploadedParts s0.
Proof.
  eexists. eexists. split; [vm_compute; reflexivity|]. split; [vm_compute; reflexivity|].
  split; [reflexivity|].
  match goal with
  | |- _ ∧ uploadedParts ?s = uploadedParts ?s0 =>
      destruct (cancellation_aborts_once prefs_two_workers (10 * MiB) s0 0%nat
                  [EvReqError 0 "socket hang up"; EvAbortDone None] s)
        as (_ & _ & _ & _ & _ & Hu & Hend & _)
  end.
  - exists [EvInitiated None; EvPresigned 0 10; EvPresigned 1 10]. vm_compute. reflexivity.
  - reflexivity.
  - vm_compute. reflexivity.
  - split; [|exact Hu]. by destruct (Hend _ eq_refl).
Defined.

(** C3 at a failing input.  Two parts, two workers, no automatic retry.
    Part 1 fails while the request of part 2 is open: [Promise.all]
    rejects and the alert is shown.  The user retries: both parts are
    queued again and two new workers upload them, while the first request
    of part 2 is still open.  [completeMultipartUpload] is called.  Now the
    upload is cancelled: the flag is set and the open request is destroyed,
    but nothing reads the flag any more.  The completion returns and the
    upload has succeeded: the abort was never called. *)
Lemma cancel_during_completion_is_ignored :
  let c := session_of prefs_two_workers (10 * MiB) in
  let part2 := {| partNumber := 2; start := 5 * MiB; end_ := 10 * MiB |} in
  ∃ s0 s,
    upload prefs_two_workers (10 * MiB)
      [EvInitiated None; EvPresigned 0 100; EvPresigned 1 10;
       EvResponse 0 (Some 500) ""; EvAlert (Some true);
       EvPresigned 2 100; EvPresigned 3 100;
       EvResponse 2 (Some 200) "a"; EvResponse 3 (Some 200) "b"] = Some s0 ∧
    phase s0 = PComplete ∧
    workers s0 !! 1%nat = Some (WRequest part2 (Num 0) 720896 true) ∧
    open_requests s0 = 1%nat ∧
    workers (cancelUpload s0) !! 1%nat = Some (WRequest part2 (Num 0) 720896 false) ∧
    run c [EvReqError 1 "aborted"; EvCompleteDone None] (cancelUpload s0) = Some s ∧
    cancelled s = true ∧
    phase s = PDone Success ∧
    count is_abort (trace s) = 0%nat.
Proof.
  eexists _, _. split; [vm_compute; reflexivity|].
  split; [reflexivity|]. split; [reflexivity|]. split; [reflexivity|].
  split; [reflexivity|]. split; [vm_compute; reflexivity|].
  split; [reflexivity|]. split; reflexivity.
Qed.

(** * The counts reported after a failed round *)

(** C4 at a failing input. Two parts, two workers, no automatic retry.
    Part 1 fails while the request of part 2 is open: [Promise.all] rejects
    at once and the alert reports 0 of 2 parts, 2 failed.  The user retries:
    both parts are queued again and two new workers start, while the first
    worker of part 2 is still running.  Both requests of part 2 succeed and
    each adds a result; part 1 fails again.  The second alert reports 2 of
    2 parts uploaded and 1 failed. *)
Lemma retry_round_counts_part_twice :
  ∃ s, upload prefs_two_workers (10 * MiB)
         [EvInitiated None; EvPresigned 0 100; EvPresigned 1 100;
          EvResponse 0 (Some 500) ""; EvAlert (Some true);
          EvResponse 1 (Some 200) "b"; EvPresigned 3 100; EvResponse 3 (Some 200) "b";
          EvPresigned 2 100; EvResponse 2 (Some 500) ""] = Some s ∧
       uploadedParts s = [{| part := 2; etag := "b" |}; {| part := 2; etag := "b" |}] ∧
       phase s = PAlert [{| partNumber := 1; start := 0; end_ := 5 * MiB |}] ∧
       head (trace s) = Some (ActAlert 2 (Num 2) 1) ∧
       2 + 1 ≠ 2.
Proof.
  eexists. split; [vm_compute; reflexivity|]. by repeat split.
Qed.

(** * The upload command and the list command *)

(** * Strings *)

Section Strings.
Import JsString.

Lemma string_app_nil_l (s : string) : "" +:+ s = s.
Proof. done. Qed.

Lemma string_app_cons a (s t : string) : String a s +:+ t = String a (s +:+ t).
Proof. done. Qed.

Lemma string_app_nil_r (s : string) : s +:+ "" = s.
Proof. induction s as [|a s IH]; [done|]. by rewrite string_app_cons, IH. Qed.

Lemma string_app_assoc (s t u : string) : (s +:+ t) +:+ u = s +:+ t +:+ u.
Proof. induction s as [|a s IH]; [done|]. by rewrite !string_app_cons, IH. Qed.

Lemma string_length_app (s t : string) :
  String.length (s +:+ t) = (String.length s + String.length t)%nat.
Proof. induction s as [|a s IH]; [done|]. rewrite string_app_cons. simpl. by rewrite IH. Qed.

Lemma startsWith_iff s t : startsWith s t = true ↔ ∃ r, s = t +:+ r.
Proof.
  revert s. induction t as [|b t IH]; intros s; simpl.
  - split; [|done]. intros _. by exists s.
  - destruct s as [|a s].
    + split; [done|]. by intros [r Hr].
    + rewrite andb_true_iff, bool_decide_eq_true, IH. split.
      * intros [-> [r ->]]. by exists r.
      * intros [r Hr]. rewrite string_app_cons in Hr. simplify_eq. eauto.
Qed.

Lemma includes_iff s t : includes s t = true ↔ ∃ a b, s = a +:+ t +:+ b.
Proof.
  induction s as [|c s IH]; simpl.
  - rewrite orb_false_r, startsWith_iff. split.
    + intros [r Hr]. by exists "", r.
    + intros (a & b & Hab). destruct a as [|? ?]; [|done]. by exists b.
  - rewrite orb_true_iff, startsWith_iff, IH. split.
    + intros [[r Hr] | (a & b & ->)].
      * by exists "", r.
      * by exists (String c a), b.
    + intros (a & b & Hab). destruct a as [|c' a].
      * left. by exists b.
      * right. rewrite string_app_cons in Hab. simplify_eq. by exists a, b.
Qed.

Lemma slice_from_app s t : slice_from (String.length s) (s +:+ t) = t.
Proof. induction s as [|a s IH]; [by destruct t|]. done. Qed.

Lemma endsWith_app s t : endsWith (s +:+ t) t = true.
Proof.
  unfold endsWith. rewrite string_length_app. apply andb_true_iff. split.
  - apply bool_decide_eq_true. lia.
  - apply bool_decide_eq_true.
    replace (String.length s + String.length t - String.length t)%nat
      with (String.length s) by lia.
    apply slice_from_app.
Qed.

Lemma slice_from_length n s :
  (n ≤ String.length s)%nat →
  String.length (slice_from n s) = (String.length s - n)%nat.
Proof.
  revert s. induction n as [|n IH]; intros s Hn; simpl; [lia|].
  destruct s as [|a s]; simpl in *; [lia|]. apply IH. lia.
Qed.

(** What [slice(n)] drops and what it keeps. *)
Lemma slice_from_split n s :
  (n ≤ String.length s)%nat → ∃ r, s = r +:+ slice_from n s ∧ String.length r = n.
Proof.
  revert s. induction n as [|n IH]; intros s Hn; simpl.
  - by exists "".
  - destruct s as [|a s]; simpl in *; [lia|].
    destruct (IH s) as (r & Hr & Hl); [lia|].
    exists (String a r). rewrite string_app_cons. simpl. split; [by f_equal | by f_equal].
Qed.

Lemma endsWith_iff s t : endsWith s t = true ↔ ∃ r, s = r +:+ t.
Proof.
  split.
  - unfold endsWith. rewrite andb_true_iff, !bool_decide_eq_true. intros [Hl Hs].
    destruct (slice_from_split (String.length s - String.length t) s) as (r & Hr & _); [lia|].
    exists r. by rewrite Hs in Hr.
  - intros [r ->]. apply endsWith_app.
Qed.

Lemma slice_init_app s a : slice_init (s +:+ String a "") = s.
Proof.
  induction s as [|b s IH]; [done|]. rewrite string_app_cons. simpl. rewrite IH.
  by destruct s.
Qed.

Lemma string_app_inv_tail (s t u : string) : s +:+ u = t +:+ u → s = t.
Proof.
  revert t. induction s as [|a s IH]; intros [|b t] H; try done.
  - apply (f_equal String.length) in H. rewrite !string_length_app in H. simpl in H. lia.
  - apply (f_equal String.length) in H. rewrite !string_length_app in H. simpl in H. lia.
  - rewrite !string_app_cons in H. simplify_eq. f_equal. by apply IH.
Qed.

End Strings.

(** * The public URL *)

Lemma includes_app_l s r t :
  JsString.includes s t = true → JsString.includes (r +:+ s) t = true.
Proof.
  rewrite !includes_iff. intros (a & b & ->). exists (r +:+ a), b.
  by rewrite string_app_assoc.
Qed.

Lemma includes_app_r s r t :
  JsString.includes s t = true → JsString.includes (s +:+ r) t = true.
Proof.
  rewrite !includes_iff. intros (a & b & ->). exists a, (b +:+ r).
  by rewrite !string_app_assoc.
Qed.

Lemma includes_middle a t b : JsString.includes (a +:+ t +:+ b) t = true.
Proof. apply includes_iff. by exists a, b. Qed.

(** X1: a public URL always names the bucket and ends with the name of the
    object after a slash: [generatePublicUrl] puts the bucket into the path
    unless the base URL contains it already. *)
Theorem public_url_names_bucket_and_object base bucket objectName url :
  UploadCommand.generatePublicUrl base bucket objectName = Some url →
  JsString.includes url bucket = true ∧
  JsString.endsWith url ("/" +:+ objectName) = true.
Proof.
  unfold UploadCommand.generatePublicUrl. intros H.
  destruct base as [b|]; [|done]. case_bool_decide; [done|].
  set (baseUrl := if JsString.endsWith b "/" then _ else _) in H.
  destruct (JsString.includes baseUrl bucket) eqn:Hin; simplify_eq.
  - split; [by apply includes_app_r|]. apply endsWith_app.
  - split.
    { apply includes_iff. exists (baseUrl +:+ "/"), ("/" +:+ objectName).
      by rewrite !string_app_assoc. }
    replace (baseUrl +:+ "/" +:+ bucket +:+ "/" +:+ objectName)
      with ((baseUrl +:+ "/" +:+ bucket) +:+ "/" +:+ objectName)
      by (by rewrite !string_app_assoc).
    apply endsWith_app.
Qed.

Lemma public_url_names_bucket_and_object_witness :
  JsString.includes "https://cdn.example.com/files/a.png" "files" = true ∧
  JsString.endsWith "https://cdn.example.com/files/a.png" "/a.png" = true.
Proof.
  apply (public_url_names_bucket_and_object (Some "https://cdn.example.com/") "files" "a.png").
  reflexivity.
Defined.

(** X2: a slash at the end of the base URL makes no difference: a base URL
    written with one gives the URLs of the same base written without. *)
Theorem public_url_ignores_trailing_slash base bucket objectName :
  base ≠ "" → JsString.endsWith base "/" = false →
  UploadCommand.generatePublicUrl (Some (base +:+ "/")) bucket objectName
  = UploadCommand.generatePublicUrl (Some base) bucket objectName.
Proof.
  intros Hne Hend. unfold UploadCommand.generatePublicUrl.
  rewrite Hend, endsWith_app, slice_init_app.
  rewrite (bool_decide_eq_false_2 (base = "")) by done.
  case_bool_decide as H; [|done].
  apply (f_equal String.length) in H. rewrite string_length_app in H. simpl in H. lia.
Qed.

Lemma public_url_ignores_trailing_slash_witness :
  UploadCommand.generatePublicUrl (Some "http://minio.local:9000/") "photos" "2024/a.jpg"
  = UploadCommand.generatePublicUrl (Some "http://minio.local:9000") "photos" "2024/a.jpg".
Proof.
  apply (public_url_ignores_trailing_slash "http://minio.local:9000" "photos" "2024/a.jpg").
  - done.
  - reflexivity.
Defined.

(** * The progress stream *)

Section Stream.
Import ProgressStream.

Lemma write_all_snoc chunks chunk s :
  write_all (chunks ++ [chunk]) s = _transform chunk (write_all chunks s).
Proof. unfold write_all. by rewrite foldl_app. Qed.

Lemma write_all_fields chunks s :
  pushed (write_all chunks s) = pushed s ++ chunks ∧
  this_total (write_all chunks s) = this_total s ∧
  this_transferred (write_all chunks s)
  = this_transferred s + Z.of_nat (length (concat chunks)) ∧
  length (reported (write_all chunks s)) = (length (reported s) + length chunks)%nat.
Proof.
  induction chunks as [|chunk chunks IH] using rev_ind.
  - simpl. rewrite app_nil_r. repeat split; lia.
  - rewrite write_all_snoc. destruct IH as (Hp & Ht & Htr & Hl). simpl.
    rewrite Hp, Ht, Htr, concat_app, !length_app, Hl. simpl.
    rewrite app_nil_r, app_assoc. repeat split; lia.
Qed.

Lemma min_100_round_ratio t T :
  0 < T → 0 ≤ t →
  ∃ p, min_100 (round_ratio t T) = Num p ∧ 0 ≤ p ≤ 100 ∧ (T ≤ t → p = 100) ∧
       p = Z.min (percentage_of t T) 100.
Proof.
  intros HT Ht. unfold round_ratio.
  destruct (T =? 0) eqn:H0; [apply Z.eqb_eq in H0; lia|]. simpl.
  eexists. split; [done|].
  assert (0 ≤ percentage_of t T).
  { rewrite <- (percentage_of_zero T). apply percentage_of_mono; lia. }
  split; [lia|]. split; [|done]. intros Hle.
  pose proof (percentage_over t T HT Hle). lia.
Qed.

Lemma write_all_reported chunks s :
  0 < this_total s → 0 ≤ this_transferred s → reported s = [] →
  Forall (λ r, 0 ≤ transferred r ∧
               percentage r = Num (Z.min (percentage_of (transferred r) (this_total s)) 100) ∧
               transferred r ≤ this_transferred (write_all chunks s))
         (reported (write_all chunks s)) ∧
  StronglySorted (λ a b, transferred a ≤ transferred b) (reported (write_all chunks s)).
Proof.
  intros HT Ht Hnil. induction chunks as [|chunk chunks IH] using rev_ind.
  { simpl. rewrite Hnil. split; constructor. }
  rewrite write_all_snoc.
  destruct (write_all_fields chunks s) as (_ & Htot & Htr & _).
  destruct IH as [IH1 IH2]. simpl. split.
  - apply List.Forall_app. split.
    + eapply List.Forall_impl; [|exact IH1]. simpl. intros r (? & ? & ?). repeat split; try done. lia.
    + constructor; [|done]. simpl. rewrite Htot.
      destruct (min_100_round_ratio
                  (this_transferred (write_all chunks s) + Z.of_nat (length chunk))
                  (this_total s)) as (p & -> & _ & _ & ->); [done | lia |].
      repeat split; try done; lia.
  - revert IH1 IH2.
    generalize (reported (write_all chunks s)). intros l Hl Hsorted.
    induction Hsorted as [|a l Hs IHs Ha]; simpl.
    + repeat constructor.
    + apply Forall_cons_1 in Hl as [Ha' Hl]. constructor; [by apply IHs|].
      apply List.Forall_app. split; [done|]. constructor; [|done]. simpl. lia.
Qed.

End Stream.

(** X3: the progress stream is transparent: the chunks written to it are
    pushed downstream unchanged and in order, one report is made for each,
    and the count of the bytes is the total length of the chunks. *)
Theorem progress_stream_forwards_chunks total chunks :
  let s := ProgressStream.write_all chunks (ProgressStream.create total) in
  ProgressStream.pushed s = chunks ∧
  ProgressStream.this_transferred s = Z.of_nat (length (concat chunks)) ∧
  ProgressStream.transferred <$> ProgressStream.reported s
  = (λ k, Z.of_nat (length (concat (take (S k) chunks)))) <$> seq 0 (length chunks).
Proof.
  simpl.
  destruct (write_all_fields chunks (ProgressStream.create total)) as (Hp & _ & Htr & _).
  split; [done|]. split; [by rewrite Htr|].
  induction chunks as [|chunk chunks IH] using rev_ind; [done|].
  rewrite write_all_snoc. simpl. rewrite fmap_app, IH; clear IH.
  - rewrite length_app. simpl. rewrite Nat.add_1_r, seq_S, fmap_app. simpl.
    destruct (write_all_fields chunks (ProgressStream.create total)) as (_ & _ & -> & _).
    simpl. f_equal.
    + apply list_fmap_ext. intros i k Hk. apply lookup_seq in Hk as [-> Hk]. simpl.
      by rewrite take_app_le by lia.
    + rewrite take_ge by (rewrite length_app; simpl; lia).
      rewrite concat_app, !length_app. simpl. rewrite app_nil_r. f_equal. lia.
  - by destruct (write_all_fields chunks (ProgressStream.create total)) as (-> & _).
  - by destruct (write_all_fields chunks (ProgressStream.create total)) as (_ & _ & -> & _).
Qed.

(** X4: for a positive total, every percentage that the progress stream
    reports, [Math.min] of 100 and [Math.round] of the double
    [(transferred / total) * 100], is a whole number from 0 to 100, also
    when more bytes pass than the total announced; it is 100 once the
    total is reached, and the percentages never go down. *)
Theorem progress_stream_percentage total chunks :
  0 < total →
  let s := ProgressStream.write_all chunks (ProgressStream.create total) in
  Forall (λ r, ∃ p, ProgressStream.percentage r = Num p ∧ 0 ≤ p ≤ 100 ∧
                    (total ≤ ProgressStream.transferred r → p = 100))
         (ProgressStream.reported s) ∧
  StronglySorted ProgressStream.percentage_le (ProgressStream.reported s).
Proof.
  intros HT. simpl.
  destruct (write_all_reported chunks (ProgressStream.create total)) as [Hall Hs];
    [done | done | done |]. simpl in *.
  split.
  - eapply List.Forall_impl; [|exact Hall]. simpl. intros r (H0 & Hp & _).
    destruct (min_100_round_ratio (ProgressStream.transferred r) total)
      as (p & _ & Hb & Hfull & ->); [done | done |].
    eexists. split; [exact Hp|]. split; [exact Hb | exact Hfull].
  - revert Hall Hs. generalize (ProgressStream.reported
                                  (ProgressStream.write_all chunks (ProgressStream.create total))).
    intros l Hall Hs. induction Hs as [|a l Hs IH Ha]; [constructor|].
    apply Forall_cons_1 in Hall as [(Ha0 & Hpa & _) Hall]. constructor; [by apply IH|].
    rewrite List.Forall_forall in Ha, Hall. apply List.Forall_forall. intros b Hb.
    destruct (Hall b Hb) as (Hb0 & Hpb & _). specialize (Ha b Hb).
    eexists _, _. split; [exact Hpa|]. split; [exact Hpb|].
    apply Z.min_le_compat_r. apply percentage_of_mono; lia.
Qed.

Lemma progress_stream_percentage_witness :
  Forall (λ r, ∃ p, ProgressStream.percentage r = Num p ∧ 0 ≤ p ≤ 100 ∧
                    (10 ≤ ProgressStream.transferred r → p = 100))
    (ProgressStream.reported
       (ProgressStream.write_all
          [[Byte.x78; Byte.x79; Byte.x7a]; []; [Byte.x61; Byte.x62; Byte.x63; Byte.x64];
           [Byte.x65; Byte.x66; Byte.x67; Byte.x68; Byte.x69]]
          (ProgressStream.create 10))).
Proof.
  apply (progress_stream_percentage 10
           [[Byte.x78; Byte.x79; Byte.x7a]; []; [Byte.x61; Byte.x62; Byte.x63; Byte.x64];
           [Byte.x65; Byte.x66; Byte.x67; Byte.x68; Byte.x69]]).
  lia.
Defined.

(** * The check of the file *)

(** X5: a file that exists and can be read is accepted exactly when its
    size is at most [maxFileSize] times 1024 * 1024 bytes; when the
    preference is no number, no file is too large. *)
Theorem readable_file_accepted_up_to_limit st filePath size :
  UploadCommand.hasPermission
    (UploadCommand.permission_checked st filePath None (inr size))
  = match UploadCommand.maxFileSizeMB st with
    | Num m => bool_decide (size ≤ m * 1024 * 1024)
    | NaN => true
    end.
Proof.
  unfold UploadCommand.permission_checked, UploadCommand.check_size, js_gt.
  destruct (UploadCommand.maxFileSizeMB st) as [m|]; simpl; [|done].
  destruct (m * 1024 * 1024 <? size) eqn:H; simpl.
  - apply Z.ltb_lt in H. symmetry. apply bool_decide_eq_false. lia.
  - apply Z.ltb_ge in H. symmetry. by apply bool_decide_eq_true.
Qed.

(** * The types of the files listed *)

Lemma Array_includes_app l1 l2 x :
  ListCommand.Array_includes (l1 ++ l2) x
  = ListCommand.Array_includes l1 x || ListCommand.Array_includes l2 x.
Proof.
  unfold ListCommand.Array_includes.
  destruct (bool_decide (x ∈ l1)) eqn:H1; destruct (bool_decide (x ∈ l2)) eqn:H2; simpl;
    rewrite ?bool_decide_eq_true, ?bool_decide_eq_false in *;
    rewrite elem_of_app; tauto.
Qed.

(** X6: a file can be previewed exactly when it is not larger than 50 MB
    and [getFileIcon] gives it the icon of an image, a sound, a video or a
    text: the files with the icon of a plain document are those without a
    preview. *)
Theorem previewable_iff_icon_of_known_type extname toLowerCase objectName size :
  ListCommand.isPreviewable extname toLowerCase objectName size = true ↔
  size ≤ ListCommand.MAX_PREVIEW_SIZE ∧
  ListCommand.getFileIcon extname toLowerCase objectName ≠ ListCommand.Icon_Document.
Proof.
  unfold ListCommand.isPreviewable, ListCommand.getFileIcon,
    ListCommand.PREVIEWABLE_EXTENSIONS.
  set (ext := toLowerCase (extname objectName)).
  rewrite !Array_includes_app.
  destruct (ListCommand.MAX_PREVIEW_SIZE <? size) eqn:Hs.
  - apply Z.ltb_lt in Hs. split; [done|]. intros [? _]. lia.
  - apply Z.ltb_ge in Hs.
    destruct (ListCommand.Array_includes ListCommand.IMAGE_EXTENSIONS ext),
      (ListCommand.Array_includes ListCommand.AUDIO_EXTENSIONS ext),
      (ListCommand.Array_includes ListCommand.VIDEO_EXTENSIONS ext),
      (ListCommand.Array_includes ListCommand.TEXT_EXTENSIONS ext); simpl;
      split; try done; intros [_ H]; done.
Qed.

(** * Navigation *)

Section Navigation.
Import JsString ListCommand.

Lemma slash_free_cons a s :
  slash_free (String a s) ↔ String a "" ≠ "/" ∧ slash_free s.
Proof.
  unfold slash_free. simpl. rewrite orb_false_iff, andb_false_iff, bool_decide_eq_false.
  split.
  - intros [[Ha | H] Hs]; [|done]. split; [|done]. intros [= ->]. done.
  - intros [Ha Hs]. split; [|done]. left. intros ->. done.
Qed.

Lemma slash_free_nil : slash_free "".
Proof. done. Qed.

Lemma split_cons_other a s :
  String a "" ≠ "/" →
  split "/" (String a s)
  = match split "/" s with x :: l => String a x :: l | [] => [String a ""] end.
Proof. intros Ha. simpl. by rewrite bool_decide_eq_false_2. Qed.

Lemma split_not_nil s : split "/" s ≠ [].
Proof. induction s as [|a s IH]; simpl; [done|]. case_bool_decide; [done|]. by case_match. Qed.

(** Every piece of a split is free of the separator. *)
Lemma split_slash_free s : Forall slash_free (split "/" s).
Proof.
  induction s as [|a s IH]; simpl.
  - by repeat constructor.
  - case_bool_decide as Ha.
    + constructor; [done | exact IH].
    + destruct (split "/" s) as [|x l] eqn:Hs.
      * constructor; [|done]. by apply slash_free_cons.
      * apply Forall_cons_1 in IH as [Hx Hl]. constructor; [|done]. by apply slash_free_cons.
Qed.

Lemma split_segment seg rest :
  slash_free seg → split "/" (seg +:+ "/" +:+ rest) = seg :: split "/" rest.
Proof.
  induction seg as [|a seg IH]; intros Hfree.
  - done.
  - apply slash_free_cons in Hfree as [Ha Hfree]. rewrite string_app_cons.
    rewrite split_cons_other by done. by rewrite IH.
Qed.

Lemma split_free s : slash_free s → split "/" s = [s].
Proof.
  induction s as [|a s IH]; intros Hfree; [done|].
  apply slash_free_cons in Hfree as [Ha Hfree].
  rewrite split_cons_other by done. by rewrite IH.
Qed.

Lemma split_directory_prefix segs :
  Forall slash_free segs → split "/" (directory_prefix segs) = segs ++ [""].
Proof.
  induction segs as [|seg segs IH]; intros Hall; [done|].
  apply Forall_cons_1 in Hall as [Hseg Hall]. simpl.
  rewrite split_segment by done. by rewrite IH.
Qed.

Lemma join_directory_prefix segs :
  segs ≠ [] → join "/" segs +:+ "/" = directory_prefix segs.
Proof.
  induction segs as [|seg segs IH]; [done|]. intros _.
  destruct segs as [|seg' segs]; [done|].
  change (join "/" (seg :: seg' :: segs)) with (seg +:+ "/" +:+ join "/" (seg' :: segs)).
  change (directory_prefix (seg :: seg' :: segs))
    with (seg +:+ "/" +:+ directory_prefix (seg' :: segs)).
  rewrite <- (IH ltac:(done)). by rewrite !string_app_assoc.
Qed.

Lemma filter_nonempty_segments (segs : list string) :
  Forall (λ s, s ≠ "") segs → filter (λ p, p ≠ "") segs = segs.
Proof.
  induction 1 as [|s segs Hs Hall IH]; [done|].
  rewrite filter_cons. rewrite decide_True by done. by rewrite IH.
Qed.

(** What [navigateUp] computes, in segments. *)
Lemma navigateUp_segments p :
  p ≠ "" →
  navigateUp p = Some (directory_prefix (removelast (filter (λ s, s ≠ "") (split "/" p)))).
Proof.
  intros Hp. unfold navigateUp. rewrite bool_decide_eq_false_2 by done.
  generalize (removelast (filter (λ s, s ≠ "") (split "/" p))). intros parts.
  f_equal. case_bool_decide as Hl.
  - apply join_directory_prefix. intros ->. simpl in Hl. lia.
  - destruct parts; [done | simpl in Hl; lia].
Qed.

Lemma directory_prefix_snoc segs seg :
  directory_prefix (segs ++ [seg]) = directory_prefix segs +:+ seg +:+ "/".
Proof.
  induction segs as [|s segs IH]; simpl.
  - by rewrite string_app_nil_r.
  - by rewrite IH, !string_app_assoc.
Qed.

Lemma directory_prefix_not_empty segs seg : directory_prefix (segs ++ [seg]) ≠ "".
Proof.
  rewrite directory_prefix_snoc. intros H. apply (f_equal String.length) in H.
  rewrite !string_length_app in H. simpl in H. lia.
Qed.

(** Going up from a directory leads to the directory that holds it. *)
Lemma navigateUp_directory segs seg :
  Forall segment segs → segment seg →
  navigateUp (directory_prefix (segs ++ [seg])) = Some (directory_prefix segs).
Proof.
  intros Hsegs Hseg. rewrite navigateUp_segments by apply directory_prefix_not_empty.
  assert (Forall segment (segs ++ [seg])) as Hall.
  { apply List.Forall_app. split; [done|]. by constructor. }
  rewrite split_directory_prefix.
  2: { eapply List.Forall_impl; [|exact Hall]. by intros s [_ ?]. }
  rewrite list.filter_app, filter_nonempty_segments.
  2: { eapply List.Forall_impl; [|exact Hall]. by intros s [? _]. }
  rewrite filter_cons, decide_False by (intros H; by apply H).
  rewrite filter_nil, app_nil_r. by rewrite removelast_last.
Qed.

End Navigation.

(** X7: [navigateUp] does nothing at the top; elsewhere it drops the last
    of the segments of the prefix that are not empty and sets the others,
    each followed by a slash: a well-formed prefix, whatever the prefix
    was, and the empty one when no segment or one segment was there. *)
Theorem navigateUp_sets_directory_prefix currentPrefix :
  let parts := filter (λ s, s ≠ "") (JsString.split "/" currentPrefix) in
  (currentPrefix = "" ∧ ListCommand.navigateUp currentPrefix = None) ∨
  (currentPrefix ≠ "" ∧ parts = [] ∧ ListCommand.navigateUp currentPrefix = Some "") ∨
  ∃ segs seg,
    parts = segs ++ [seg] ∧
    Forall ListCommand.segment segs ∧ ListCommand.segment seg ∧
    ListCommand.navigateUp currentPrefix = Some (ListCommand.directory_prefix segs) ∧
    ListCommand.directory_prefix segs ≠ ListCommand.directory_prefix (segs ++ [seg]).
Proof.
  simpl. destruct (decide (currentPrefix = "")) as [-> | Hp]; [by left|]. right.
  rewrite navigateUp_segments by done.
  set (parts := filter _ _).
  assert (Forall ListCommand.segment parts) as Hparts.
  { unfold parts. apply list.Forall_forall. intros s [Hs Hin]%list_elem_of_filter.
    split; [done|]. pose proof (split_slash_free currentPrefix) as Hfree.
    rewrite list.Forall_forall in Hfree. by apply Hfree. }
  clearbody parts. destruct parts as [|seg segs _] using rev_ind; [by left|]. right.
  apply List.Forall_app in Hparts as [Hsegs Hseg]. apply Forall_cons_1 in Hseg as [Hseg _].
  exists segs, seg. rewrite removelast_last. repeat split; try done; try apply Hseg.
  rewrite directory_prefix_snoc. intros H. apply (f_equal String.length) in H.
  rewrite !string_length_app in H. simpl in H. lia.
Qed.

(** * The listing *)

Section Listing.
Import JsString ListCommand.
Context (prefix : string) (pageSize : jsnum).

Lemma read_stream_snoc evs ev l :
  read_stream prefix pageSize (evs ++ [ev]) l
  = onEvent prefix pageSize ev (read_stream prefix pageSize evs l).
Proof. unfold read_stream. by rewrite foldl_app. Qed.

(** What one object of the stream does to the listing: nothing, or a
    directory not known yet or a file is added, and then the page may be
    full. *)
Lemma onData_cases now obj l :
  onData prefix pageSize now obj l = l ∨
  streamDestroyed l = false ∧
  ∃ l1, (l1 = l ∨
         (∃ seg, segment seg ∧ ((prefix +:+ seg +:+ "/") ∉ directories l) ∧
                 l1 = push_directory (prefix +:+ seg +:+ "/") now l) ∨
         (∃ n, item_name obj = Some n ∧ ¬ below_directory prefix n ∧
               l1 = push_file n now obj l)) ∧
        onData prefix pageSize now obj l
        = if js_ge (Num (objectCount l1)) pageSize then page_full l1 else l1.
Proof.
  unfold onData.
  destruct (streamDestroyed l) eqn:Hd; [by left|].
  destruct (item_name obj) as [n|] eqn:Hn; [|by left].
  destruct (bool_decide (n = "") || bool_decide (n = prefix)); [by left|].
  right. split; [done|].
  pose proof (split_slash_free (slice_from (String.length prefix) n)) as Hfree.
  pose proof (split_not_nil (slice_from (String.length prefix) n)) as Hnil.
  destruct (bool_decide (1 < length _)%nat && negb (bool_decide (_ = ""))) eqn:Hdir.
  - apply andb_true_iff in Hdir as [Hlen%bool_decide_eq_true Hne%negb_true_iff].
    apply bool_decide_eq_false in Hne.
    case_bool_decide as Hin.
    + exists l. split; [by left | done].
    + eexists. split; [|done]. right. left. eexists. split; [|split; [exact Hin | done]].
      split; [done|].
      destruct (split "/" (slice_from (String.length prefix) n)) as [|x parts]; [done|].
      by apply Forall_cons_1 in Hfree as [? _].
  - eexists. split; [|done]. right. right. exists n. split; [done|]. split; [|done].
    intros [Hlen Hne]. apply andb_false_iff in Hdir as [Hdir | Hdir].
    + by apply bool_decide_eq_false in Hdir.
    + apply negb_false_iff, bool_decide_eq_true in Hdir. done.
Qed.

(** The names that a directory and a file have cannot be the same. *)
Lemma directory_name_below seg :
  segment seg → below_directory prefix (prefix +:+ seg +:+ "/").
Proof.
  intros [Hne Hfree]. unfold below_directory.
  rewrite slice_from_app. replace (seg +:+ "/") with (seg +:+ "/" +:+ "") by done.
  rewrite split_segment by done. simpl. split; [lia | done].
Qed.

End Listing.

Section ListingInvariants.
Import JsString ListCommand.
Context (prefix : string).

Lemma names_inv_seen known seen n l :
  names_inv prefix known seen l → names_inv prefix known (seen ++ [n]) l.
Proof.
  intros (Hk & Hnd & Hall). split; [done|]. split; [done|].
  eapply List.Forall_impl; [|exact Hall]. intros o. simpl. destruct (isDirectory o); [done|].
  intros [? ?]. split; [|done]. apply elem_of_app. by left.
Qed.

Lemma names_inv_same known seen l l' :
  fetchedObjects l' = fetchedObjects l → directories l' = directories l →
  names_inv prefix known seen l → names_inv prefix known seen l'.
Proof. unfold names_inv. by intros -> ->. Qed.

Lemma names_inv_onData pageSize known seen now obj l :
  names_inv prefix known seen l →
  (∀ n, item_name obj = Some n → n ∉ seen) →
  names_inv prefix known (seen ++ option_list (item_name obj))
    (onData prefix pageSize now obj l).
Proof.
  intros Hinv Hnew.
  assert (names_inv prefix known (seen ++ option_list (item_name obj)) l) as Hinv'.
  { destruct (item_name obj); simpl; [by apply names_inv_seen|].
    by rewrite app_nil_r. }
  destruct (onData_cases prefix pageSize now obj l) as [-> | (_ & l1 & Hl1 & ->)]; [done|].
  cut (names_inv prefix known (seen ++ option_list (item_name obj)) l1).
  { intros H. case_match; [|done]. by eapply names_inv_same; [| |exact H]. }
  destruct Hl1 as [-> | [(seg & Hseg & Hin & ->) | (n & Hn & Hfile & ->)]]; [done|..].
  - destruct Hinv' as (Hk & Hnd & Hall). split; [|split]; simpl.
    + set_solver.
    + rewrite fmap_app. apply list.NoDup_app. split; [done|]. split; [|by apply NoDup_singleton].
      intros x Hx ->%list_elem_of_singleton.
      apply list_elem_of_fmap in Hx as (o & Ho & Hoin).
      rewrite list.Forall_forall in Hall. specialize (Hall o Hoin).
      destruct (isDirectory o).
      * destruct Hall as (Hd & _). by rewrite <- Ho in Hd.
      * destruct Hall as (_ & Hnb). apply Hnb. rewrite <- Ho.
        by apply directory_name_below.
    + apply List.Forall_app. split.
      * eapply List.Forall_impl; [|exact Hall]. intros o. simpl. destruct (isDirectory o); [|done].
        intros (? & ? & ?). split; [set_solver | done].
      * constructor; [|done]. simpl. split; [set_solver|]. split; [set_solver | eauto].
  - destruct Hinv as (Hk & Hnd & Hall). rewrite Hn. split; [|split]; simpl; [done|..].
    + rewrite fmap_app. apply list.NoDup_app. split; [done|]. split; [|by apply NoDup_singleton].
      intros x Hx ->%list_elem_of_singleton.
      apply list_elem_of_fmap in Hx as (o & Ho & Hoin).
      rewrite list.Forall_forall in Hall. specialize (Hall o Hoin).
      destruct (isDirectory o).
      * destruct Hall as (_ & _ & seg & Hseg & Hname). apply Hfile. simpl in Ho.
        rewrite Ho, Hname. by apply directory_name_below.
      * destruct Hall as (Hseen & _). apply (Hnew _ Hn). simpl in Ho. by rewrite Ho.
    + apply List.Forall_app. split.
      * eapply List.Forall_impl; [|exact Hall]. intros o. simpl. destruct (isDirectory o); [done|].
        intros [? ?]. split; [|done]. apply elem_of_app. by left.
      * constructor; [|done]. simpl. split; [|done]. apply elem_of_app. right.
        by apply list_elem_of_singleton.
Qed.

Lemma stream_names_snoc evs ev :
  stream_names (evs ++ [ev])
  = stream_names evs ++ option_list (match ev with OnData _ obj => item_name obj | _ => None end).
Proof.
  unfold stream_names. rewrite omap_app. by f_equal.
Qed.

Lemma names_inv_onEvent pageSize known evs ev l :
  NoDup (stream_names (evs ++ [ev])) →
  names_inv prefix known (stream_names evs) l →
  names_inv prefix known (stream_names (evs ++ [ev])) (onEvent prefix pageSize ev l).
Proof.
  intros Hnd Hinv. rewrite stream_names_snoc in *. destruct ev as [now obj|err| |]; simpl.
  - apply names_inv_onData; [done|]. intros n Hn. rewrite Hn in Hnd. simpl in Hnd.
    apply list.NoDup_app in Hnd as (_ & Hdisj & _). intros Hin.
    apply (Hdisj n Hin). by apply list_elem_of_singleton.
  - rewrite app_nil_r. by case_match.
  - rewrite app_nil_r. case_match; [done|]. by eapply names_inv_same; [| |exact Hinv].
  - rewrite app_nil_r. by case_match.
Qed.

Lemma names_inv_start loadMore hasMore objects :
  names_inv prefix (directories (listing_start loadMore hasMore objects)) []
    (listing_start loadMore hasMore objects).
Proof. split; [done|]. split; constructor. Qed.

Lemma names_inv_read pageSize evs loadMore hasMore objects :
  NoDup (stream_names evs) →
  names_inv prefix (directories (listing_start loadMore hasMore objects)) (stream_names evs)
    (read_stream prefix pageSize evs (listing_start loadMore hasMore objects)).
Proof.
  induction evs as [|ev evs IH] using rev_ind; intros Hnd.
  - apply names_inv_start.
  - rewrite read_stream_snoc. apply names_inv_onEvent; [done|]. apply IH.
    rewrite stream_names_snoc in Hnd. by apply list.NoDup_app in Hnd as (? & _).
Qed.

End ListingInvariants.

Section Page.
Import JsString ListCommand.
Context (prefix : string).

Lemma files_app (l1 l2 : list MinioObject) : files (l1 ++ l2) = files l1 ++ files l2.
Proof. unfold files. apply list.filter_app. Qed.

Lemma page_inv_onData k now obj l :
  page_inv k l → page_inv k (onData prefix (Num k) now obj l).
Proof.
  intros (Hcount & Hle & Hopen & Hclosed).
  destruct (onData_cases prefix (Num k) now obj l) as [-> | (Hd & l1 & Hl1 & ->)]; [done|].
  specialize (Hopen Hd).
  destruct Hl1 as [-> | [(seg & _ & _ & ->) | (n & _ & _ & ->)]]; simpl.
  - rewrite (proj2 (Z.leb_gt _ _)) by lia. done.
  - rewrite (proj2 (Z.leb_gt _ _)) by lia. unfold page_inv. simpl.
    rewrite list.filter_app, length_app. simpl. rewrite Hd.
    split; [lia|]. split; [lia|]. split; [done | done].
  - destruct (k <=? objectCount l + 1) eqn:Hfull.
    + apply Z.leb_le in Hfull. unfold page_inv. simpl.
      rewrite list.filter_app, length_app. simpl.
      split; [lia|]. split; [lia|]. split; [done|]. intros _.
      split; [lia|]. split; [done|]. by destruct (settled l).
    + apply Z.leb_gt in Hfull. unfold page_inv. simpl.
      rewrite list.filter_app, length_app. simpl. rewrite Hd.
      split; [lia|]. split; [lia|]. split; [lia | done].
Qed.

Lemma page_inv_onEvent k ev l :
  page_inv k l → page_inv k (onEvent prefix (Num k) ev l).
Proof.
  intros Hinv. destruct ev as [now obj|err| |]; simpl.
  - by apply page_inv_onData.
  - destruct (streamDestroyed l) eqn:Hd; [done|].
    destruct Hinv as (? & ? & Ho & ?). unfold page_inv. simpl. rewrite ?Hd.
    repeat split; try done. intros _. by apply Ho.
  - destruct (streamDestroyed l) eqn:Hd; [done|].
    destruct Hinv as (? & ? & Ho & ?). unfold page_inv. simpl. rewrite ?Hd.
    repeat split; try done. intros _. by apply Ho.
  - destruct (streamDestroyed l) eqn:Hd; [|done].
    destruct Hinv as (? & ? & ? & Hc). destruct (Hc Hd) as (? & ? & ?).
    unfold page_inv. simpl. rewrite ?Hd. repeat split; try done. by destruct (settled l).
Qed.

Lemma page_inv_read k evs loadMore hasMore objects :
  1 ≤ k →
  page_inv k (read_stream prefix (Num k) evs (listing_start loadMore hasMore objects)).
Proof.
  intros Hk. induction evs as [|ev evs IH] using rev_ind.
  - unfold page_inv. simpl. repeat split; try done; lia.
  - rewrite read_stream_snoc. by apply page_inv_onEvent.
Qed.

(** Without a page size the stream is never destroyed. *)
Lemma open_onEvent ev l :
  streamDestroyed l = false → streamDestroyed (onEvent prefix NaN ev l) = false.
Proof.
  intros Hd. destruct ev as [now obj|err| |]; simpl; rewrite ?Hd; try done.
  destruct (onData_cases prefix NaN now obj l) as [-> | (_ & l1 & Hl1 & ->)]; [done|].
  simpl. by destruct Hl1 as [-> | [(seg & _ & _ & ->) | (n & _ & _ & ->)]].
Qed.

Lemma open_read evs l :
  streamDestroyed l = false → streamDestroyed (read_stream prefix NaN evs l) = false.
Proof.
  intros Hd. induction evs as [|ev evs IH] using rev_ind; [done|].
  rewrite read_stream_snoc. by apply open_onEvent.
Qed.

(** The directories fetched are named by a segment below the prefix. *)
Lemma directories_named pageSize evs l :
  Forall (λ o, isDirectory o = true →
               ∃ seg, segment seg ∧ name o = (prefix +:+ seg +:+ "/")) (fetchedObjects l) →
  Forall (λ o, isDirectory o = true →
               ∃ seg, segment seg ∧ name o = (prefix +:+ seg +:+ "/"))
         (fetchedObjects (read_stream prefix pageSize evs l)).
Proof.
  intros Hl. induction evs as [|ev evs IH] using rev_ind; [done|].
  rewrite read_stream_snoc. revert IH. generalize (read_stream prefix pageSize evs l).
  clear Hl l. intros l Hl. destruct ev as [now obj|err| |]; simpl; try by case_match.
  destruct (onData_cases prefix pageSize now obj l) as [-> | (_ & l1 & Hl1 & ->)]; [done|].
  cut (Forall (λ o, isDirectory o = true →
                    ∃ seg, segment seg ∧ name o = (prefix +:+ seg +:+ "/"))
              (fetchedObjects l1)).
  { by case_match. }
  destruct Hl1 as [-> | [(seg & Hseg & _ & ->) | (n & _ & _ & ->)]]; [done|..]; simpl.
  - apply List.Forall_app. split; [done|]. constructor; [|done]. simpl. eauto.
  - apply List.Forall_app. split; [done|]. constructor; [|done]. done.
Qed.

End Page.

(** X8: a page of the listing holds at most [pageSize] files, and
    [pageSize] is at least 10; the directories are not counted.  The stream
    is destroyed exactly when the page is full, and then more is announced
    and the promise is settled.  When the preference is no number the
    stream is never destroyed. *)
Theorem page_holds_at_most_pageSize_files prefix pageSizePref evs loadMore hasMore objects :
  let pageSize := ListCommand.pageSize_of pageSizePref in
  let l := ListCommand.read_stream prefix pageSize evs
             (ListCommand.listing_start loadMore hasMore objects) in
  match pageSize with
  | Num k =>
      10 ≤ k ∧
      Z.of_nat (length (ListCommand.files (ListCommand.fetchedObjects l))) ≤ k ∧
      (ListCommand.streamDestroyed l = true ↔
       Z.of_nat (length (ListCommand.files (ListCommand.fetchedObjects l))) = k) ∧
      (ListCommand.streamDestroyed l = true →
       ListCommand.hasMore l = true ∧ ListCommand.settled l ≠ None)
  | NaN => ListCommand.streamDestroyed l = false
  end.
Proof.
  simpl. destruct (ListCommand.pageSize_of pageSizePref) as [k|] eqn:Hk.
  - assert (10 ≤ k) as H10.
    { unfold ListCommand.pageSize_of in Hk. destruct pageSizePref; simpl in Hk; [|done].
      simplify_eq. lia. }
    destruct (page_inv_read prefix k evs loadMore hasMore objects) as (Hc & Hle & Ho & Hd);
      [lia|].
    unfold ListCommand.files. rewrite <- Hc. split; [done|]. split; [done|]. split.
    + split; [by intros [? _]%Hd|]. intros Heq.
      destruct (ListCommand.streamDestroyed _) eqn:Hdes; [done|]. specialize (Ho eq_refl). lia.
    + intros Hdes. by destruct (Hd Hdes) as (_ & ? & ?).
  - by apply open_read.
Qed.

(** X9: going up from a directory that the listing shows leads back to
    the directory that was listed: for a well-formed prefix, with or
    without a search text that has no slash, [navigateUp] applied to the
    name of a directory entry gives the prefix. *)
Theorem go_up_from_listed_directory segs text pageSize evs loadMore hasMore objects entry :
  Forall ListCommand.segment segs → ListCommand.slash_free text →
  entry ∈ ListCommand.fetchedObjects
            (ListCommand.read_stream (ListCommand.directory_prefix segs +:+ text) pageSize evs
               (ListCommand.listing_start loadMore hasMore objects)) →
  ListCommand.isDirectory entry = true →
  ListCommand.navigateUp (ListCommand.name entry) = Some (ListCommand.directory_prefix segs).
Proof.
  intros Hsegs Htext Hin Hdir.
  assert (Forall (λ o, ListCommand.isDirectory o = true →
                       ∃ seg, ListCommand.segment seg ∧
                              ListCommand.name o
                              = ((ListCommand.directory_prefix segs +:+ text) +:+ seg +:+ "/"))
            (ListCommand.fetchedObjects
               (ListCommand.read_stream (ListCommand.directory_prefix segs +:+ text)
                  pageSize evs (ListCommand.listing_start loadMore hasMore objects))))
    as Hall by (apply directories_named; constructor).
  rewrite list.Forall_forall in Hall.
  destruct (Hall entry Hin Hdir) as (seg & [Hne Hfree] & ->).
  rewrite string_app_assoc, <- (string_app_assoc text seg "/"), <- directory_prefix_snoc.
  apply navigateUp_directory; [done|]. split.
  - intros H. apply (f_equal String.length) in H. rewrite string_length_app in H.
    destruct seg; [done | simpl in H; lia].
  - unfold ListCommand.slash_free in *.
    destruct (JsString.includes (text +:+ seg) "/") eqn:Hinc; [|done].
    apply includes_iff in Hinc as (a & b & Hab).
    exfalso. clear -Hab Htext Hfree. revert a Hab.
    induction text as [|c text IH]; intros a Hab.
    + rewrite string_app_nil_l in Hab.
      assert (JsString.includes seg "/" = true); [|congruence].
      apply includes_iff. eauto.
    + apply slash_free_cons in Htext as [Hc Htext]. destruct a as [|c' a].
      * rewrite string_app_cons in Hab. injection Hab as -> _. by destruct Hc.
      * rewrite !string_app_cons in Hab. simplify_eq. by apply (IH Htext a).
Qed.

Lemma go_up_from_listed_directory_witness :
  ListCommand.navigateUp "photos/2024/" = Some "photos/".
Proof.
  apply (go_up_from_listed_directory ["photos"] "20" (Num 100)
           [ListCommand.OnData 0
              {| ListCommand.item_name := Some "photos/2024/a.jpg";
                 ListCommand.item_size := Some 10;
                 ListCommand.item_lastModified := None;
                 ListCommand.item_etag := None |}]
           false false []
           {| ListCommand.name := "photos/2024/"; ListCommand.size := 0;
              ListCommand.lastModified := 0; ListCommand.etag := "";
              ListCommand.isDirectory := true |}).
  - repeat constructor. done.
  - reflexivity.
  - vm_compute. left.
  - reflexivity.
Defined.

(** * The order and the names of the entries *)

Section Sort.
Import ListCommand.
Context {A : Type} (cmp : A → A → Z).

Lemma Array_sort_insert_perm x l : sort_insert cmp x l ≡ₚ x :: l.
Proof.
  induction l as [|y l IH]; simpl; [done|].
  case_match; [done|]. rewrite IH. apply perm_swap.
Qed.

Lemma Array_sort_perm l : Array_sort cmp l ≡ₚ l.
Proof.
  induction l as [|x l IH]; simpl; [done|].
  rewrite Array_sort_insert_perm. by rewrite IH.
Qed.

End Sort.

Section Order.
Import ListCommand.
Context (localeCompare : string → string → Z).

Lemma sort_insert_directories_first x l :
  StronglySorted directories_first l →
  StronglySorted directories_first (sort_insert (compareObjects localeCompare) x l).
Proof.
  induction 1 as [|y l Hs IH Hy]; simpl; [by repeat constructor|].
  destruct (compareObjects localeCompare x y <=? 0) eqn:Hc.
  - constructor; [by constructor|].
    apply Z.leb_le in Hc. unfold compareObjects in Hc.
    destruct (isDirectory x) eqn:Hx.
    { apply list.Forall_forall. by intros z _ _. }
    destruct (isDirectory y) eqn:Hyd; simpl in Hc; [lia|].
    constructor.
    + intros H. congruence.
    + eapply List.Forall_impl; [|exact Hy]. unfold directories_first. intros z Hz Hzd.
      specialize (Hz Hzd). congruence.
  - constructor; [exact IH|].
    apply Z.leb_gt in Hc. unfold compareObjects in Hc.
    apply list.Forall_forall. intros z Hz.
    apply (elem_of_Permutation_proper _ _ _ (Array_sort_insert_perm _ x l)) in Hz.
    apply elem_of_cons in Hz as [-> | Hz].
    + intros Hx. rewrite Hx in Hc. simpl in Hc.
      destruct (isDirectory y); [done | simpl in Hc; lia].
    + rewrite list.Forall_forall in Hy. by apply Hy.
Qed.

Lemma Array_sort_directories_first l :
  StronglySorted directories_first (Array_sort (compareObjects localeCompare) l).
Proof.
  induction l as [|x l IH]; simpl; [constructor|]. by apply sort_insert_directories_first.
Qed.

End Order.

(** X10: in the list that [listObjects] shows no directory comes after a
    file, whatever the stream delivered and whatever was shown before. *)
Theorem shown_directories_come_first localeCompare loadMore objects l :
  StronglySorted ListCommand.directories_first
    (ListCommand.newObjects localeCompare loadMore objects l).
Proof. unfold ListCommand.newObjects. apply Array_sort_directories_first. Qed.

(** X11: no two entries of the list shown have the same name, when the
    stream delivers no name twice and, on loading more, the entries shown
    before had different names: a directory is entered once, also across
    pages, and the name of a file is never that of a directory. *)
Theorem shown_names_are_unique localeCompare prefix pageSize evs loadMore hasMore objects :
  NoDup (ListCommand.stream_names evs) →
  NoDup (ListCommand.name <$> objects) →
  NoDup (ListCommand.name <$>
           ListCommand.newObjects localeCompare loadMore objects
             (ListCommand.read_stream prefix pageSize evs
                (ListCommand.listing_start loadMore hasMore objects))).
Proof.
  intros Hstream Hobjects.
  destruct (names_inv_read prefix pageSize evs loadMore hasMore objects Hstream)
    as (_ & Hnd & _).
  unfold ListCommand.newObjects. rewrite Array_sort_perm.
  set (fetched := ListCommand.Array_sort _ _).
  assert (NoDup (ListCommand.name <$> fetched)) as Hf.
  { unfold fetched. by rewrite Array_sort_perm. }
  clearbody fetched. destruct loadMore; [|done].
  rewrite fmap_app. apply list.NoDup_app. split; [done|]. split.
  - intros n Hn Hn'. apply list_elem_of_fmap in Hn' as (o & -> & Ho).
    apply list_elem_of_filter in Ho as [Ho _].
    unfold ListCommand.shown_already in Ho.
    apply list_elem_of_fmap in Hn as (e & He & Hein).
    assert (existsb (λ existing, bool_decide (ListCommand.name existing = ListCommand.name o))
              objects = true); [|congruence].
    apply existsb_exists. exists e. split; [by apply list_elem_of_In|].
    by apply bool_decide_eq_true.
  - clear -Hf. induction fetched as [|o fetched IH]; [constructor|].
    rewrite fmap_cons in Hf. apply list.NoDup_cons in Hf as [Ho Hf].
    rewrite filter_cons. case_decide; [|by apply IH].
    rewrite fmap_cons. apply list.NoDup_cons. split; [|by apply IH].
    intros Hin. apply Ho. apply list_elem_of_fmap in Hin as (o' & -> & Hin).
    apply list_elem_of_filter in Hin as [_ Hin]. apply list_elem_of_fmap. eauto.
Qed.

Lemma shown_names_are_unique_witness :
  NoDup (ListCommand.name <$>
           ListCommand.newObjects (λ a b, if String.leb a b then -1 else 1) true
             [{| ListCommand.name := "docs/"; ListCommand.size := 0;
                 ListCommand.lastModified := 0; ListCommand.etag := "";
                 ListCommand.isDirectory := true |}]
             (ListCommand.read_stream "" (Num 10)
                [ListCommand.OnData 5
                   {| ListCommand.item_name := Some "docs/b.txt";
                      ListCommand.item_size := Some 3;
                      ListCommand.item_lastModified := None;
                      ListCommand.item_etag := None |};
                 ListCommand.OnData 6
                   {| ListCommand.item_name := Some "img/c.png";
                      ListCommand.item_size := Some 4;
                      ListCommand.item_lastModified := None;
                      ListCommand.item_etag := None |};
                 ListCommand.OnData 7
                   {| ListCommand.item_name := Some "z.txt";
                      ListCommand.item_size := None;
                      ListCommand.item_lastModified := None;
                      ListCommand.item_etag := None |};
                 ListCommand.OnEnd]
                (ListCommand.listing_start true true
                   [{| ListCommand.name := "docs/"; ListCommand.size := 0;
                       ListCommand.lastModified := 0; ListCommand.etag := "";
                       ListCommand.isDirectory := true |}]))).
Proof.
  apply shown_names_are_unique.
  - apply (bool_decide_eq_true_1 (NoDup _)). vm_compute. reflexivity.
  - apply (bool_decide_eq_true_1 (NoDup _)). vm_compute. reflexivity.
Defined.

(** * The parts in the hands of the workers *)

Section Hands.
Context (c : Session).

(** The three ways the coordinator goes on after the workers. *)
Lemma after_workers_cases b s :
  (cancelled s = true ∧
   after_workers c b s = set_phase (PAbort ByCancel) (emit ActAbort s)) ∨
  (cancelled s = false ∧ (b = true ∨ failedParts_of c s = []) ∧
   after_workers c b s
   = set_phase PComplete
       (emit (ActComplete (js_sort by_part (uploadedParts s)))
          (set_uploadedParts (js_sort by_part (uploadedParts s)) s))) ∨
  (cancelled s = false ∧ b = false ∧ failedParts_of c s ≠ [] ∧
   after_workers c b s
   = set_phase (PAlert (failedParts_of c s))
       (emit (ActAlert (Z.of_nat (length (uploadedParts s))) (totalParts c)
                (Z.of_nat (length (failedParts_of c s)))) s)).
Proof.
  unfold after_workers, finish. destruct (cancelled s) eqn:Hc.
  - left. split; [done|]. by rewrite andb_false_r.
  - right. destruct b; simpl.
    + left. split; [done|]. split; [by left | done].
    + case_bool_decide as Hlen.
      * left. split; [done|]. split; [|done]. right. by apply nil_length_inv.
      * right. repeat split; try done. intros Hnil. by rewrite Hnil in Hlen.
Qed.

(** What [Promise.all] does when the promise of worker [w] has settled. *)
Lemma settle_cases w s :
  settle c w s = s ∨
  ∃ first, phase s = PWorkers first ∧ (first ≤ w)%nat ∧
    ((∃ err, workers s !! w = Some (WRejected err) ∧
             settle c w s = after_workers c false s) ∨
     (workers s !! w = Some WResolved ∧ all_resolved first s = true ∧
      settle c w s = after_workers c (workers_ok s) s)).
Proof.
  unfold settle. destruct (phase s) as [| |first| | | |] eqn:Hp; try by left.
  case_bool_decide as Hw; [|by left].
  destruct (workers s !! w) as [[| | | |err]|] eqn:Hl; try by left.
  - destruct (all_resolved first s) eqn:Hall; [|by left].
    right. exists first. split; [done|]. split; [done|]. by right.
  - right. exists first. split; [done|]. split; [done|]. left. by exists err.
Qed.

Lemma in_hand_insert ws w st st' :
  ws !! w = Some st → in_hand (<[w := st']> ws) ⊎ held st = in_hand ws ⊎ held st'.
Proof.
  revert w. induction ws as [|st0 ws IH]; intros [|w] Hw; simplify_eq/=.
  - multiset_solver.
  - specialize (IH w Hw). multiset_solver.
Qed.

Lemma in_hand_app ws1 ws2 : in_hand (ws1 ++ ws2) = in_hand ws1 ⊎ in_hand ws2.
Proof.
  induction ws1 as [|st ws1 IH]; simpl; [multiset_solver|]. rewrite IH. multiset_solver.
Qed.

Lemma in_hand_resolved ws : forallb is_resolved ws = true → in_hand ws = ∅.
Proof.
  induction ws as [|st ws IH]; simpl; [done|].
  intros [Hst Hws]%andb_true_iff. rewrite IH by done. destruct st; try done; multiset_solver.
Qed.

Lemma numbers_cons p l : numbers (p :: l) = {[+ partNumber p +]} ⊎ numbers l.
Proof. done. Qed.

Lemma results_snoc l r : results (l ++ [r]) = results l ⊎ {[+ part r +]}.
Proof.
  unfold results. rewrite fmap_app, list_to_set_disj_app. simpl. multiset_solver.
Qed.

End Hands.

Section Turns.
Context (c : Session).

Lemma handed_set_worker w st st' s s1 :
  workers s !! w = Some st →
  workers s1 = workers s → phase s1 = phase s → cancelled s1 = cancelled s →
  (∃ new, trace s1 = new ++ trace s ∧ Forall (λ a, worker_action a = true) new) →
  numbers (queue s1) ⊎ held st' ⊎ results (uploadedParts s1)
  ⊆ numbers (queue s) ⊎ held st ⊎ results (uploadedParts s) →
  (is_rejected st' = false →
   numbers (queue s1) ⊎ held st' ⊎ results (uploadedParts s1)
   = numbers (queue s) ⊎ held st ⊎ results (uploadedParts s)) →
  handed c w s (set_worker w st' s1).
Proof.
  intros Hw Hws Hp Hc Ht Hsub Heq. exists st, st'. simpl. rewrite Hws.
  split; [done|]. split; [done|]. split; [done|]. split; [done|]. split; [done|].
  pose proof (in_hand_insert (workers s) w st st' Hw) as Hin.
  unfold accounted. simpl. rewrite Hws. split.
  - multiset_solver.
  - intros Hr. specialize (Heq Hr). multiset_solver.
Qed.

Lemma turned_set_pending w st st' s s1 :
  workers s !! w = Some st → is_pending st' = true →
  workers s1 = workers s → phase s1 = phase s → cancelled s1 = cancelled s →
  (∃ new, trace s1 = new ++ trace s ∧ Forall (λ a, worker_action a = true) new) →
  queue s1 = queue s → uploadedParts s1 = uploadedParts s → held st' = held st →
  turned c w s (set_worker w st' s1).
Proof.
  intros Hw Hp Hws Hph Hc Ht Hq Hu Hh. exists (set_worker w st' s1). split.
  - eapply handed_set_worker; try done.
    + rewrite Hq, Hu, Hh. done.
    + intros _. by rewrite Hq, Hu, Hh.
  - symmetry. eapply settle_pending; [|exact Hp]. simpl. rewrite Hws.
    apply list_lookup_insert_eq. by eapply lookup_lt_Some.
Qed.

Lemma turned_worker_throw w err s st :
  workers s !! w = Some st → turned c w s (worker_throw c w err s).
Proof.
  intros Hw. unfold worker_throw. eexists. split; [|done].
  eapply handed_set_worker; [exact Hw | by case_match.. | | |].
  - exists []. split; [by case_match | done].
  - assert (queue (if is_cancel err then s else set_uploadError (Some err) s) = queue s)
      as -> by by case_match.
    assert (uploadedParts (if is_cancel err then s else set_uploadError (Some err) s)
            = uploadedParts s) as -> by by case_match.
    simpl. multiset_solver.
  - done.
Qed.

Lemma turned_attempt_failed w p r err s st :
  workers s !! w = Some st → held st = {[+ partNumber p +]} →
  turned c w s (attempt_failed c w p r err s).
Proof.
  intros Hw Hst. unfold attempt_failed. case_match; [by eapply turned_worker_throw|].
  eapply turned_set_pending; try done.
  eexists [_]. split; [reflexivity | by repeat constructor].
Qed.

Lemma turned_uploadPart_start w p r s st :
  workers s !! w = Some st → held st = {[+ partNumber p +]} →
  turned c w s (uploadPart_start c w p r s).
Proof.
  intros Hw Hst. unfold uploadPart_start. case_match; [by eapply turned_attempt_failed|].
  eapply turned_set_pending; try done.
  eexists [_]. split; [reflexivity | by repeat constructor].
Qed.

Lemma turned_writeChunk w p r u n s st :
  workers s !! w = Some st → held st = {[+ partNumber p +]} →
  turned c w s (writeChunk c w p r u n s).
Proof.
  intros Hw Hst. unfold writeChunk. case_match; [by eapply turned_attempt_failed|].
  eapply turned_set_pending; try done; try (by case_match).
  exists []. split; [by case_match | done].
Qed.

(** The head of the loop of a worker: the worker lets go of what it
    held and takes the next part of the queue, or returns. *)
Lemma worker_loop_accounted w st s :
  workers s !! w = Some st →
  ∃ st', is_rejected st' = false ∧
    workers (worker_loop c w s) = <[w := st']> (workers s) ∧
    phase (worker_loop c w s) = phase s ∧ cancelled (worker_loop c w s) = cancelled s ∧
    uploadedParts (worker_loop c w s) = uploadedParts s ∧
    (∃ new, trace (worker_loop c w s) = new ++ trace s ∧
            Forall (λ a, worker_action a = true) new) ∧
    accounted (worker_loop c w s) ⊎ held st = accounted s.
Proof.
  intros Hw. unfold worker_loop, accounted.
  destruct (queue s) as [|p rest] eqn:Hq.
  { exists WResolved. simpl. rewrite Hq. repeat split; try done; [by exists []|].
    pose proof (in_hand_insert (workers s) w st WResolved Hw) as Hin. simpl in Hin.
    multiset_solver. }
  case_match.
  - exists (WPresign p (maxRetries c)). simpl. repeat split; try done.
    + exists [ActPresign (partNumber p)]. split; [reflexivity | by repeat constructor].
    + pose proof (in_hand_insert (workers s) w st (WPresign p (maxRetries c)) Hw) as Hin.
      simpl in Hin. rewrite numbers_cons. multiset_solver.
  - exists WResolved. simpl. rewrite Hq. repeat split; try done; [by exists []|].
    pose proof (in_hand_insert (workers s) w st WResolved Hw) as Hin. simpl in Hin.
    multiset_solver.
Qed.

Lemma turned_part_uploaded w p tag s st :
  workers s !! w = Some st → held st = {[+ partNumber p +]} →
  turned c w s (part_uploaded c w p tag s).
Proof.
  intros Hw Hst. unfold part_uploaded. set (s1 := set_uploadedParts _ s).
  exists (worker_loop c w s1). split; [|done].
  destruct (worker_loop_accounted w st s1 Hw) as (st' & Hr & Hws & Hp & Hc & _ & Ht & Hacc).
  exists st, st'. repeat split; try done.
  - assert (accounted s1 = accounted s ⊎ {[+ partNumber p +]}) as Hs1.
    { unfold accounted, s1. simpl. rewrite results_snoc. simpl. multiset_solver. }
    rewrite Hst in Hacc. multiset_solver.
  - intros _.
    assert (accounted s1 = accounted s ⊎ {[+ partNumber p +]}) as Hs1.
    { unfold accounted, s1. simpl. rewrite results_snoc. simpl. multiset_solver. }
    rewrite Hst in Hacc. multiset_solver.
Qed.

(** A state that differs from another by the registry and by actions of
    a worker. *)
Lemma turned_after w s s0 s' :
  workers s0 = workers s → phase s0 = phase s → cancelled s0 = cancelled s →
  queue s0 = queue s → uploadedParts s0 = uploadedParts s →
  (∃ new, trace s0 = new ++ trace s ∧ Forall (λ a, worker_action a = true) new) →
  turned c w s0 s' → turned c w s s'.
Proof.
  intros Hws Hp Hc Hq Hu (new0 & Ht0 & Hn0) (s2 & (st & st' & Hw & Hws2 & Hp2 & Hc2 & Ht2 & Hsub & Heq) & ->).
  exists s2. split; [|done]. exists st, st'.
  assert (accounted s0 = accounted s) as Hacc by (unfold accounted; by rewrite Hws, Hq, Hu).
  rewrite Hws in Hw, Hws2. rewrite Hacc in Hsub, Heq.
  repeat split; try done; try congruence.
  destruct Ht2 as (new & Ht & Hn). exists (new ++ new0). split.
  - by rewrite Ht, Ht0, app_assoc.
  - by apply List.Forall_app.
Qed.

(** Every callback of a worker is a turn of that worker. *)
Lemma step_turned ev w s s' :
  step c ev s = Some s' → event_worker ev = Some w → turned c w s s'.
Proof.
  intros Hstep Hev.
  destruct ev; simpl in Hev; simplify_eq; simpl in Hstep;
    repeat case_match; simplify_eq.
  - by eapply turned_attempt_failed.
  - eapply (turned_after w s (register w (emit (ActRequest (partNumber p)) s))); try done.
    + exists [ActRequest (partNumber p)]. split; [reflexivity | by repeat constructor].
    + by eapply turned_writeChunk.
  - by eapply turned_attempt_failed.
  - by eapply turned_writeChunk.
  - eapply (turned_after w s (unregister w s)); try done; [by exists []|].
    by eapply turned_part_uploaded.
  - eapply (turned_after w s (unregister w s)); try done; [by exists []|].
    by eapply turned_attempt_failed.
  - eapply (turned_after w s (unregister w s)); try done; [by exists []|].
    by eapply turned_attempt_failed.
  - by eapply turned_uploadPart_start.
Qed.

(** The callbacks that are not those of a worker. *)
Lemma step_coordinator ev s s' :
  step c ev s = Some s' → event_worker ev = None →
  (ev = EvCancel ∧ s' = cancelUpload s) ∨
  (∃ err, ev = EvFPutDone err ∧ phase s = PSimple ∧ s' = set_phase (PDone (outcome_of err)) s) ∨
  (∃ e, ev = EvInitiated (Some e) ∧ phase s = PInitiate ∧
        s' = set_phase (PDone (Failure e)) s) ∨
  (ev = EvInitiated None ∧ phase s = PInitiate ∧
   s' = runUploadWorkers c (set_queue (parts c) s)) ∨
  (∃ answer failed, ev = EvAlert answer ∧ phase s = PAlert failed ∧
        s' = alert_answered c failed (default false answer) s) ∨
  (∃ err why, ev = EvAbortDone err ∧ phase s = PAbort why ∧
        s' = set_phase (PDone (Failure (abort_message why))) s) ∨
  (∃ err, ev = EvCompleteDone err ∧ phase s = PComplete ∧
        s' = set_phase (PDone (outcome_of err)) s).
Proof.
  intros Hstep Hev.
  destruct ev; simpl in Hev; simplify_eq; simpl in Hstep;
    repeat case_match; simplify_eq; eauto 12.
Qed.

End Turns.

Section Rounds.
Context (c : Session).

Lemma count_app f tr1 tr2 : count f (tr1 ++ tr2) = (count f tr1 + count f tr2)%nat.
Proof. unfold count. by rewrite list.filter_app, length_app. Qed.

Lemma count_worker_actions f new :
  (∀ a, worker_action a = true → f a = false) →
  Forall (λ a, worker_action a = true) new → count f new = 0%nat.
Proof.
  intros Hf Hnew. induction Hnew as [|a new Ha Hnew IH]; [done|].
  rewrite count_cons, (Hf a Ha). done.
Qed.

Lemma workerCount_pool s : (workerCount c s ≤ pool c)%nat.
Proof.
  unfold workerCount, pool. destruct (concurrency c) as [k|]; simpl; lia.
Qed.

(** The workers that a round starts: at most as many as the pool holds,
    none of them rejected, and each with a part of the queue or none. *)
Lemma spawn_accounted n s :
  let s1 := Nat.iter n (spawn_worker c) s in
  (∃ new, trace s1 = new ++ trace s ∧ Forall (λ a, worker_action a = true) new) ∧
  phase s1 = phase s ∧ cancelled s1 = cancelled s ∧
  uploadedParts s1 = uploadedParts s ∧
  (∃ ws, workers s1 = workers s ++ ws ∧ length ws = n ∧
         Forall (λ st, is_rejected st = false) ws) ∧
  accounted s1 = accounted s.
Proof.
  induction n as [|n IH]; simpl.
  { split; [by exists []|]. repeat split; try done. exists []. by rewrite app_nil_r. }
  destruct IH as ((new & Ht & Hnew) & Hp & Hc & Hu & (ws & Hws & Hlen & Hrej) & Hacc).
  set (s1 := Nat.iter n (spawn_worker c) s) in *.
  unfold spawn_worker. set (s2 := set_workers _ s1).
  assert (workers s2 !! length (workers s1) = Some WResolved) as Hl.
  { simpl. rewrite lookup_app_r by lia. by rewrite Nat.sub_diag. }
  destruct (worker_loop_accounted c (length (workers s1)) WResolved s2 Hl)
    as (st' & Hr' & Hws' & Hp' & Hc' & Hu' & (new' & Ht' & Hnew') & Hacc').
  split; [|split; [|split; [|split; [|split]]]].
  - exists (new' ++ new). split; [by rewrite Ht', <- app_assoc, <- Ht | by apply List.Forall_app].
  - by rewrite Hp'.
  - by rewrite Hc'.
  - by rewrite Hu'.
  - exists (ws ++ [st']). rewrite Hws'. simpl.
    replace (length (workers s1)) with (length (workers s1) + 0)%nat at 1 by lia.
    rewrite insert_app_r. simpl. rewrite Hws, <- app_assoc. split; [done|].
    rewrite length_app. simpl. split; [lia|]. apply List.Forall_app. split; [done|]. by constructor.
  - simpl in Hacc'. rewrite <- Hacc.
    assert (accounted s2 = accounted s1) as <-.
    { unfold accounted, s2. simpl. rewrite in_hand_app. simpl. multiset_solver. }
    multiset_solver.
Qed.

Lemma runUploadWorkers_cases s :
  ∃ s1,
    (∃ new, trace s1 = new ++ trace s ∧ Forall (λ a, worker_action a = true) new) ∧
    phase s1 = phase s ∧ cancelled s1 = cancelled s ∧
    uploadedParts s1 = uploadedParts s ∧
    (∃ ws, workers s1 = workers s ++ ws ∧ (length ws ≤ pool c)%nat ∧
           Forall (λ st, is_rejected st = false) ws) ∧
    accounted s1 = accounted s ∧
    (all_resolved (length (workers s)) s1 = false ∧
     runUploadWorkers c s = set_phase (PWorkers (length (workers s))) s1 ∨
     all_resolved (length (workers s)) s1 = true ∧
     runUploadWorkers c s = after_workers c (workers_ok s1) s1).
Proof.
  unfold runUploadWorkers. set (s0 := set_uploadError None s).
  destruct (spawn_accounted (workerCount c s0) s0)
    as (Ht & Hp & Hc & Hu & (ws & Hws & Hlen & Hrej) & Hacc).
  set (s1 := Nat.iter _ _ s0) in *. exists s1.
  split; [done|]. split; [done|]. split; [done|]. split; [done|]. split.
  { exists ws. split; [done|]. split; [|done]. rewrite Hlen. apply workerCount_pool. }
  split; [done|]. simpl. destruct (all_resolved (length (workers s)) s1); [by right | by left].
Qed.

End Rounds.

Section Shape.
Context (c : Session).
#[local] Arguments count : simpl never.

(** The shapes of a transition: a cancellation, a callback of a worker
    that [Promise.all] does not react to, one that it reacts to, the start
    of a round, the abort chosen by the user, and the end. *)
Lemma step_shape ev s s' :
  step c ev s = Some s' →
  (ev = EvCancel ∧ s' = cancelUpload s) ∨
  extended 0 s s' ∨
  (∃ s1 b first, phase s = PWorkers first ∧ extended 0 s s1 ∧ s' = after_workers c b s1) ∨
  (∃ s1, (phase s = PInitiate ∨ ∃ failed, phase s = PAlert failed) ∧
         extended (pool c) s s1 ∧
         (s' = set_phase (PWorkers (length (workers s))) s1 ∨
          ∃ b, s' = after_workers c b s1)) ∨
  (∃ failed, phase s = PAlert failed ∧ s' = set_phase (PAbort ByUser) (emit ActAbort s)) ∨
  (∃ o, ends ev (phase s) o ∧ s' = set_phase (PDone o) s).
Proof.
  intros Hstep. destruct (event_worker ev) as [w|] eqn:Hev.
  - destruct (step_turned c ev w s s' Hstep Hev)
      as (s2 & (st & st' & Hw & Hws & Hp & Hc & Ht & _) & ->).
    assert (extended 0 s s2) as Hext.
    { split; [done|]. split; [done|]. split; [done|]. rewrite Hws, length_insert. lia. }
    destruct (settle_cases c w s2) as [-> | (first & Hp2 & _ & Hcase)]; [by right; left|].
    right. right. left. rewrite Hp in Hp2.
    destruct Hcase as [(err & _ & ->) | (_ & _ & ->)]; eauto 10.
  - destruct (step_coordinator c ev s s' Hstep Hev)
      as [[-> ->] | [(err & -> & Hp & ->) | [(e & -> & Hp & ->) | [(-> & Hp & ->) |
          [(answer & failed & -> & Hp & ->) | [(err & why & -> & Hp & ->) |
          (err & -> & Hp & ->)]]]]]].
    + by left.
    + do 5 right. eexists. split; [|done]. simpl. done.
    + do 5 right. eexists. split; [|done]. simpl. done.
    + do 3 right. left.
      destruct (runUploadWorkers_cases c (set_queue (parts c) s))
        as (s1 & Ht & Hp1 & Hc1 & _ & (ws & Hws & Hlen & _) & _ & Hcase).
      exists s1. split; [by left|]. split.
      { split; [done|]. split; [done|]. split; [done|]. rewrite Hws, length_app. simpl. lia. }
      destruct Hcase as [[_ ->] | [_ ->]]; eauto.
    + unfold alert_answered. destruct (default false answer); simpl.
      * do 3 right. left.
        set (s0 := updateTotalProgress c (reset_progress failed (set_queue failed s))).
        destruct (reset_progress_fields failed (set_queue failed s))
          as (Hc0 & Ht0 & _ & Hw0 & _ & _ & Hp0).
        destruct (runUploadWorkers_cases c s0)
          as (s1 & Ht & Hp1 & Hc1 & _ & (ws & Hws & Hlen & _) & _ & Hcase).
        exists s1. split; [right; eauto|]. split.
        { split.
          { destruct Ht as (new & Ht & Hnew). exists new. split; [|done].
            rewrite Ht. unfold s0. simpl. by rewrite Ht0. }
          split; [rewrite Hp1; unfold s0; simpl; by rewrite Hp0|].
          split; [rewrite Hc1; unfold s0; simpl; by rewrite Hc0|].
          rewrite Hws, length_app. unfold s0. simpl. rewrite Hw0. simpl. lia. }
        simpl in Hcase. rewrite Hw0 in Hcase. simpl in Hcase.
        destruct Hcase as [[_ ->] | [_ ->]]; eauto.
      * do 4 right. left. eauto.
    + do 5 right. eexists. split; [|done]. simpl. eauto.
    + do 5 right. eexists. split; [|done]. simpl. done.
Qed.

Lemma extended_count f k s s1 :
  (∀ a, worker_action a = true → f a = false) →
  extended k s s1 → count f (trace s1) = count f (trace s).
Proof.
  intros Hf ((new & -> & Hnew) & _). rewrite count_app.
  by rewrite (count_worker_actions f new Hf Hnew).
Qed.

Lemma ends_phase ev ph o : ends ev ph o → early ph = true ∨ ∃ why, ph = PAbort why ∨ ph = PComplete.
Proof.
  destruct ev as [| | [e|] | | | | | | | | |]; simpl; try done.
  - intros [-> _]. by left.
  - intros [-> _]. by left.
  - intros (why & -> & _). right. exists why. by left.
  - intros [-> _]. right. exists ByUser. by right.
Qed.

(** The abort and the completion: at most one call of the two, and none
    while the coordinator is before them. *)
Lemma step_final_once ev s s' :
  step c ev s = Some s' →
  (count is_final (trace s) ≤ 1)%nat ∧ (early (phase s) = true → count is_final (trace s) = 0%nat) →
  (count is_final (trace s') ≤ 1)%nat ∧
  (early (phase s') = true → count is_final (trace s') = 0%nat).
Proof.
  intros Hstep [Hle Hearly].
  assert (∀ a, worker_action a = true → is_final a = false) as Hwa by (by intros []).
  assert (∀ s1 b, count is_final (trace s1) = 0%nat →
            (count is_final (trace (after_workers c b s1)) ≤ 1)%nat ∧
            (early (phase (after_workers c b s1)) = true →
             count is_final (trace (after_workers c b s1)) = 0%nat)) as Hafter.
  { intros s1 b H0.
    destruct (after_workers_cases c b s1) as [[_ ->] | [(_ & _ & ->) | (_ & _ & _ & ->)]];
      simpl; rewrite count_cons; simpl; rewrite ?H0; split; (lia || done). }
  destruct (step_shape ev s s' Hstep)
    as [[_ ->] | [Hext | [(s1 & b & first & Hp & Hext & ->) |
        [(s1 & Hp & Hext & Hs') | [(failed & Hp & ->) | (o & Hends & ->)]]]]].
  - done.
  - rewrite (extended_count _ _ _ _ Hwa Hext). destruct Hext as (_ & -> & _). done.
  - apply Hafter. rewrite (extended_count _ _ _ _ Hwa Hext). apply Hearly. by rewrite Hp.
  - assert (count is_final (trace s1) = 0%nat) as H0.
    { rewrite (extended_count _ _ _ _ Hwa Hext). apply Hearly.
      by destruct Hp as [-> | [failed ->]]. }
    destruct Hs' as [-> | [b ->]]; [simpl; rewrite H0; split; [lia | done] | by apply Hafter].
  - simpl. rewrite count_cons. simpl. rewrite Hearly by (by rewrite Hp). split; [lia | done].
  - simpl. split; [done | done].
Qed.

(** The workers started: at most a pool for every round. *)
Lemma step_rounds ev s s' :
  step c ev s = Some s' →
  (length (workers s) ≤ rounds s * pool c)%nat →
  (length (workers s') ≤ rounds s' * pool c)%nat.
Proof.
  intros Hstep Hinv.
  assert (∀ a, worker_action a = true → is_alert a = false) as Hwa by (by intros []).
  assert (∀ s1 b, rounds (after_workers c b s1) = S (count is_alert (trace s1)) ∧
                  workers (after_workers c b s1) = workers s1) as Hafter.
  { intros s1 b. unfold rounds.
    destruct (after_workers_cases c b s1) as [[_ ->] | [(_ & _ & ->) | (_ & _ & _ & ->)]];
      simpl; rewrite ?count_cons; simpl; unfold count; split; (lia || done). }
  destruct (step_shape ev s s' Hstep)
    as [[_ ->] | [Hext | [(s1 & b & first & Hp & Hext & ->) |
        [(s1 & Hp & Hext & Hs') | [(failed & Hp & ->) | (o & Hends & ->)]]]]].
  - unfold rounds, cancelUpload, destroy_registered. simpl. by rewrite length_imap.
  - unfold rounds in *. rewrite (extended_count _ _ _ _ Hwa Hext).
    destruct Hext as (_ & -> & _ & Hlen). lia.
  - destruct (Hafter s1 b) as [-> ->]. rewrite (extended_count _ _ _ _ Hwa Hext).
    destruct Hext as (_ & _ & _ & Hlen). unfold rounds in Hinv. rewrite Hp in Hinv. lia.
  - assert (rounds s = count is_alert (trace s)) as Hr.
    { unfold rounds. destruct Hp as [-> | [failed ->]]; lia. }
    pose proof (extended_count _ _ _ _ Hwa Hext) as Hcount.
    destruct Hext as (_ & _ & _ & Hlen).
    destruct Hs' as [-> | [b ->]].
    + unfold rounds. simpl. rewrite Hcount. nia.
    + destruct (Hafter s1 b) as [-> ->]. rewrite Hcount. nia.
  - unfold rounds in *. simpl. rewrite Hp in Hinv. rewrite count_cons. simpl. nia.
  - unfold rounds in *. simpl.
    destruct (ends_phase _ _ _ Hends) as [He | (why & [Hp | Hp])].
    + destruct (phase s); simpl in He; try done; nia.
    + rewrite Hp in Hinv. lia.
    + rewrite Hp in Hinv. lia.
Qed.

(** An abort that was called decides how the upload ends. *)
Lemma step_aborted ev s s' : step c ev s = Some s' → aborted s → aborted s'.
Proof.
  intros Hstep Hinv.
  assert (∀ k s1, extended k s s1 → In ActAbort (trace s1) → In ActAbort (trace s)) as Hext_in.
  { intros k s1 ((new & -> & Hnew) & _) [Hin | Hin]%in_app_or; [|done].
    rewrite List.Forall_forall in Hnew. by apply Hnew in Hin. }
  assert (∀ s1 b, (In ActAbort (trace s1) → False) → aborted (after_workers c b s1)) as Hafter.
  { intros s1 b Hno.
    destruct (after_workers_cases c b s1) as [[_ ->] | [(_ & _ & ->) | (_ & _ & _ & ->)]].
    - intros _. exists ByCancel. by left.
    - intros [? | Hin]; [done | by destruct Hno].
    - intros [? | Hin]; [done | by destruct Hno]. }
  destruct (step_shape ev s s' Hstep)
    as [[_ ->] | [Hext | [(s1 & b & first & Hp & Hext & ->) |
        [(s1 & Hp & Hext & Hs') | [(failed & Hp & ->) | (o & Hends & ->)]]]]].
  - done.
  - intros Hin. pose proof (Hext_in _ _ Hext Hin) as Hin0.
    destruct Hext as (_ & Hp & _). rewrite Hp. by apply Hinv.
  - apply Hafter. intros Hin. apply (Hext_in _ _ Hext) in Hin.
    destruct (Hinv Hin) as (why & [H | H]); congruence.
  - assert (In ActAbort (trace s1) → False) as Hno.
    { intros Hin. apply (Hext_in _ _ Hext) in Hin.
      destruct (Hinv Hin) as (why & [H | H]); destruct Hp as [Hp | [failed Hp]]; congruence. }
    destruct Hs' as [-> | [b ->]]; [|by apply Hafter].
    intros Hin. by destruct Hno.
  - intros _. exists ByUser. by left.
  - intros Hin. simpl in *. destruct (Hinv Hin) as (why & [Hp | Hp]).
    + exists why. right. rewrite Hp in Hends.
      destruct ev as [| | [e|] | | | | | | | | |]; simpl in Hends; try done;
        try (by destruct Hends).
      destruct Hends as (why' & [= <-] & ->). done.
    + rewrite Hp in Hends.
      destruct ev as [| | [e|] | | | | | | | | |]; simpl in Hends; try done;
        try (by destruct Hends). by destruct Hends as (? & ? & _).
Qed.

(** [handleSubmit] ends by one of the four callbacks that end it. *)
Lemma step_ends ev s s' o :
  step c ev s = Some s' → phase s' = PDone o →
  phase s = PDone o ∨ ends ev (phase s) o.
Proof.
  intros Hstep Hdone.
  assert (∀ s1 b, phase (after_workers c b s1) ≠ PDone o) as Hafter.
  { intros s1 b.
    by destruct (after_workers_cases c b s1) as [[_ ->] | [(_ & _ & ->) | (_ & _ & _ & ->)]]. }
  destruct (step_shape ev s s' Hstep)
    as [[_ ->] | [Hext | [(s1 & b & first & Hp & Hext & ->) |
        [(s1 & Hp & Hext & Hs') | [(failed & Hp & ->) | (o' & Hends & ->)]]]]].
  - by left.
  - destruct Hext as (_ & Hp & _). left. congruence.
  - by apply Hafter in Hdone.
  - destruct Hs' as [-> | [b ->]]; [done | by apply Hafter in Hdone].
  - done.
  - simpl in Hdone. simplify_eq. by right.
Qed.

(** Once [handleSubmit] has ended, its phase stays. *)
Lemma step_done ev s s' o : step c ev s = Some s' → phase s = PDone o → phase s' = PDone o.
Proof.
  intros Hstep Hdone.
  destruct (step_shape ev s s' Hstep)
    as [[_ ->] | [Hext | [(s1 & b & first & Hp & Hext & ->) |
        [(s1 & Hp & Hext & Hs') | [(failed & Hp & ->) | (o' & Hends & ->)]]]]];
    try congruence.
  - done.
  - destruct Hext as (_ & Hp & _). congruence.
  - destruct Hp as [Hp | [failed Hp]]; congruence.
  - rewrite Hdone in Hends.
    destruct ev as [| | [e|] | | | | | | | | |]; simpl in Hends; try done;
      try (by destruct Hends). by destruct Hends as (? & ? & _).
Qed.

End Shape.

Lemma handleSubmit_no_worker prefs size :
  workers (handleSubmit prefs size) = [] ∧
  uploadedParts (handleSubmit prefs size) = [] ∧
  Forall (λ a, is_alert a = false ∧ is_final a = false ∧ a ≠ ActAbort)
         (trace (handleSubmit prefs size)) ∧
  (phase (handleSubmit prefs size) = PSimple ∨
   phase (handleSubmit prefs size) = PInitiate ∨
   phase (handleSubmit prefs size) = PDone (Failure array_length_msg)).
Proof.
  unfold handleSubmit. repeat case_match; simpl; repeat split; auto; by repeat constructor.
Qed.

(** X12: in every run of an upload, whatever the workers do and whenever
    the user cancels or answers, [abortMultipartUpload] and
    [completeMultipartUpload] are called at most once together: an upload
    is never completed and aborted, and neither twice. *)
Theorem abort_or_complete_at_most_once prefs size evs s :
  upload prefs size evs = Some s →
  (count is_abort (trace s) + count is_complete (trace s) ≤ 1)%nat.
Proof.
  intros Hrun.
  assert ((count is_final (trace s) ≤ 1)%nat ∧
          (early (phase s) = true → count is_final (trace s) = 0%nat)) as [Hle _].
  { eapply (run_invariant (session_of prefs size)
              (λ s, (count is_final (trace s) ≤ 1)%nat ∧
                    (early (phase s) = true → count is_final (trace s) = 0%nat)));
      [|  | exact Hrun].
    - intros ev s0 s1 Hinv Hstep. by eapply step_final_once.
    - destruct (handleSubmit_no_worker prefs size) as (_ & _ & Htr & _).
      assert (count is_final (trace (handleSubmit prefs size)) = 0%nat) as ->; [|split; [lia|done]].
      induction Htr as [|a tr (_ & Ha & _) Htr IH]; [done|]. by rewrite count_cons, Ha. }
  cut (count is_abort (trace s) + count is_complete (trace s) = count is_final (trace s))%nat;
    [lia|].
  generalize (trace s). intros tr. induction tr as [|a tr IH]; [done|].
  rewrite !count_cons, <- IH. destruct a; simpl; lia.
Qed.

Lemma abort_or_complete_at_most_once_witness :
  ∃ s, upload prefs_two_workers (10 * MiB)
         [EvInitiated None; EvCancel; EvPresigned 0 100; EvPresigned 1 100;
          EvAbortDone None] = Some s ∧
       count is_abort (trace s) = 1%nat ∧
       (count is_abort (trace s) + count is_complete (trace s) ≤ 1)%nat.
Proof.
  eexists. split; [vm_compute; reflexivity|]. split; [reflexivity|].
  apply (abort_or_complete_at_most_once prefs_two_workers (10 * MiB)
           [EvInitiated None; EvCancel; EvPresigned 0 100; EvPresigned 1 100;
            EvAbortDone None]).
  vm_compute. reflexivity.
Defined.

(** X13: the requests open at one time are at most [concurrency] for every
    round of workers started: at most [concurrency] before the first alert,
    and at most that many more for each alert answered by a retry, since the
    workers of an earlier round may still be running. *)
Theorem open_requests_bounded_by_concurrency prefs size evs s k :
  upload prefs size evs = Some s → concurrency_of prefs = Num k →
  (open_requests s ≤ (1 + count is_alert (trace s)) * Z.to_nat k)%nat.
Proof.
  intros Hrun Hk.
  assert (length (workers s) ≤ rounds s * pool (session_of prefs size))%nat as Hinv.
  { eapply (run_invariant (session_of prefs size)
              (λ s, (length (workers s) ≤ rounds s * pool (session_of prefs size))%nat));
      [| | exact Hrun].
    - intros ev s0 s1 Hinv Hstep. by eapply step_rounds.
    - destruct (handleSubmit_no_worker prefs size) as (-> & _). simpl. lia. }
  assert (pool (session_of prefs size) = Z.to_nat k) as Hpool.
  { unfold pool. simpl. by rewrite Hk. }
  rewrite Hpool in Hinv.
  assert (rounds s ≤ 1 + count is_alert (trace s))%nat as Hr.
  { unfold rounds. destruct (phase s); lia. }
  assert (open_requests s ≤ length (workers s))%nat as Hopen.
  { unfold open_requests. apply length_filter. }
  nia.
Qed.

Lemma open_requests_bounded_by_concurrency_witness :
  ∃ s, upload prefs_two_workers (10 * MiB)
         [EvInitiated None; EvPresigned 0 1; EvPresigned 1 1] = Some s ∧
       open_requests s = 2%nat ∧
       (open_requests s ≤ (1 + count is_alert (trace s)) * Z.to_nat 2)%nat.
Proof.
  eexists. split; [vm_compute; reflexivity|]. split; [reflexivity|].
  apply (open_requests_bounded_by_concurrency prefs_two_workers (10 * MiB)
           [EvInitiated None; EvPresigned 0 1; EvPresigned 1 1]).
  - vm_compute. reflexivity.
  - reflexivity.
Defined.

(** * The first round *)

Section FirstRound.
Context (c : Session).

Lemma parts_loop_numbers n i ps size :
  Forall (λ x, i < x) (partNumber <$> parts_loop n i ps size) ∧
  StronglySorted Z.lt (partNumber <$> parts_loop n i ps size).
Proof.
  revert i. induction n as [|n IH]; intros i; simpl; [split; constructor|].
  destruct (IH (i + 1)) as [Hall Hs]. split.
  - constructor; [lia|]. eapply List.Forall_impl; [|exact Hall]. simpl. intros x. lia.
  - constructor; [done|]. eapply List.Forall_impl; [|exact Hall]. simpl. intros x. lia.
Qed.

(** The numbers of the plan go up. *)
Lemma parts_numbers_sorted : StronglySorted Z.lt (partNumber <$> parts c).
Proof.
  unfold parts. destruct (partSize c); [|constructor]. apply parts_loop_numbers.
Qed.

Lemma sorted_lt_le l : StronglySorted Z.lt l → StronglySorted Z.le l.
Proof.
  induction 1 as [|x l Hs IH Hx]; constructor; [done|].
  eapply List.Forall_impl; [|exact Hx]. simpl. intros y. lia.
Qed.

Lemma sorted_multiplicity l x :
  StronglySorted Z.lt l → (multiplicity x (list_to_set_disj l : gmultiset Z) ≤ 1)%nat.
Proof.
  induction 1 as [|a l Hs IH Ha]; simpl.
  - rewrite multiplicity_empty. lia.
  - rewrite multiplicity_disj_union. destruct (decide (x = a)) as [-> | Hne].
    + rewrite multiplicity_singleton_eq.
      assert (multiplicity a (list_to_set_disj l : gmultiset Z) = 0%nat) as ->; [|lia].
      apply not_elem_of_multiplicity. rewrite elem_of_list_to_set_disj.
      intros Hin. rewrite list.Forall_forall in Ha. specialize (Ha a Hin). lia.
    + rewrite multiplicity_singleton_ne by done. lia.
Qed.

Lemma list_to_set_disj_eq_perm (l1 l2 : list Z) :
  (list_to_set_disj l1 : gmultiset Z) = list_to_set_disj l2 → l1 ≡ₚ l2.
Proof.
  revert l2. induction l1 as [|a l1 IH]; intros l2 Heq.
  - destruct l2 as [|b l2]; [done|]. simpl in Heq. multiset_solver.
  - assert (a ∈ l2) as Hin.
    { apply elem_of_list_to_set_disj. rewrite <- Heq. simpl. multiset_solver. }
    apply elem_of_Permutation in Hin as [l2' Hl2]. rewrite Hl2. constructor.
    apply IH. rewrite Hl2 in Heq. simpl in Heq. multiset_solver.
Qed.

Lemma js_sort_parts l :
  StronglySorted Z.le (part <$> js_sort by_part l).
Proof.
  pose proof (js_sort_sorted l) as Hs.
  induction Hs as [|x l' Hs IH Hx]; simpl; constructor; [done|].
  apply list.Forall_forall. intros y (z & -> & Hz)%list_elem_of_fmap.
  rewrite list.Forall_forall in Hx. by apply Hx.
Qed.

(** The results that hold every number of the plan once, sorted, are the
    plan. *)
Lemma sorted_results_are_plan up :
  results up = numbers (parts c) →
  part <$> js_sort by_part up = partNumber <$> parts c.
Proof.
  intros Heq. apply (sorting.StronglySorted_unique Z.le).
  - apply js_sort_parts.
  - apply sorted_lt_le, parts_numbers_sorted.
  - rewrite (js_sort_perm up). by apply list_to_set_disj_eq_perm.
Qed.

(** When no part of the plan is missing among the results, and the
    results count no part that the plan has not or twice, the results
    are the parts of the plan. *)
Lemma no_failed_part s :
  failedParts_of c s = [] → results (uploadedParts s) ⊆ numbers (parts c) →
  results (uploadedParts s) = numbers (parts c).
Proof.
  intros Hnone Hsub. apply gmultiset_eq. intros x.
  pose proof (sorted_multiplicity (partNumber <$> parts c) x parts_numbers_sorted) as Hone.
  assert (multiplicity x (results (uploadedParts s)) ≤ multiplicity x (numbers (parts c)))%nat
    as Hle by multiset_solver.
  unfold numbers in *.
  destruct (decide (x ∈ (list_to_set_disj (partNumber <$> parts c) : gmultiset Z)))
    as [Hin | Hout].
  - assert (x ∈ results (uploadedParts s)) as Hres.
    { apply elem_of_list_to_set_disj in Hin. apply list_elem_of_fmap in Hin as (p & -> & Hp).
      unfold failedParts_of in Hnone.
      destruct (decide (partNumber p ∈ completedPartNumbers s)) as [Hc | Hc].
      - unfold completedPartNumbers in Hc. apply elem_of_list_to_set in Hc.
        by apply elem_of_list_to_set_disj.
      - assert (p ∈ filter (λ p, partNumber p ∉ completedPartNumbers s) (parts c)) as Hf
          by by apply list_elem_of_filter.
        rewrite Hnone in Hf. by apply not_elem_of_nil in Hf. }
    unfold elem_of, gmultiset_elem_of in Hin, Hres. lia.
  - apply not_elem_of_multiplicity in Hout. lia.
Qed.

End FirstRound.

Section FirstRoundSteps.
Context (c : Session).

Lemma settle_rejected w s first err :
  phase s = PWorkers first → (first ≤ w)%nat → workers s !! w = Some (WRejected err) →
  settle c w s = after_workers c false s.
Proof. intros Hp Hw Hl. unfold settle. rewrite Hp, Hl. by rewrite bool_decide_eq_true_2. Qed.

Lemma in_ActComplete_new l new tr :
  Forall (λ a, worker_action a = true) new →
  In (ActComplete l) (new ++ tr) → In (ActComplete l) tr.
Proof.
  intros Hnew [Hin | Hin]%in_app_or; [|done].
  rewrite List.Forall_forall in Hnew. by apply Hnew in Hin.
Qed.

(** The coordinator after the workers of the first round: when no part
    is counted that the plan has not, and all are among the results if the
    round succeeded, a completion is that of the plan, while an alert ends
    the first round. *)
Lemma after_workers_first_round b s1 :
  accounted s1 ⊆ numbers (parts c) →
  (b = true → results (uploadedParts s1) = numbers (parts c)) →
  (∀ l, In (ActComplete l) (trace s1) → part <$> l = partNumber <$> parts c) →
  first_round c (after_workers c b s1).
Proof.
  intros Hsub Hb Hcomp Hzero.
  destruct (after_workers_cases c b s1)
    as [[_ Heq] | [(_ & Hcase & Heq) | (_ & _ & _ & Heq)]]; rewrite Heq in *; clear Heq.
  - simpl. split; [|done]. intros l [? | Hin]; [done | by apply Hcomp].
  - simpl. split; [|done]. intros l [[= <-] | Hin]; [|by apply Hcomp].
    apply sorted_results_are_plan. destruct Hcase as [-> | Hnone]; [by apply Hb|].
    apply no_failed_part; [done|]. unfold accounted in Hsub. multiset_solver.
  - simpl in Hzero. rewrite count_cons in Hzero. simpl in Hzero. lia.
Qed.

Lemma in_hand_imap (f : nat → wstatus → wstatus) ws :
  (∀ i st, held (f i st) = held st) → in_hand (imap f ws) = in_hand ws.
Proof.
  revert f. induction ws as [|st ws IH]; intros f Hf; [done|].
  simpl. rewrite Hf. f_equal. apply IH. intros i st'. apply Hf.
Qed.

Lemma accounted_cancelUpload s : accounted (cancelUpload s) = accounted s.
Proof.
  unfold accounted, cancelUpload, destroy_registered. simpl.
  rewrite in_hand_imap; [done|]. intros i st. case_bool_decide; [|done]. by destruct st.
Qed.

(** An alert stays in the trace. *)
Lemma step_alerts ev s s' :
  step c ev s = Some s' → (count is_alert (trace s) ≤ count is_alert (trace s'))%nat.
Proof.
  intros Hstep. destruct (step_trace c ev s s' Hstep) as (new & -> & _).
  rewrite count_app. lia.
Qed.

(** The first round is kept by every transition. *)
Lemma step_first_round ev s s' :
  step c ev s = Some s' → first_round c s → first_round c s'.
Proof.
  intros Hstep Hinv Hzero.
  pose proof (step_alerts ev s s' Hstep) as Hle.
  destruct (Hinv ltac:(lia)) as [Hcomp Hphase].
  revert Hzero. change (first_round c s').
  destruct (event_worker ev) as [w|] eqn:Hev.
  - destruct (step_turned c ev w s s' Hstep Hev)
      as (s2 & (st & st' & Hw & Hws & Hp & Hc & (new & Ht & Hnew) & Hsub & Heq) & ->).
    assert (∀ l, In (ActComplete l) (trace s2) → part <$> l = partNumber <$> parts c) as Hcomp2.
    { intros l Hin. rewrite Ht in Hin. apply Hcomp. by eapply in_ActComplete_new. }
    assert (workers s2 !! w = Some st') as Hw2.
    { rewrite Hws. apply list_lookup_insert_eq. by eapply lookup_lt_Some. }
    destruct (phase s) as [| |first| | | |] eqn:Hps.
    + destruct Hphase as [Hnil _]. by rewrite Hnil in Hw.
    + destruct Hphase as [Hnil _]. by rewrite Hnil in Hw.
    + destruct Hphase as [-> Hacc].
      destruct (settle_cases c w s2) as [Hsame | (first & Hp2 & _ & Hcase)].
      * rewrite Hsame. intros _. split; [done|]. rewrite Hp. split; [done|].
        rewrite <- Hacc. apply Heq. destruct st' as [| | | |err]; try done.
        rewrite (settle_rejected w s2 0%nat err) in Hsame by (done || lia).
        exfalso. apply (after_workers_not_waiting c false s2 0%nat). by rewrite Hsame.
      * rewrite Hp in Hp2. injection Hp2 as <-.
        destruct Hcase as [(err & _ & ->) | (Hres & Hall & ->)].
        -- apply after_workers_first_round; [by rewrite <- Hacc | done | done].
        -- apply after_workers_first_round; [by rewrite <- Hacc | | done].
           intros Hok. unfold workers_ok in Hok.
           apply andb_true_iff in Hok as [_ Hq%bool_decide_eq_true].
           assert (accounted s2 = accounted s) as Hacc2.
           { apply Heq. rewrite Hw2 in Hres. by injection Hres as ->. }
           rewrite Hacc in Hacc2. unfold accounted in Hacc2. rewrite Hq in Hacc2.
           unfold all_resolved in Hall. rewrite drop_0 in Hall.
           rewrite (in_hand_resolved _ Hall) in Hacc2. unfold numbers in Hacc2 at 1.
           simpl in Hacc2. multiset_solver.
    + done.
    + assert (settle c w s2 = s2) as -> by (unfold settle; by rewrite Hp).
      intros _. split; [done|]. by rewrite Hp.
    + assert (settle c w s2 = s2) as -> by (unfold settle; by rewrite Hp).
      intros _. split; [done|]. by rewrite Hp.
    + assert (settle c w s2 = s2) as -> by (unfold settle; by rewrite Hp).
      intros _. split; [done|]. by rewrite Hp.
  - destruct (step_coordinator c ev s s' Hstep Hev)
      as [[-> ->] | [(err & -> & Hp & ->) | [(e & -> & Hp & ->) | [(-> & Hp & ->) |
          [(answer & failed & -> & Hp & ->) | [(err & why & -> & Hp & ->) |
          (err & -> & Hp & ->)]]]]]].
    + intros _. split; [done|]. simpl.
      destruct (phase s); try done.
      * destruct Hphase as [-> ->]. done.
      * destruct Hphase as [-> ->]. done.
      * destruct Hphase as [-> Hacc]. split; [done|]. by rewrite accounted_cancelUpload.
    + intros _. split; [done | done].
    + intros _. split; [done | done].
    + rewrite Hp in Hphase. destruct Hphase as [Hnil Hup].
      destruct (runUploadWorkers_cases c (set_queue (parts c) s))
        as (s1 & (new & Ht & Hnew) & Hp1 & Hc1 & Hu1 & (ws & Hws & _) & Hacc & Hcase).
      simpl in *. rewrite Hnil in Hws, Hcase. simpl in Hws, Hcase.
      assert (accounted s1 = numbers (parts c)) as Hacc1.
      { rewrite Hacc. unfold accounted. simpl. rewrite Hnil, Hup. simpl.
        unfold results. simpl. multiset_solver. }
      assert (∀ l, In (ActComplete l) (trace s1) → part <$> l = partNumber <$> parts c)
        as Hcomp1.
      { intros l Hin. rewrite Ht in Hin. apply Hcomp. by eapply in_ActComplete_new. }
      destruct Hcase as [[_ ->] | [Hall ->]].
      * intros _. split; [done|]. simpl. done.
      * apply after_workers_first_round; [by rewrite Hacc1 | | done].
        intros Hok. unfold workers_ok in Hok.
        apply andb_true_iff in Hok as [_ Hq%bool_decide_eq_true].
        unfold accounted in Hacc1. rewrite Hq in Hacc1.
        unfold all_resolved in Hall. rewrite drop_0 in Hall.
        rewrite (in_hand_resolved _ Hall) in Hacc1. unfold numbers in Hacc1 at 1.
        simpl in Hacc1. multiset_solver.
    + by rewrite Hp in Hphase.
    + intros _. split; [done | done].
    + intros _. split; [done | done].
Qed.

End FirstRoundSteps.

(** X14: an upload that is completed before any alert was raised is
    completed with the parts of the plan: the array passed to
    [completeMultipartUpload] names every part of the plan once, in the
    order of the plan. *)
Theorem first_round_completes_with_the_plan prefs size evs s l :
  upload prefs size evs = Some s →
  count is_alert (trace s) = 0%nat →
  In (ActComplete l) (trace s) →
  part <$> l = partNumber <$> parts (session_of prefs size).
Proof.
  intros Hrun Hzero Hin.
  assert (first_round (session_of prefs size) s) as Hinv.
  { eapply (run_invariant (session_of prefs size) (first_round (session_of prefs size)));
      [| | exact Hrun].
    - intros ev s0 s1 Hinv Hstep. by eapply step_first_round.
    - intros _. destruct (handleSubmit_no_worker prefs size) as (Hw & Hu & Htr & Hp).
      split.
      + intros l' Hin'. rewrite List.Forall_forall in Htr. apply Htr in Hin'.
        by destruct Hin' as (_ & ? & _).
      + by destruct Hp as [-> | [-> | ->]]. }
  destruct (Hinv Hzero) as [Hcomp _]. by apply Hcomp.
Qed.

Lemma first_round_completes_with_the_plan_witness :
  part <$> [{| part := 1; etag := "a" |}; {| part := 2; etag := "b" |}]
  = partNumber <$> parts (session_of prefs_two_workers (10 * MiB)).
Proof.
  eapply (first_round_completes_with_the_plan prefs_two_workers (10 * MiB)
            [EvInitiated None; EvPresigned 0 100; EvPresigned 1 100;
             EvResponse 1 (Some 200) "b"; EvResponse 0 (Some 200) "a"]).
  - vm_compute. reflexivity.
  - vm_compute. reflexivity.
  - simpl. left. reflexivity.
Defined.

(** * The counters in the first round *)

Section Untouched.
Context (c : Session).





















End Untouched.

Section UntouchedSteps.
Context (c : Session) (Hmulti : multipart c).



End UntouchedSteps.




(** * The writes of a part *)

Lemma write_loop_advances n len u :
  0 ≤ u ≤ len → Z.min len (u + chunkSize) ≤ write_loop n len u ≤ len.
Proof.
  intros Hu. destruct (decide (u < len)) as [Hlt | Hge].
  - revert u Hu Hlt. induction n as [|n IH]; intros u Hu Hlt; simpl.
    + rewrite (proj2 (Z.ltb_lt _ _) Hlt). unfold chunkSize. lia.
    + rewrite (proj2 (Z.ltb_lt _ _) Hlt).
      destruct (decide (Z.min (u + chunkSize) len < len)) as [Hlt' | Hge].
      * unfold chunkSize in *. specialize (IH (Z.min (u + 64 * 1024) len)). lia.
      * rewrite write_loop_done by lia. unfold chunkSize in *. lia.
  - rewrite write_loop_done by lia. unfold chunkSize. lia.
Qed.

(** X15: every call of [writeChunk] writes at least one chunk of 64 KiB
    when less than the whole part is written, whatever [req.write]
    answers: after [n] calls, the first one and one for each ["drain"],
    at least [n] chunks or the whole part are written, never more than the
    part; so the part is written after as many calls as it has chunks. *)
Theorem drain_loop_writes_the_part len accepted :
  0 ≤ len →
  let uploaded := foldl (λ u a, write_loop a len u) 0 accepted in
  Z.min len (Z.of_nat (length accepted) * chunkSize) ≤ uploaded ≤ len ∧
  (ceil_div len chunkSize ≤ Z.of_nat (length accepted) → uploaded = len).
Proof.
  intros Hlen. simpl.
  assert (Z.min len (Z.of_nat (length accepted) * chunkSize)
          ≤ foldl (λ u a, write_loop a len u) 0 accepted ≤ len) as Hb.
  { induction accepted as [|a accepted IH] using rev_ind; simpl.
    - unfold chunkSize. lia.
    - rewrite foldl_app, length_app. simpl.
      pose proof (write_loop_advances a len _ ltac:(split; [|apply IH]; unfold chunkSize in *; lia)).
      unfold chunkSize in *. lia. }
  split; [done|]. intros Hn.
  pose proof (ceil_div_bounds len chunkSize ltac:(unfold chunkSize; lia)) as Hc.
  unfold chunkSize in *. nia.
Qed.

Lemma drain_loop_writes_the_part_witness :
  foldl (λ u a, write_loop a 200000 u) 0 [0%nat; 1%nat; 0%nat; 0%nat] = 200000.
Proof.
  apply (drain_loop_writes_the_part 200000 [0%nat; 1%nat; 0%nat; 0%nat]).
  - lia.
  - vm_compute. discriminate.
Defined.

(** * [handleSubmit] as a whole *)

Section Ended.

Lemma upload_error_toast_style useSSL err :
  UploadCommand.style (UploadCommand.upload_error_toast useSSL err) = UploadCommand.StyleFailure.
Proof. unfold UploadCommand.upload_error_toast. by repeat case_match. Qed.

(** The worker actions are the only ones added once [handleSubmit] has
    left the upload. *)
Lemma step_after_done c ev s s' o :
  step c ev s = Some s' → phase s = PDone o → In ActAbort (trace s') → In ActAbort (trace s).
Proof.
  intros Hstep Hdone Hin.
  destruct (step_shape c ev s s' Hstep)
    as [[_ ->] | [Hext | [(s1 & b & first & Hp & Hext & ->) |
        [(s1 & Hp & Hext & Hs') | [(failed & Hp & ->) | (o' & Hends & ->)]]]]];
    try congruence.
  - done.
  - destruct Hext as ((new & Ht & Hnew) & _). rewrite Ht in Hin.
    apply in_app_or in Hin as [Hin | Hin]; [|done].
    rewrite List.Forall_forall in Hnew. by apply Hnew in Hin.
  - destruct Hp as [Hp | [failed Hp]]; congruence.
  - done.
Qed.

Lemma reachable_step prefs size ev s s' :
  reachable prefs size s → step (session_of prefs size) ev s = Some s' →
  reachable prefs size s'.
Proof.
  intros [evs Hrun] Hstep. exists (evs ++ [ev]). unfold upload in *.
  revert Hrun. generalize (handleSubmit prefs size). induction evs as [|e evs IH]; intros s0; simpl.
  - intros [= ->]. by rewrite Hstep.
  - destruct (step (session_of prefs size) e s0); [apply IH | done].
Qed.

Lemma reachable_aborted prefs size s : reachable prefs size s → aborted s.
Proof.
  intros [evs Hrun].
  eapply (run_invariant (session_of prefs size) aborted); [| | exact Hrun].
  - intros ev s0 s1 Hinv Hstep. by eapply step_aborted.
  - intros Hin. destruct (handleSubmit_no_worker prefs size) as (_ & _ & Htr & _).
    rewrite List.Forall_forall in Htr. apply Htr in Hin. by destruct Hin as (_ & _ & ?).
Qed.

End Ended.

Section Coherent.
Context (basename : string → string) (st : UploadCommand.Settings).


(** How the upload ends when its abort was called: by the return of the
    abort, an error without a code. *)
Lemma step_ends_code c ev code s s' msg :
  step c ev s = Some s' → aborted s → (∀ o, phase s ≠ PDone o) →
  phase s' = PDone (Failure msg) → In ActAbort (trace s') →
  UploadCommand.thrown_code ev code = None.
Proof.
  intros Hstep Hab Hnot Hdone Hin.
  destruct (step_ends c ev s s' _ Hstep Hdone) as [Hp | Hends]; [by apply Hnot in Hp|].
  destruct (event_worker ev) as [w|] eqn:Hev.
  { destruct ev; simpl in Hev; simplify_eq; simpl in Hends; done. }
  destruct (step_coordinator c ev s s' Hstep Hev)
    as [[-> ->] | [(err & -> & Hp & ->) | [(e & -> & Hp & ->) | [(-> & Hp & ->) |
        [(answer & failed & -> & Hp & ->) | [(err & why & -> & Hp & ->) |
        (err & -> & Hp & ->)]]]]]]; simpl in Hends; try done.
  - simpl in Hin. destruct (Hab Hin) as (why & [H | H]); congruence.
  - simpl in Hin. destruct (Hab Hin) as (why & [H | H]); congruence.
  - simpl in Hin. destruct (Hab Hin) as (why & [H | H]); congruence.
Qed.

(** A view before the upload, ended with the toast of a failure. *)
Lemma coherent_failed_before t v :
  UploadCommand.coherent st v → UploadCommand.transfer v = None →
  UploadCommand.style t = UploadCommand.StyleFailure →
  UploadCommand.coherent st (UploadCommand.finished (UploadCommand.set_toast t v)).
Proof.
  intros (_ & _ & Hurl & _) Hnone Ht. split; [done|]. split; [|split].
  - simpl. intros t' [= <-] Hs. congruence.
  - simpl. intros url Hu. destruct (Hurl url Hu) as (? & ? & ? & _). congruence.
  - simpl. by rewrite Hnone.
Qed.

Lemma coherent_no_success v :
  UploadCommand.coherent st v → UploadCommand.stage v ≠ UploadCommand.SFinished →
  ∀ t, UploadCommand.toast v = Some t → UploadCommand.style t ≠ UploadCommand.StyleSuccess.
Proof. intros (_ & Hs & _) Hst t Ht Hstyle. by destruct (Hs t Ht Hstyle) as [? _]. Qed.

(** [handleSubmit] at a step of the upload. *)
Lemma coherent_uploading bucket objectName size code s v :
  reachable (UploadCommand.uploadPrefs st) size s →
  UploadCommand.isUploading v = true →
  (∀ t, UploadCommand.toast v = Some t → UploadCommand.style t ≠ UploadCommand.StyleSuccess) →
  UploadCommand.uploadedFileUrl v = None →
  (∀ msg, phase s = PDone (Failure msg) → In ActAbort (trace s) → code = None) →
  UploadCommand.coherent st (UploadCommand.uploading st bucket objectName size code s v).
Proof.
  intros Hreach Hup Htoast Hurl Hcode. unfold UploadCommand.uploading.
  destruct (phase s) as [| | | | | |[|msg]] eqn:Hp;
    try (split; [done|]; split; [|split; [|by simpl; rewrite ?Hp]]; simpl;
         [intros t Ht Hs; by apply Htoast in Ht | intros url; by rewrite Hurl]).
  - unfold UploadCommand.upload_succeeded.
    destruct (UploadCommand.generatePublicUrl _ _ _) as [publicUrl|].
    + destruct (UploadCommand.autoCopyUrl st).
      * split; [done|]. split; [|split; [|by simpl; rewrite ?Hp]]; simpl.
        -- intros t Ht Hs. by apply Htoast in Ht.
        -- intros url _. eauto.
      * split; [done|]. split; [|split; [|simpl; rewrite Hp; auto]]; simpl.
        -- intros t _ _. eauto.
        -- intros url _. eauto.
    + split; [done|]. split; [|split; [|simpl; rewrite Hp; auto]]; simpl.
      * intros t _ _. eauto.
      * intros url. by rewrite Hurl.
  - unfold UploadCommand.upload_failed.
    split; [done|]. split; [|split]; simpl.
    + intros t [= <-] Hs. by rewrite upload_error_toast_style in Hs.
    + intros url. by rewrite Hurl.
    + split; [done|]. split; [done|]. right. exists msg, code. rewrite Hp. eauto.
Qed.

Lemma coherent_url_none v :
  UploadCommand.coherent st v → (∀ size s, UploadCommand.transfer v = Some (size, s) → ∀ o, phase s ≠ PDone o) →
  UploadCommand.uploadedFileUrl v = None.
Proof.
  intros (_ & _ & Hurl & _) Hnot.
  destruct (UploadCommand.uploadedFileUrl v) as [url|] eqn:Hu; [|done].
  destruct (Hurl url eq_refl) as (size & s & Ht & Hp). by apply (Hnot size s Ht) in Hp.
Qed.

Lemma handleSubmit_not_aborted prefs size : ¬ In ActAbort (trace (handleSubmit prefs size)).
Proof.
  intros Hin. destruct (handleSubmit_no_worker prefs size) as (_ & _ & Htr & _).
  rewrite List.Forall_forall in Htr. apply Htr in Hin. by destruct Hin as (_ & _ & ?).
Qed.

Lemma coherent_begin_upload bucket objectName stat read v :
  UploadCommand.coherent st v → UploadCommand.transfer v = None →
  UploadCommand.stage v ≠ UploadCommand.SFinished →
  UploadCommand.coherent st (UploadCommand.begin_upload st bucket objectName stat read v).
Proof.
  intros Hv Hnone Hstage. unfold UploadCommand.begin_upload.
  pose proof (coherent_no_success v Hv Hstage) as Htoast.
  assert (UploadCommand.isUploading v = true) as Hup.
  { destruct Hv as (-> & _). by destruct (UploadCommand.stage v). }
  assert (UploadCommand.uploadedFileUrl v = None) as Hurl.
  { apply coherent_url_none; [done|]. intros ? ?. by rewrite Hnone. }
  destruct stat as [err|size].
  { apply coherent_failed_before; [done | done | apply upload_error_toast_style]. }
  assert (reachable (UploadCommand.uploadPrefs st) size
            (handleSubmit (UploadCommand.uploadPrefs st) size)) as Hreach by (by exists []).
  destruct (js_lt _ _).
  - apply coherent_uploading; try done;
      first [ by simpl; intros t [= <-]
            | intros msg _ Hin; by apply handleSubmit_not_aborted in Hin ].
  - destruct read as [err|].
    + unfold UploadCommand.upload_failed.
      split; [done|]. split; [|split]; simpl.
      * intros t [= <-] Hs. by rewrite upload_error_toast_style in Hs.
      * intros url. by rewrite Hurl.
      * by rewrite Hnone.
    + apply coherent_uploading; try done.
      all: intros msg _ Hin; by apply handleSubmit_not_aborted in Hin.
Qed.

Lemma coherent_permission_answered values filePath check client v :
  UploadCommand.coherent st v → UploadCommand.transfer v = None →
  UploadCommand.stage v ≠ UploadCommand.SFinished →
  UploadCommand.coherent st (UploadCommand.permission_answered basename st values filePath check client v).
Proof.
  intros Hv Hnone Hstage. unfold UploadCommand.permission_answered.
  pose proof (coherent_no_success v Hv Hstage) as Htoast.
  assert (UploadCommand.isUploading v = true) as Hup.
  { destruct Hv as (-> & _). by destruct (UploadCommand.stage v). }
  assert (UploadCommand.uploadedFileUrl v = None) as Hurl.
  { apply coherent_url_none; [done|]. intros ? ?. by rewrite Hnone. }
  destruct (negb _).
  { by apply coherent_failed_before. }
  destruct client as [err|].
  - split; [done|]. split; [|split]; simpl.
    + by intros t [= <-].
    + intros url. by rewrite Hurl.
    + by rewrite Hnone.
  - split; [done|]. split; [|split]; simpl.
    + intros t Ht Hs. by apply Htoast in Ht.
    + intros url. by rewrite Hurl.
    + by rewrite Hnone.
Qed.

Lemma coherent_cancel v :
  UploadCommand.coherent st v → UploadCommand.isUploading v = true →
  UploadCommand.coherent st (UploadCommand.cancel v).
Proof.
  intros (Hup & Htoast & Hurl & Htr) Hset. unfold UploadCommand.cancel.
  assert (UploadCommand.stage v ≠ UploadCommand.SFinished) as Hstage.
  { intros Hs. rewrite Hs in Hup. simpl in Hup. congruence. }
  destruct (UploadCommand.transfer v) as [[size s]|] eqn:Ht.
  - destruct Htr as (Hreach & _ & Hst).
    split; [done|]. split; [|split]; simpl.
    + intros t Hsome Hs. by destruct (Htoast t Hsome Hs) as [? _].
    + intros url Hu. destruct (Hurl url Hu) as (size' & s' & [= <- <-] & Hp). eauto.
    + split; [|split; [done|]].
      * eapply (reachable_step _ _ EvCancel); [done|]. reflexivity.
      * destruct (UploadCommand.stage v); done.
  - split; [done|]. split; [|split]; simpl.
    + intros t Hsome Hs. destruct (Htoast t Hsome Hs) as (_ & ? & ? & ? & _). congruence.
    + intros url Hu. destruct (Hurl url Hu) as (? & ? & ? & _). congruence.
    + by rewrite Ht.
Qed.

Lemma coherent_upload_callback ev code v v' :
  UploadCommand.coherent st v → UploadCommand.upload_callback st ev code v = Some v' →
  UploadCommand.coherent st v'.
Proof.
  intros Hv Hcb. pose proof Hv as (Hup & Htoast & Hurl & Htr).
  unfold UploadCommand.upload_callback in Hcb.
  destruct (UploadCommand.transfer v) as [[size s]|] eqn:Ht; [|done].
  destruct Htr as (Hreach & Hflag & Hst).
  assert (∃ s', step (session_of (UploadCommand.uploadPrefs st) size) ev s = Some s' ∧
            Some v' = match UploadCommand.stage v with
                      | UploadCommand.SUpload bucket objectName =>
                          Some (UploadCommand.uploading st bucket objectName size
                                  (UploadCommand.thrown_code ev code) s' v)
                      | _ => Some (UploadCommand.set_transfer size s' v)
                      end) as (s' & Hstep & Hv').
  { destruct ev; try done;
      destruct (step _ _ s) as [s'|]; try done; by exists s'. }
  clear Hcb.
  assert (reachable (UploadCommand.uploadPrefs st) size s') as Hreach'
    by (by eapply reachable_step).
  destruct (UploadCommand.stage v) eqn:Hstage; try done; injection Hv' as ->.
  - apply coherent_uploading; [done | done | | |].
    + apply coherent_no_success; [done | by rewrite Hstage].
    + apply coherent_url_none; [done|]. intros ? ? ?. by simplify_eq.
    + intros msg Hp Hin. eapply step_ends_code; try done.
      by apply (reachable_aborted (UploadCommand.uploadPrefs st) size).
  - split; [simpl; by rewrite Hstage|]. split; [|split]; simpl.
    + intros t Hsome Hs. destruct (Htoast t Hsome Hs) as [? _]. congruence.
    + intros url _. exists size, s'. split; [done|].
      by eapply step_done.
    + rewrite Hstage. split; [done|]. split; [done|]. by eapply step_done.
  - split; [simpl; by rewrite Hstage|]. split; [|split]; simpl.
    + intros t Hsome Hs. destruct (Htoast t Hsome Hs) as (_ & ? & ? & [= <- <-] & Hp).
      split; [done|]. exists size, s'. split; [done|]. by eapply step_done.
    + intros url Hu. destruct (Hurl url Hu) as (? & ? & [= <- <-] & Hp).
      exists size, s'. split; [done|]. by eapply step_done.
    + rewrite Hstage. split; [done|]. split; [done|].
      destruct Hst as [Hp | (msg & c & Hp & Hto & Hc)].
      * left. by eapply step_done.
      * right. exists msg, c. split; [by eapply step_done|]. split; [done|].
        intros Hin. apply Hc. eapply step_after_done; done.
Qed.

(** A step of [handleSubmit] before the upload. *)
Lemma coherent_before v v' :
  UploadCommand.coherent st v → UploadCommand.transfer v = None →
  UploadCommand.stage v ≠ UploadCommand.SFinished →
  UploadCommand.isUploading v' = UploadCommand.isUploading v →
  UploadCommand.uploadedFileUrl v' = UploadCommand.uploadedFileUrl v →
  UploadCommand.transfer v' = None →
  (∀ t, UploadCommand.toast v' = Some t → UploadCommand.style t ≠ UploadCommand.StyleSuccess) →
  match UploadCommand.stage v' with
  | UploadCommand.SUpload _ _ | UploadCommand.SCopy | UploadCommand.SFinished => False
  | _ => True
  end →
  UploadCommand.coherent st v'.
Proof.
  intros (Hup & _ & Hurl & _) Hnone Hstage Hup' Hurl' Hnone' Htoast' Hstage'.
  split; [|split; [|split]].
  - rewrite Hup', Hup. destruct (UploadCommand.stage v), (UploadCommand.stage v'); done.
  - intros t Ht Hs. by apply Htoast' in Ht.
  - intros url Hu. rewrite Hurl' in Hu. destruct (Hurl url Hu) as (? & ? & ? & _). congruence.
  - rewrite Hnone'. destruct (UploadCommand.stage v'); done.
Qed.

(** Every callback keeps the view coherent. *)
Lemma callback_coherent cb v v' :
  UploadCommand.coherent st v → UploadCommand.callback basename st cb v = Some v' →
  UploadCommand.coherent st v'.
Proof.
  intros Hv Hcb. pose proof Hv as (Hup & Htoast & Hurl & Htr).
  unfold UploadCommand.callback in Hcb. revert Hcb.
  destruct cb as [err fileExists | access stat client | answer stat read | err stat read
                 | ev code | err | |].
  - destruct (UploadCommand.stage v) as [values| | | | | | |] eqn:Hstage;
      try (by destruct err).
    destruct (UploadCommand.transfer v) as [[size s]|] eqn:Hnone; [by destruct Htr as (_ & _ & ?)|].
    assert (UploadCommand.stage v ≠ UploadCommand.SFinished) as Hnot by (by rewrite Hstage).
    pose proof (coherent_no_success v Hv Hnot) as Hno.
    destruct err as [err|].
    + intros [= <-]. apply (coherent_before v); try done.
      simpl. by intros t [= <-].
    + set (v1 := UploadCommand.set_toast _ v).
      assert (UploadCommand.coherent st v1) as Hv1.
      { apply (coherent_before v); try done; [by intros t [= <-] | simpl; by rewrite Hstage]. }
      destruct (bool_decide _).
      { intros [= <-]. by apply coherent_failed_before. }
      destruct fileExists; intros [= <-].
      * apply (coherent_before v); try done. by intros t [= <-].
      * apply coherent_permission_answered; [done | done | simpl; by rewrite Hstage].
  - destruct (UploadCommand.stage v) as [|values filePath| | | | | |] eqn:Hstage; try done.
    destruct (UploadCommand.transfer v) as [[size s]|] eqn:Hnone; [by destruct Htr as (_ & _ & ?)|].
    intros [= <-].
    apply coherent_permission_answered; [done | done | by rewrite Hstage].
  - destruct (UploadCommand.stage v) as [| |bucket objectName| | | | |] eqn:Hstage; try done.
    destruct (UploadCommand.transfer v) as [[size s]|] eqn:Hnone; [by destruct Htr as (_ & _ & ?)|].
    assert (UploadCommand.stage v ≠ UploadCommand.SFinished) as Hnot by (by rewrite Hstage).
    destruct answer as [err|[|]]; intros [= <-].
    + apply coherent_failed_before; [done | done | apply upload_error_toast_style].
    + by apply coherent_begin_upload.
    + apply (coherent_before v); try done. simpl. by apply (coherent_no_success v).
  - destruct (UploadCommand.stage v) as [| | |bucket objectName| | | |] eqn:Hstage; try done.
    destruct (UploadCommand.transfer v) as [[size s]|] eqn:Hnone; [by destruct Htr as (_ & _ & ?)|].
    assert (UploadCommand.stage v ≠ UploadCommand.SFinished) as Hnot by (by rewrite Hstage).
    destruct err as [err|]; intros [= <-].
    + apply coherent_failed_before; [done | done | apply upload_error_toast_style].
    + by apply coherent_begin_upload.
  - intros Hcb. apply (coherent_upload_callback ev code v); [done|].
    by destruct (UploadCommand.stage v).
  - destruct (UploadCommand.stage v) eqn:Hstage; try done.
    destruct (UploadCommand.transfer v) as [[size s]|] eqn:Hsome; [|done].
    destruct Htr as (Hreach & Hflag & Hp).
    destruct err as [err|]; intros [= <-].
    + split; [done|]. split; [|split]; simpl.
      * intros t [= <-] Hs. by rewrite upload_error_toast_style in Hs.
      * intros url _. eauto.
      * rewrite Hsome. auto.
    + split; [done|]. split; [|split]; simpl.
      * intros t _ _. eauto.
      * intros url _. eauto.
      * rewrite Hsome. auto.
  - destruct (UploadCommand.stage v) eqn:Hstage; try done.
    destruct (UploadCommand.transfer v) as [[size s]|] eqn:Hnone; [by destruct Htr as (_ & _ & ?)|].
    intros [= <-].
    split; [done|]. split; [|split]; simpl.
    + intros t Ht Hs. destruct (Htoast t Ht Hs) as [? _]. congruence.
    + intros url Hu. destruct (Hurl url Hu) as (? & ? & ? & _). congruence.
    + by rewrite Hnone.
  - intros Hcb.
    assert (Some v' = if UploadCommand.isUploading v then Some (UploadCommand.cancel v) else None)
      as Hcb' by (by destruct (UploadCommand.stage v)).
    destruct (UploadCommand.isUploading v) eqn:Hset; [|done]. injection Hcb' as ->.
    by apply coherent_cancel.
Qed.

Lemma run_coherent cbs v v' :
  UploadCommand.coherent st v → UploadCommand.run basename st cbs v = Some v' →
  UploadCommand.coherent st v'.
Proof.
  revert v. induction cbs as [|cb cbs IH]; intros v Hv; simpl.
  - by intros [= <-].
  - destruct (UploadCommand.callback basename st cb v) as [v1|] eqn:Hcb; [|done].
    apply IH. by eapply callback_coherent.
Qed.

Lemma submit_coherent values : UploadCommand.coherent st (UploadCommand.submit values).
Proof. split; [done|]. split; [done|]. split; done. Qed.

Lemma handleSubmit_coherent values cbs v :
  UploadCommand.handleSubmit basename st values cbs = Some v → UploadCommand.coherent st v.
Proof. apply run_coherent, submit_coherent. Qed.

End Coherent.

(** * [handleSubmit] from the form to the toast *)

(** X16: the flag [isUploading], which offers the Cancel Upload action, is set
    at every point of [handleSubmit] before its end and cleared at its end,
    on every path: success, refusal of the file, error of the store or of
    the clipboard, cancellation. *)
Theorem uploading_flag_set_until_the_end basename st values cbs v :
  UploadCommand.handleSubmit basename st values cbs = Some v →
  UploadCommand.isUploading v = negb (UploadCommand.is_finished (UploadCommand.stage v)).
Proof. intros Hrun. by destruct (handleSubmit_coherent basename st values cbs v Hrun) as (? & _). Qed.

Lemma uploading_flag_set_until_the_end_witness :
  ∃ v, UploadCommand.handleSubmit basename_example settings_example values_example
         callbacks_cancelled = Some v ∧
       UploadCommand.stage v = UploadCommand.SFinished ∧
       UploadCommand.isUploading v = negb (UploadCommand.is_finished (UploadCommand.stage v)).
Proof.
  eexists. split; [vm_compute; reflexivity|]. split; [reflexivity|].
  apply (uploading_flag_set_until_the_end basename_example settings_example values_example
           callbacks_cancelled).
  vm_compute. reflexivity.
Defined.

(** X17: a toast of success is shown, and the public URL is set, only when the
    upload has returned without an error. *)
Theorem success_shown_only_after_the_upload basename st values cbs v :
  UploadCommand.handleSubmit basename st values cbs = Some v →
  (∃ t, UploadCommand.toast v = Some t ∧ UploadCommand.style t = UploadCommand.StyleSuccess) ∨
  (∃ url, UploadCommand.uploadedFileUrl v = Some url) →
  ∃ size s, UploadCommand.transfer v = Some (size, s) ∧
            reachable (UploadCommand.uploadPrefs st) size s ∧ phase s = PDone Success.
Proof.
  intros Hrun Hshown.
  destruct (handleSubmit_coherent basename st values cbs v Hrun) as (_ & Htoast & Hurl & Htr).
  assert (∃ size s, UploadCommand.transfer v = Some (size, s) ∧ phase s = PDone Success)
    as (size & s & Hsome & Hp).
  { destruct Hshown as [(t & Ht & Hs) | (url & Hu)].
    - by destruct (Htoast t Ht Hs) as [_ ?].
    - by apply (Hurl url). }
  exists size, s. rewrite Hsome in Htr. by destruct Htr as (? & _).
Qed.

Lemma success_shown_only_after_the_upload_witness :
  ∃ v, UploadCommand.handleSubmit basename_example settings_example values_example
         callbacks_completed = Some v ∧
       UploadCommand.toast v
         = Some (UploadCommand.success_toast "File uploaded and URL copied to clipboard") ∧
       ∃ size s, UploadCommand.transfer v = Some (size, s) ∧
                 reachable (UploadCommand.uploadPrefs settings_example) size s ∧
                 phase s = PDone Success.
Proof.
  eexists. split; [vm_compute; reflexivity|]. split; [reflexivity|].
  apply (success_shown_only_after_the_upload basename_example settings_example values_example
           callbacks_completed).
  - vm_compute. reflexivity.
  - left. eexists. split; reflexivity.
Defined.

(** X18: when [abortMultipartUpload] was called, [handleSubmit] ends with the
    toast Upload Cancelled, with and without SSL, whatever the abort
    answered. *)
Theorem aborted_upload_ends_with_cancelled_toast basename st values cbs v size s :
  UploadCommand.handleSubmit basename st values cbs = Some v →
  UploadCommand.stage v = UploadCommand.SFinished →
  UploadCommand.transfer v = Some (size, s) → In ActAbort (trace s) →
  UploadCommand.toast v = Some UploadCommand.cancelled_toast.
Proof.
  intros Hrun Hstage Hsome Hin.
  destruct (handleSubmit_coherent basename st values cbs v Hrun) as (_ & _ & _ & Htr).
  rewrite Hsome, Hstage in Htr. destruct Htr as (Hreach & _ & Hend).
  destruct (reachable_aborted _ _ _ Hreach Hin) as (why & [Hp | Hp]).
  - destruct Hend as [Hp' | (msg & code & Hp' & _)]; congruence.
  - destruct Hend as [Hp' | (msg & code & Hp' & -> & Hcode)]; [congruence|].
    rewrite Hp in Hp'. injection Hp' as <-. rewrite (Hcode Hin).
    by destruct why, (UploadCommand.useSSL st).
Qed.

Lemma aborted_upload_ends_with_cancelled_toast_witness :
  ∃ v, UploadCommand.handleSubmit basename_example settings_example values_example
         callbacks_cancelled = Some v ∧
       UploadCommand.toast v = Some UploadCommand.cancelled_toast.
Proof.
  eexists. split; [vm_compute; reflexivity|].
  eapply (aborted_upload_ends_with_cancelled_toast basename_example settings_example
            values_example callbacks_cancelled).
  - vm_compute. reflexivity.
  - reflexivity.
  - reflexivity.
  - simpl. left. reflexivity.
Defined.

Section Forgotten.
Context (basename : string → string) (st : UploadCommand.Settings).

(** Before the upload the flag of the cancellation is read by no step of
    [handleSubmit], and the upload resets it when it begins. *)
Lemma callback_flag b cb v v1 :
  UploadCommand.transfer v = None →
  UploadCommand.callback basename st cb (UploadCommand.set_uploadCancelled b v) = Some v1 →
  ∃ v', UploadCommand.callback basename st cb v = Some v' ∧
        (v1 = v' ∨
         (UploadCommand.transfer v' = None ∧ ∃ b', v1 = UploadCommand.set_uploadCancelled b' v')).
Proof.
  intros Hnone.
  unfold UploadCommand.callback, UploadCommand.upload_callback, UploadCommand.cancel.
  cbn [UploadCommand.set_uploadCancelled UploadCommand.transfer UploadCommand.stage
       UploadCommand.isUploading].
  rewrite Hnone.
  unfold UploadCommand.permission_answered, UploadCommand.begin_upload.
  destruct cb as [err fileExists | access stat client | answer stat read | err stat read
                 | ev code | err | |];
  destruct (UploadCommand.stage v) eqn:Hstage; try done;
  repeat case_match; try done;
  intros [= <-]; (eexists; split; [reflexivity|]);
  first [ left; reflexivity
        | right; split; [exact Hnone | by exists b]
        | right; split; [exact Hnone | by exists true] ].
Qed.

Lemma run_flag cbs b v v1 :
  UploadCommand.transfer v = None →
  UploadCommand.run basename st cbs (UploadCommand.set_uploadCancelled b v) = Some v1 →
  ∃ v', UploadCommand.run basename st cbs v = Some v' ∧
        (v1 = v' ∨
         (UploadCommand.transfer v' = None ∧ ∃ b', v1 = UploadCommand.set_uploadCancelled b' v')).
Proof.
  revert b v. induction cbs as [|cb cbs IH]; intros b v Hnone; simpl.
  - intros [= <-]. exists v. split; [done|]. right. eauto.
  - destruct (UploadCommand.callback basename st cb (UploadCommand.set_uploadCancelled b v))
      as [v2|] eqn:Hcb; [|done].
    destruct (callback_flag b cb v v2 Hnone Hcb) as (v' & -> & [-> | (Hnone' & b' & ->)]).
    + intros Hrun. exists v1. auto.
    + by apply IH.
Qed.

End Forgotten.

(** X19: a Cancel Upload pressed before the upload has begun is forgotten:
    once the upload has begun, [handleSubmit] and the upload are where they
    would be had it not been pressed. *)
Theorem cancel_before_the_upload_is_forgotten basename st cbs v0 v :
  UploadCommand.transfer v0 = None →
  UploadCommand.run basename st cbs (UploadCommand.cancel v0) = Some v →
  UploadCommand.transfer v ≠ None →
  UploadCommand.run basename st cbs v0 = Some v.
Proof.
  intros Hnone Hrun Hsome. unfold UploadCommand.cancel in Hrun. rewrite Hnone in Hrun.
  destruct (run_flag basename st cbs true v0 v Hnone Hrun) as (v' & Hrun' & [-> | (Hnone' & b' & ->)]).
  - done.
  - done.
Qed.

Lemma cancel_before_the_upload_is_forgotten_witness :
  ∃ v0 v,
    UploadCommand.run basename_example settings_example [UploadCommand.CbToastShown None true]
      (UploadCommand.submit values_example) = Some v0 ∧
    UploadCommand.uploadCancelled (UploadCommand.cancel v0) = true ∧
    UploadCommand.uploadCancelled v = false ∧
    UploadCommand.run basename_example settings_example
      (tail callbacks_to_upload ++ [UploadCommand.CbUpload (EvInitiated None) None]) v0 = Some v.
Proof.
  eexists _, _. split; [vm_compute; reflexivity|]. split; [reflexivity|]. split; [|
    apply (cancel_before_the_upload_is_forgotten basename_example settings_example);
      [reflexivity | vm_compute; reflexivity | done] ].
  reflexivity.
Defined.

(** * A concurrency that is no number *)

Section Idle.
Context (c : Session) (Hnan : concurrency c = NaN).

Lemma failedParts_of_none s : uploadedParts s = [] → failedParts_of c s = parts c.
Proof.
  intros Hu. unfold failedParts_of, completedPartNumbers. rewrite Hu. simpl.
  induction (parts c) as [|p l IH]; [done|].
  rewrite filter_cons_True by set_solver. by rewrite IH.
Qed.

(** [runUploadWorkers()] starts no worker and returns [false] at once. *)
Lemma runUploadWorkers_idle s :
  workers s = [] → uploadedParts s = [] →
  Forall (λ a, worker_action a = false ∧ ∀ l, a ≠ ActComplete l) (trace s) →
  queue s ≠ [] → parts c ≠ [] →
  idle c (runUploadWorkers c s).
Proof.
  intros Hw Hu Htr Hq Hparts. unfold runUploadWorkers, workerCount. rewrite Hnan. simpl.
  unfold all_resolved. simpl. rewrite Hw. simpl.
  set (s0 := set_uploadError None s).
  assert (workers_ok s0 = false) as ->.
  { unfold workers_ok. simpl. by rewrite (bool_decide_eq_false_2 (queue s = [])). }
  destruct (after_workers_cases c false s0)
    as [(_ & ->) | [(_ & [? | Hnone] & _) | (_ & _ & Hfailed & ->)]].
  - split; [done|]. split; [done|]. split; [|done].
    simpl. constructor; [by split|done].
  - done.
  - by rewrite failedParts_of_none in Hnone.
  - split; [done|]. split; [done|]. split; [|done].
    simpl. constructor; [by split|done].
Qed.

Lemma step_idle ev s s' : idle c s → step c ev s = Some s' → idle c s'.
Proof.
  intros (Hw & Hu & Htr & Hp) Hstep.
  destruct (event_worker ev) as [w|] eqn:Hev.
  { destruct (step_turned c ev w s s' Hstep Hev) as (s2 & (st & _ & Hlook & _) & _).
    by rewrite Hw in Hlook. }
  destruct (step_coordinator c ev s s' Hstep Hev)
    as [[-> ->] | [(err & -> & Hph & ->) | [(e & -> & Hph & ->) | [(-> & Hph & ->) |
        [(answer & failed & -> & Hph & ->) | [(err & why & -> & Hph & ->) |
        (err & -> & Hph & ->)]]]]]]; rewrite ?Hph in Hp.
  - unfold cancelUpload, destroy_registered. split; [simpl; by rewrite Hw|]. done.
  - split; [done|]. split; [done|]. split; [done|]. simpl. by destruct err.
  - done.
  - by apply runUploadWorkers_idle.
  - unfold alert_answered. destruct (default false answer); simpl.
    + destruct Hp as [Hparts Hfailed].
      destruct (reset_progress_fields failed (set_queue failed s))
        as (_ & Ht0 & Hq0 & Hw0 & Hu0 & _ & _).
      apply runUploadWorkers_idle; simpl; try done.
      * by rewrite Hw0.
      * by rewrite Hu0.
      * by rewrite Ht0.
      * by rewrite Hq0.
    + split; [done|]. split; [done|]. split; [|done].
      simpl. constructor; [by split|done].
  - done.
  - done.
Qed.

End Idle.

Lemma handleSubmit_idle prefs size : idle (session_of prefs size) (handleSubmit prefs size).
Proof.
  destruct (handleSubmit_fields prefs size) as (_ & Hw & _ & Hu & _).
  split; [done|]. split; [done|]. unfold handleSubmit, totalParts, parts.
  change (partSize (session_of prefs size)) with (partSize_of prefs).
  change (fileSize (session_of prefs size)) with size.
  destruct (partSizePref prefs) as [n|] eqn:Hn.
  - rewrite (partSize_of_num prefs n Hn). simpl.
    destruct (size <? _) eqn:Hlt; simpl.
    { split; [by repeat constructor|]. by intros [?|[]]. }
    apply Z.ltb_ge in Hlt.
    destruct (_ && _); simpl; [|by split].
    split; [by repeat constructor|].
    intros Hnil. apply (f_equal length) in Hnil.
    pose proof (length_plan size (Z.max 5 n * MiB)) as Hlen. rewrite Hnil in Hlen.
    assert (0 < Z.max 5 n * MiB) as Hps by (unfold MiB; lia).
    pose proof (ceil_div_pos size (Z.max 5 n * MiB) Hps). unfold totalParts_of in Hlen.
    simpl in Hlen. lia.
  - unfold partSize_of. rewrite Hn. simpl. by split.
Qed.

(** X20: when the concurrency of the preferences is no number, an upload starts
    no worker: no part is asked for or sent and the completion is never
    called, so that a file uploaded in parts never succeeds. *)
Theorem unparsable_concurrency_uploads_no_part prefs size evs s :
  concurrencyPref prefs = NaN → upload prefs size evs = Some s →
  workers s = [] ∧
  Forall (λ a, worker_action a = false ∧ ∀ l, a ≠ ActComplete l) (trace s) ∧
  (In ActInitiate (trace s) → phase s ≠ PDone Success).
Proof.
  intros Hnan Hrun.
  assert (concurrency (session_of prefs size) = NaN) as Hc.
  { simpl. unfold concurrency_of. by rewrite Hnan. }
  assert (idle (session_of prefs size) s) as (Hw & _ & Htr & Hp).
  { eapply (run_invariant (session_of prefs size) (idle (session_of prefs size)));
      [| apply handleSubmit_idle | exact Hrun].
    intros ev s0 s1 Hidle Hstep. by eapply step_idle. }
  split; [done|]. split; [done|]. intros Hin Hdone. by rewrite Hdone in Hp.
Qed.

Lemma unparsable_concurrency_uploads_no_part_witness :
  ∃ s, upload {| partSizePref := Num 5; concurrencyPref := NaN; retryCountPref := Num 3 |}
         (10 * MiB) [EvInitiated None; EvAlert (Some true); EvAlert (Some true)] = Some s ∧
       phase s = PAlert (parts (session_of prefs_default (10 * MiB))) ∧
       workers s = [] ∧
       Forall (λ a, worker_action a = false ∧ ∀ l, a ≠ ActComplete l) (trace s) ∧
       (In ActInitiate (trace s) → phase s ≠ PDone Success).
Proof.
  eexists. split; [vm_compute; reflexivity|]. split; [reflexivity|].
  apply (unparsable_concurrency_uploads_no_part
           {| partSizePref := Num 5; concurrencyPref := NaN; retryCountPref := Num 3 |}
           (10 * MiB) [EvInitiated None; EvAlert (Some true); EvAlert (Some true)]).
  - reflexivity.
  - vm_compute. reflexivity.
Defined.
